(** * audo-slide: template replication engine

    A shallow embedding of the Python sources
    [utils/text_utils.py], [utils/image_utils.py], [utils/slide_utils.py],
    [core/template_handler.py] and [core/ppt_builder.py], with the
    properties of the specification stated and proved over it. *)

From Stdlib Require Import String Ascii DecimalString DecimalNat.
From Stdlib Require Import List NArith ZArith Arith Bool Lia.
From Stdlib Require Finite.
Import ListNotations.

(** ** Python strings

    A Python [str] is a sequence of Unicode code points. *)

Definition char := N.
Definition pystr := list char.

Definition char_eqb (a b : char) : bool := N.eqb a b.

Fixpoint pystr_eqb (a b : pystr) : bool :=
  match a, b with
  | [], [] => true
  | x :: a', y :: b' => char_eqb x y && pystr_eqb a' b'
  | _, _ => false
  end.

Definition of_string (s : String.string) : pystr :=
  map Ascii.N_of_ascii (String.list_ascii_of_string s).

Module Text.

(** Code points named by [normalize_key]. *)
Definition ZWSP : char := 8203%N.   (* ​ *)
Definition BOM  : char := 65279%N.  (* ﻿ *)
Definition WJ   : char := 8288%N.   (* ⁠ *)
Definition NBSP : char := 160%N.    (* \xa0 *)
Definition TAB  : char := 9%N.
Definition LF   : char := 10%N.
Definition CR   : char := 13%N.
Definition SP   : char := 32%N.

(** [str.replace(old, new)] for a one-character [old]. *)
Fixpoint replace1 (old : char) (new : pystr) (s : pystr) : pystr :=
  match s with
  | [] => []
  | x :: t => if char_eqb x old then new ++ replace1 old new t
              else x :: replace1 old new t
  end.

(** [str.replace(old, new)] for a two-character [old = c d]: occurrences are
    found from the left and do not overlap. *)
Fixpoint replace2 (c d : char) (new : pystr) (s : pystr) : pystr :=
  match s with
  | [] => []
  | x :: t =>
      match t with
      | [] => [x]
      | y :: t' =>
          if char_eqb x c && char_eqb y d
          then new ++ replace2 c d new t'
          else x :: replace2 c d new t
      end
  end.

(** [c d in s] for a two-character needle. *)
Fixpoint contains2 (c d : char) (s : pystr) : bool :=
  match s with
  | [] => false
  | x :: t =>
      match t with
      | [] => false
      | y :: _ => (char_eqb x c && char_eqb y d) || contains2 c d t
      end
  end.

(** The code points [str.strip()] removes: those for which
    [str.isspace()] holds. *)
Definition py_isspace (c : char) : bool :=
  ((9 <=? c) && (c <=? 13) || (28 <=? c) && (c <=? 32)
   || (c =? 133) || (c =? 160) || (c =? 5760)
   || (8192 <=? c) && (c <=? 8202)
   || (c =? 8232) || (c =? 8233) || (c =? 8239) || (c =? 8287)
   || (c =? 12288))%N.

Fixpoint lstrip (s : pystr) : pystr :=
  match s with
  | [] => []
  | x :: t => if py_isspace x then lstrip t else s
  end.

Definition rstrip (s : pystr) : pystr := rev (lstrip (rev s)).

Definition strip (s : pystr) : pystr := rstrip (lstrip s).

(** [while '  ' in s: s = s.replace('  ', ' ')], with the number of
    iterations bounded by [fuel]. *)
Fixpoint collapse_loop (fuel : nat) (s : pystr) : pystr :=
  match fuel with
  | O => s
  | S f => if contains2 SP SP s
           then collapse_loop f (replace2 SP SP [SP] s)
           else s
  end.

(** The body of [normalize_key] up to the loop. *)
Definition normalize_prefix (s : pystr) : pystr :=
  let s := replace1 ZWSP [] s in
  let s := replace1 BOM [] s in
  let s := replace1 WJ [] s in
  let s := replace1 NBSP [SP] s in
  let s := replace1 TAB [SP] s in
  let s := replace1 CR [] (replace1 LF [] (replace2 CR LF [] s)) in
  strip s.

(** [normalize_key]; the argument is [None] for Python's [None]. Every
    iteration of the loop shortens the string, so its length bounds the
    number of iterations. *)
Definition normalize_key (s : option pystr) : pystr :=
  match s with
  | None => []
  | Some s =>
      let s := normalize_prefix s in
      collapse_loop (length s) s
  end.

(** The normaliser as the specification words it: one classification of
    every code point, a trim, and a squeeze of the runs of spaces. *)
Definition is_invisible (c : char) : bool :=
  char_eqb c ZWSP || char_eqb c BOM || char_eqb c WJ.

Definition is_linebreak (c : char) : bool :=
  char_eqb c CR || char_eqb c LF.

Definition to_space (c : char) : char :=
  if char_eqb c NBSP || char_eqb c TAB then SP else c.

Fixpoint squeeze (s : pystr) : pystr :=
  match s with
  | [] => []
  | x :: t =>
      match t with
      | [] => [x]
      | y :: _ => if char_eqb x SP && char_eqb y SP then squeeze t
                  else x :: squeeze t
      end
  end.

Definition normalize_spec (s : pystr) : pystr :=
  squeeze
    (strip
       (filter (fun c => negb (is_linebreak c))
          (map to_space (filter (fun c => negb (is_invisible c)) s)))).

(** [Subseq a b]: [a] is obtained from [b] by deleting code points. *)
Inductive Subseq : pystr -> pystr -> Prop :=
| Subseq_nil : Subseq [] []
| Subseq_keep x a b : Subseq a b -> Subseq (x :: a) (x :: b)
| Subseq_drop x a b : Subseq a b -> Subseq a (x :: b).

(** A code point the normaliser neither removes nor converts. *)
Definition clean (c : char) : bool :=
  negb (is_invisible c || is_linebreak c || char_eqb c NBSP || char_eqb c TAB).

(** No leading and no trailing whitespace. *)
Definition trimmed (s : pystr) : Prop :=
  match s with
  | [] => True
  | x :: _ => py_isspace x = false /\ py_isspace (last s SP) = false
  end.

End Text.

(** ** Values, text frames and shape elements

    The objects of python-pptx the sources work on, as far as the sources
    look at them. *)

Module Shapes.

(** A cell value of a row, or the argument of [set_text_preserve_style]:
    [None], a float NaN, a [str], or any other object, given by its
    [str()]. *)
Inductive pyval :=
| VNone
| VNaN
| VStr (s : pystr)
| VOther (repr : pystr).

Definition py_str (v : pyval) : pystr :=
  match v with
  | VNone => of_string "None"
  | VNaN => of_string "nan"
  | VStr s => s
  | VOther r => r
  end.

(** What the removal code of [set_text_preserve_style] finds on a run or
    paragraph proxy: neither [_element] nor [element]; an element whose
    parent removes it; an element whose removal raises. The [_Run] proxies
    of python-pptx keep their element as [_r] and are of the first kind; its
    [_Paragraph] proxies have [_element] and are of the second. *)
Inductive access := NoElement | Removable | Stuck.

Record run := {
  r_style : option pystr;   (* the run's own style record, if any *)
  r_text : pystr;           (* the text of its [a:t] child, as stored *)
  r_access : access
}.

(** The children of a paragraph that carry text: runs ([a:r]), line breaks
    ([a:br]) and fields ([a:fld]), in document order. [para.runs] is the
    runs among them; the sources reach nothing else of a paragraph. *)
Inductive inline :=
| IRun (r : run)
| IBreak
| IField (text : pystr).

Record paragraph := {
  p_items : list inline;
  p_access : access
}.

Definition text_frame := list paragraph.

Fixpoint runs_of (items : list inline) : list run :=
  match items with
  | [] => []
  | IRun r :: t => r :: runs_of t
  | _ :: t => runs_of t
  end.

(** [para.runs] *)
Definition p_runs (p : paragraph) : list run := runs_of (p_items p).

(** What python-pptx stores for one code point of an assigned run text: a
    control character other than tab and line feed becomes the seven code
    points [_xHHHH_]. Reading [run.text] gives the stored text back as it
    is. *)
Definition is_control (c : char) : bool :=
  ((c <=? 8) || (11 <=? c) && (c <=? 31))%N.

Definition hex_digit (n : N) : char :=
  if (n <? 10)%N then (48 + n)%N else (55 + n)%N.

Definition escape_char (c : char) : pystr :=
  if is_control c
  then [95%N; 120%N;
        hex_digit ((c / 4096) mod 16); hex_digit ((c / 256) mod 16);
        hex_digit ((c / 16) mod 16); hex_digit (c mod 16); 95%N]
  else [c].

Definition escape (s : pystr) : pystr := flat_map escape_char s.

(** [run.text = t] *)
Definition set_run_text (t : pystr) (r : run) : run :=
  {| r_style := r_style r; r_text := escape t; r_access := r_access r |}.

(** [para.add_run()]: a run without a style record of its own, after the
    other children of the paragraph. Its proxy is a [_Run] like those of
    [para.runs]. *)
Definition new_run : run :=
  {| r_style := None; r_text := []; r_access := NoElement |}.

Definition map_runs (f : run -> run) (items : list inline) : list inline :=
  map (fun x => match x with IRun r => IRun (f r) | _ => x end) items.

(** [for r in p.runs: r.text = ''] *)
Definition blank_runs (p : paragraph) : paragraph :=
  {| p_items := map_runs (set_run_text []) (p_items p);
     p_access := p_access p |}.

Fixpoint remove_at {A : Type} (i : nat) (l : list A) : list A :=
  match l, i with
  | [], _ => []
  | _ :: t, O => t
  | x :: t, S j => x :: remove_at j t
  end.

Fixpoint update_at {A : Type} (i : nat) (f : A -> A) (l : list A) : list A :=
  match l, i with
  | [], _ => []
  | x :: t, O => f x :: t
  | x :: t, S j => x :: update_at j f t
  end.

(** The children of a paragraph with its [i]-th run replaced by [f] of
    it. *)
Fixpoint at_run (i : nat) (f : run -> list inline) (items : list inline)
  : list inline :=
  match items with
  | [] => []
  | IRun r :: t =>
      match i with
      | O => f r ++ t
      | S j => IRun r :: at_run j f t
      end
  | x :: t => x :: at_run i f t
  end.

Definition blank_run (r : run) : list inline := [IRun (set_run_text [] r)].

(** One iteration of the loop over the extra runs: [run = para.runs[i]]
    ([None] is the [IndexError]), then the removal of its element from the
    paragraph, or the blanking when the proxy has no element or the removal
    raises. *)
Definition drop_run (i : nat) (items : list inline) : option (list inline) :=
  match nth_error (runs_of items) i with
  | None => None
  | Some r =>
      match r_access r with
      | Removable => Some (at_run i (fun _ => []) items)
      | NoElement | Stuck => Some (at_run i blank_run items)
      end
  end.

(** [for i in range(len(para.runs) - 1, 0, -1)]: called with
    [i = len(para.runs) - 1], visiting [i], [i-1], ..., [1]. *)
Fixpoint drop_runs (i : nat) (items : list inline) : option (list inline) :=
  match i with
  | O => Some items
  | S j =>
      match drop_run (S j) items with
      | None => None
      | Some items' => drop_runs j items'
      end
  end.

Definition drop_para (i : nat) (tf : text_frame) : option text_frame :=
  match nth_error tf i with
  | None => None
  | Some p =>
      match p_access p with
      | Removable => Some (remove_at i tf)
      | NoElement | Stuck => Some (update_at i blank_runs tf)
      end
  end.

Fixpoint drop_paras (i : nat) (tf : text_frame) : option text_frame :=
  match i with
  | O => Some tf
  | S j =>
      match drop_para (S j) tf with
      | None => None
      | Some tf' => drop_paras j tf'
      end
  end.

(** The text [set_text_preserve_style] writes for [value]. *)
Definition text_of_value (v : pyval) : pystr :=
  match v with
  | VNone | VNaN => []
  | _ => py_str v
  end.

(** The body of [set_text_preserve_style] below [tf = shape.text_frame];
    [None] stands for an [IndexError] of one of the loops. *)
Definition set_text_frame (tf : text_frame) (v : pyval) : option text_frame :=
  let text := text_of_value v in
  match tf with
  | [] => Some tf
  | para :: rest =>
      let items1 :=
        match p_runs para with
        | _ :: _ =>
            drop_runs (length (p_runs para) - 1)
              (at_run 0 (fun r => [IRun (set_run_text text r)]) (p_items para))
        | [] => Some (p_items para ++ [IRun (set_run_text text new_run)])
        end in
      match items1 with
      | None => None
      | Some items' =>
          drop_paras (length tf - 1)
            ({| p_items := items'; p_access := p_access para |} :: rest)
      end
  end.

(** *** Shape elements *)

Definition loc := N.

Inductive ph_kind := NotPlaceholder | PicturePlaceholder | OtherPlaceholder.

Record geometry := {
  g_left : Z; g_top : Z; g_width : Z; g_height : Z
}.

(** The element kinds the sources distinguish: an auto shape, text box or
    placeholder ([p:sp], the only kind with [has_text_frame]), a picture, a
    group, another shape (graphic frame, connector, content part), the
    [p:extLst] marker, and any other element (properties, blips,
    hyperlinks, alternate content). *)
Inductive tagk :=
| TSp (tf : text_frame)
| TPic
| TGrp
| TGraphic
| TExtLst
| TElem.

Record attrs := {
  a_ph : ph_kind;
  a_geom : geometry;
  a_embed : option pystr;   (* the r:embed attribute *)
  a_id : option pystr;      (* the r:id attribute *)
  a_typed : bool            (* [shape.shape_type] finds a type *)
}.

(** An XML element: its identity as a Python object, kind, attributes and
    children in document order. *)
#[local] Unset Elimination Schemes.
Inductive elem :=
| Elem (l : loc) (tag : tagk) (a : attrs) (kids : list elem).
#[local] Set Elimination Schemes.

Definition e_loc (e : elem) : loc := let 'Elem l _ _ _ := e in l.
Definition e_tag (e : elem) : tagk := let 'Elem _ t _ _ := e in t.
Definition e_attrs (e : elem) : attrs := let 'Elem _ _ a _ := e in a.
Definition e_kids (e : elem) : list elem := let 'Elem _ _ _ k := e in k.

Definition has_text_frame (e : elem) : bool :=
  match e_tag e with TSp _ => true | _ => false end.

Definition is_shape_tag (t : tagk) : bool :=
  match t with TSp _ | TPic | TGrp | TGraphic => true | _ => false end.

Definition is_shape (e : elem) : bool := is_shape_tag (e_tag e).

Definition is_group (e : elem) : bool :=
  match e_tag e with TGrp => true | _ => false end.

(** A function on elements that threads a state, applied to a list of
    elements from left to right. *)
Definition thread {S : Type} (f : S -> elem -> S * elem)
  : S -> list elem -> S * list elem :=
  fix go (st : S) (ks : list elem) : S * list elem :=
    match ks with
    | [] => (st, [])
    | k :: ks' =>
        let (s1, k') := f st k in
        let (s2, ks'') := go s1 ks' in
        (s2, k' :: ks'')
    end.

(** [set_text_preserve_style(shape, value)]. *)
Definition set_text_preserve_style (e : elem) (v : pyval) : option elem :=
  match e with
  | Elem l (TSp tf) a kids =>
      match set_text_frame tf v with
      | None => None
      | Some tf' => Some (Elem l (TSp tf') a kids)
      end
  | _ => Some e
  end.

(** [shape.shape_type] raises [NotImplementedError]: on a [p:sp] that is no
    placeholder and in which python-pptx recognises no custom geometry, auto
    shape or text box, and on an element without a shape class of its own
    ([p:contentPart]). Groups and pictures always have a type. *)
Definition shape_type_raises (e : elem) : bool :=
  match e_tag e with
  | TSp _ =>
      match a_ph (e_attrs e) with
      | NotPlaceholder => negb (a_typed (e_attrs e))
      | _ => false
      end
  | TGraphic => negb (a_typed (e_attrs e))
  | _ => false
  end.

(** The guarantee of the specification on an element with a text frame:
    after the call it holds one paragraph with one run. *)
Definition shows_single_run (r : option elem) : Prop :=
  exists l p x a kids,
    r = Some (Elem l (TSp [p]) a kids) /\ p_runs p = [x].

(** A run as [para.runs] of python-pptx gives it. *)
Definition python_run (r : run) : bool :=
  match r_access r with NoElement => true | _ => false end.

Definition removable_run (r : run) : bool :=
  match r_access r with Removable => true | _ => false end.

Definition removable_para (p : paragraph) : bool :=
  match p_access p with Removable => true | _ => false end.

(** A text box of two runs, the first one bold. *)
Definition sample_geometry : geometry :=
  {| g_left := 10; g_top := 20; g_width := 300; g_height := 40 |}.

Definition sample_attrs : attrs :=
  {| a_ph := NotPlaceholder; a_geom := sample_geometry;
     a_embed := None; a_id := None; a_typed := true |}.

Definition sample_para : paragraph :=
  {| p_items :=
       [ IRun {| r_style := Some (of_string "bold");
                 r_text := of_string "Name"; r_access := NoElement |};
         IRun {| r_style := None; r_text := of_string "!";
                 r_access := NoElement |} ];
     p_access := Removable |}.

End Shapes.

(** ** Relationship tables

    The relationships of a part as python-pptx keeps them: a dictionary from
    relationship id to relationship, here in insertion order. *)

Module Rels.

(** The parts a relationship can point at: a slide part, told from any
    other by its number; an image part, which the package keeps once per
    image content; any other part, by name. *)
Inductive part :=
| PSlide (n : N)
| PImage (blob : pystr)
| PNamed (name : pystr).

Inductive target :=
| Internal (p : part)
| External (uri : pystr).

Record rel := { rel_type : pystr; rel_target : target }.

Definition rels := list (pystr * rel).

Definition part_eqb (a b : part) : bool :=
  match a, b with
  | PSlide n, PSlide m => N.eqb n m
  | PImage x, PImage y => pystr_eqb x y
  | PNamed x, PNamed y => pystr_eqb x y
  | _, _ => false
  end.

Definition target_eqb (a b : target) : bool :=
  match a, b with
  | Internal p, Internal q => part_eqb p q
  | External u, External v => pystr_eqb u v
  | _, _ => false
  end.

Definition rel_eqb (a b : rel) : bool :=
  pystr_eqb (rel_type a) (rel_type b)
  && target_eqb (rel_target a) (rel_target b).

Definition keys (r : rels) : list pystr := map fst r.

(** [rels[rId]] *)
Fixpoint lookup (k : pystr) (r : rels) : option rel :=
  match r with
  | [] => None
  | (k', x) :: t => if pystr_eqb k' k then Some x else lookup k t
  end.

(** [rId in rels] *)
Definition mem (k : pystr) (r : rels) : bool :=
  match lookup k r with Some _ => true | None => false end.

(** ["rId%d" % n] *)
Definition rId_name (n : nat) : pystr :=
  of_string "rId" ++ of_string (NilEmpty.string_of_uint (Nat.to_uint n)).

(** The first of [rId (n+1)], [rId n], ..., [rId 2] that is not a key, and
    [rId 1] when all of them are. *)
Fixpoint first_unused (r : rels) (n : nat) : pystr :=
  match n with
  | O => rId_name 1
  | S m => if mem (rId_name (S n)) r then first_unused r m
           else rId_name (S n)
  end.

(** [_next_rId] of python-pptx: the candidates are tried from
    [rId (len(rels) + 1)] down to [rId 1], and the first unused one is the
    answer. Among these [len(rels) + 1] candidates one is unused, so the
    last, [rId 1], needs no test, and the exception python-pptx raises when
    none is free is never raised. *)
Definition next_rId (r : rels) : pystr := first_unused r (length r).

(** The id of the first relationship of the table with this type, target
    and external flag, if there is one. *)
Definition get_matching (r : rels) (x : rel) : option pystr :=
  match find (fun kr => rel_eqb (snd kr) x) r with
  | Some kr => Some (fst kr)
  | None => None
  end.

(** [part.relate_to(target, reltype, is_external)] of python-pptx, a
    get-or-add: the id of a matching relationship when the table has one,
    and otherwise the id of a relationship added under [_next_rId]. *)
Definition relate_to (r : rels) (t : target) (ty : pystr) : rels * pystr :=
  let x := {| rel_type := ty; rel_target := t |} in
  match get_matching r x with
  | Some k => (r, k)
  | None => let k := next_rId r in (r ++ [(k, x)], k)
  end.

(** Removal of the entry of a key. *)
Fixpoint remove_key (k : pystr) (r : rels) : rels :=
  match r with
  | [] => []
  | (k', x) :: t =>
      if pystr_eqb k' k then remove_key k t else (k', x) :: remove_key k t
  end.

Fixpoint nodupb (l : list pystr) : bool :=
  match l with
  | [] => true
  | x :: t => negb (existsb (pystr_eqb x) t) && nodupb t
  end.

(** [d'] is [d] with entries added at its end. *)
Definition ext (d d' : rels) : Prop := exists more, d' = d ++ more.

(** A table is a dictionary: no key twice. *)
Definition rels_ok (r : rels) : bool := nodupb (keys r).

End Rels.

(** ** The relationship remapper ([utils/slide_utils.py]) *)

Module Remap.
Import Shapes Rels.

Definition is_empty (s : pystr) : bool :=
  match s with [] => true | _ => false end.

(** The body of the inner loop of [_remap_relationships_in_element] for one
    attribute of one node: [old] is [node.get(attr)], the result holds the
    destination table and the value of the attribute afterwards. *)
Definition remap_attr (src dst : rels) (old : option pystr)
  : rels * option pystr :=
  match old with
  | None => (dst, None)
  | Some old_rid =>
      if is_empty old_rid then (dst, old)
      else
        match lookup old_rid src with
        | None => (dst, old)
        | Some old_rel =>
            let (dst', new_rid) :=
              relate_to dst (rel_target old_rel) (rel_type old_rel) in
            (dst', Some new_rid)
        end
  end.

(** [_remap_relationships_in_element(src_slide, dst_slide, el)]:
    [el.iter()] visits the element and then its descendants in document
    order; on each node [r:embed] is handled before [r:id]. The tables are
    [src_slide.part.rels], which is only read, and the relationships of
    [dst_slide.part]. *)
Fixpoint remap (src dst : rels) (e : elem) {struct e} : rels * elem :=
  match e with
  | Elem l t a kids =>
      let (d1, embed') := remap_attr src dst (a_embed a) in
      let (d2, id') := remap_attr src d1 (a_id a) in
      let (d3, kids') := thread (remap src) d2 kids in
      (d3,
       Elem l t
         {| a_ph := a_ph a; a_geom := a_geom a;
            a_embed := embed'; a_id := id'; a_typed := a_typed a |}
         kids')
  end.

(** An attribute after the remapping into the table [dst']: absent when it
    was absent, unchanged when its value is empty or no key of the source
    table, and otherwise the id of the first relationship of [dst'] with
    the type and target of the source relationship. *)
Definition attr_remapped (src dst' : rels) (old new : option pystr) : Prop :=
  match old with
  | None => new = None
  | Some o =>
      match (if is_empty o then None else lookup o src) with
      | None => new = Some o
      | Some x =>
          exists k, new = Some k /\ get_matching dst' x = Some k /\
                    lookup k dst' = Some x
      end
  end.

(** The subtree after the remapping: the same tree, node for node, with
    the two attributes of every node remapped. *)
#[local] Unset Elimination Schemes.
Inductive Remapped (src dst' : rels) : elem -> elem -> Prop :=
| Remapped_node l t a a' kids kids' :
    a_ph a' = a_ph a -> a_geom a' = a_geom a -> a_typed a' = a_typed a ->
    attr_remapped src dst' (a_embed a) (a_embed a') ->
    attr_remapped src dst' (a_id a) (a_id a') ->
    Forall2 (Remapped src dst') kids kids' ->
    Remapped src dst' (Elem l t a kids) (Elem l t a' kids').
#[local] Set Elimination Schemes.

(** The node-attribute occurrences of a subtree that the remapper rewrites:
    those whose value is a key of the source table. *)
Definition attr_occurs (src : rels) (v : option pystr) : nat :=
  match v with
  | None => 0
  | Some o => if is_empty o then 0 else if mem o src then 1 else 0
  end.

Fixpoint occurrences (src : rels) (e : elem) : nat :=
  match e with
  | Elem _ _ a kids =>
      attr_occurs src (a_embed a) + attr_occurs src (a_id a)
      + list_sum (map (occurrences src) kids)
  end.

(** The source relationship an attribute value names, if there is one. *)
Definition attr_ref (src : rels) (v : option pystr) : list rel :=
  match v with
  | None => []
  | Some o =>
      if is_empty o then []
      else match lookup o src with Some x => [x] | None => [] end
  end.

(** The source relationships the occurrences of a subtree name, in the
    order the remapper meets them. *)
Fixpoint referenced (src : rels) (e : elem) : list rel :=
  match e with
  | Elem _ _ a kids =>
      attr_ref src (a_embed a) ++ attr_ref src (a_id a)
      ++ flat_map (referenced src) kids
  end.

Definition matched_in (d : rels) (x : rel) : bool :=
  match get_matching d x with Some _ => true | None => false end.

(** The relationships to add for a list of named ones: each one once, at
    its first occurrence, and only when the table [dst] has none of its type
    and target. *)
Definition add_rel (dst : rels) (acc : list rel) (x : rel) : list rel :=
  if matched_in dst x || existsb (fun y => rel_eqb y x) acc then acc
  else acc ++ [x].

Definition new_rels (dst : rels) (refs : list rel) : list rel :=
  fold_left (add_rel dst) refs [].

(** What the remapper guarantees on a subtree [e], from the destination
    table [dst]: the table grows at its end by exactly the relationships to
    add for the occurrences of the subtree, one entry for each, and stays a
    dictionary; it gains at most one entry per occurrence; the subtree is
    remapped node for node. *)
Definition remap_contract (src dst : rels) (e : elem) : Prop :=
  (exists added,
      fst (remap src dst e) = dst ++ added /\
      map snd added = new_rels dst (referenced src e)) /\
  rels_ok (fst (remap src dst e)) = true /\
  length (fst (remap src dst e)) <= length dst + occurrences src e /\
  Remapped src (fst (remap src dst e)) e (snd (remap src dst e)).

(** The reading of the specification: every occurrence creates an entry of
    its own. *)
Definition one_entry_per_occurrence (src dst : rels) (e : elem) : Prop :=
  length (fst (remap src dst e)) = length dst + occurrences src e.

(** A picture group whose two pictures embed the same image, with a
    hyperlink and a reference the source table does not know. *)
Definition geom0 : geometry :=
  {| g_left := 0; g_top := 0; g_width := 100; g_height := 100 |}.

Definition node (l : loc) (t : tagk) (embed id : option pystr)
  (kids : list elem) : elem :=
  Elem l t {| a_ph := NotPlaceholder; a_geom := geom0;
              a_embed := embed; a_id := id; a_typed := true |} kids.

Definition layout_rel : rel :=
  {| rel_type := of_string "slideLayout";
     rel_target := Internal (PNamed (of_string "slideLayout1.xml")) |}.

Definition image_rel : rel :=
  {| rel_type := of_string "image";
     rel_target := Internal (PImage (of_string "logo-bytes")) |}.

Definition link_rel : rel :=
  {| rel_type := of_string "hyperlink";
     rel_target := External (of_string "https://example.org") |}.

Definition sample_src : rels :=
  [ (of_string "rId1", layout_rel); (of_string "rId5", image_rel);
    (of_string "rId7", link_rel) ].

Definition sample_dst : rels := [ (of_string "rId1", layout_rel) ].

Definition sample_subtree : elem :=
  node 1%N TGrp None None
    [ node 2%N TPic (Some (of_string "rId5")) None [];
      node 3%N TPic (Some (of_string "rId5")) None [];
      node 4%N TElem None (Some (of_string "rId7")) [];
      node 5%N TElem (Some (of_string "rId9")) None [] ].

End Remap.

(** ** The template slide, the document and the replication driver
    ([core/template_handler.py], [utils/image_utils.py],
    [utils/slide_utils.py], [core/ppt_builder.py]) *)

Module World.
Import Text Shapes Rels Remap.

(** *** Strings *)

(** [str.lower()] and [str.upper()], code point by code point. The sources
    only test the results against ASCII literals ("nan", the image
    suffixes, "_IMG"). Outside ASCII the model maps the code points whose
    image is one ASCII letter (the Kelvin sign under [lower], the dotless i
    and the long s under [upper]) and leaves the others as they are: their
    images hold no ASCII letter, or more than one code point, and cannot
    complete one of the literals. *)
Definition lower_char (c : char) : char :=
  if ((65 <=? c) && (c <=? 90))%N then (c + 32)%N
  else if (c =? 8490)%N then 107%N
  else c.

Definition upper_char (c : char) : char :=
  if ((97 <=? c) && (c <=? 122))%N then (c - 32)%N
  else if (c =? 305)%N then 73%N
  else if (c =? 383)%N then 83%N
  else c.

Definition py_lower (s : pystr) : pystr := map lower_char s.
Definition py_upper (s : pystr) : pystr := map upper_char s.

(** [s.endswith(suffix)] *)
Definition endswith (s suffix : pystr) : bool :=
  (length suffix <=? length s)
  && pystr_eqb (skipn (length s - length suffix) s) suffix.

(** [s.endswith(suffixes)] for a tuple of suffixes *)
Definition endswith_any (s : pystr) (suffixes : list pystr) : bool :=
  existsb (endswith s) suffixes.

Definition IMAGE_EXTENSIONS : list pystr :=
  map of_string
    [".png"; ".jpg"; ".jpeg"; ".gif"; ".bmp"; ".tif"; ".tiff"; ".webp"]%string.

(** *** Rows *)

(** A row of the table: the column labels, as [str(k)] gives them, with the
    values of the row. *)
Definition row := list (pystr * pyval).

Definition dict := list (pystr * pyval).

(** [d[k] = v] *)
Fixpoint dict_set (d : dict) (k : pystr) (v : pyval) : dict :=
  match d with
  | [] => [(k, v)]
  | (k', v') :: t =>
      if pystr_eqb k' k then (k', v) :: t else (k', v') :: dict_set t k v
  end.

Fixpoint dict_get (d : dict) (k : pystr) : option pyval :=
  match d with
  | [] => None
  | (k', v') :: t => if pystr_eqb k' k then Some v' else dict_get t k
  end.

(** Step 1 of [fill_template_with_row]: the row under normalised keys,
    without the columns whose key is empty. *)
Definition make_row_dict (r : row) : dict :=
  fold_left
    (fun d kv =>
       let k_norm := normalize_key (Some (fst kv)) in
       if is_empty k_norm then d else dict_set d k_norm (snd kv))
    r [].

(** *** The text of a shape *)

(** The text of a child of a paragraph: a line break reads as a vertical
    tab. *)
Definition VT : char := 11%N.

Definition item_text (x : inline) : pystr :=
  match x with
  | IRun r => r_text r
  | IBreak => [VT]
  | IField text => text
  end.

(** [paragraph.text] *)
Definition para_text (p : paragraph) : pystr :=
  concat (map item_text (p_items p)).

Fixpoint join_lines (l : list pystr) : pystr :=
  match l with
  | [] => []
  | x :: t => match t with [] => x | _ :: _ => x ++ LF :: join_lines t end
  end.

(** [get_text_content(shape)]: [shape.text] when the shape has a text
    frame, the empty string otherwise. *)
Definition get_text_content (e : elem) : pystr :=
  match e_tag e with
  | TSp tf => join_lines (map para_text tf)
  | _ => []
  end.

(** *** The decision of [fill_template_with_row] for a matched shape *)

Inductive action :=
| Blank                      (* [set_text_preserve_style(shape, '')] under [has_text_frame] *)
| Picture (path : pystr)     (* [fill_picture(shape, sval)] *)
| PlainText (text : pystr).  (* [set_text_preserve_style(shape, sval)] *)

Definition is_none (v : pyval) : bool :=
  match v with VNone => true | _ => false end.

(** [isinstance(val, str) and val.lower() == 'nan'] *)
Definition is_nan_string (v : pyval) : bool :=
  match v with
  | VStr s => pystr_eqb (py_lower s) (of_string "nan")
  | _ => false
  end.

Definition route (image_suffixes : list pystr) (key : pystr) (val : pyval)
  : action :=
  if is_none val || is_nan_string val then Blank
  else
    let sval := strip (py_str val) in
    if is_empty sval then Blank
    else if endswith (py_upper key) (of_string "_IMG")
            || endswith_any (py_lower sval) image_suffixes
         then Picture sval
         else PlainText sval.

(** The routing as the specification words it, for a value that is missing
    ([None] or a NaN) or present. *)
Definition is_missing (v : pyval) : bool :=
  match v with VNone | VNaN => true | _ => false end.

Definition route_spec (key : pystr) (val : pyval) : action :=
  if is_missing val then Blank
  else if is_nan_string val then Blank
  else if is_empty (strip (py_str val)) then Blank
  else if endswith (py_upper key) (of_string "_IMG") then
         Picture (strip (py_str val))
  else if endswith_any (py_lower (strip (py_str val))) IMAGE_EXTENSIONS then
         Picture (strip (py_str val))
  else PlainText (strip (py_str val)).

(** *** Elements by identity *)

Fixpoint locs (e : elem) : list loc :=
  match e with Elem l _ _ kids => l :: flat_map locs kids end.

Definition locs_l (f : list elem) : list loc := flat_map locs f.

(** The effect, on one tree, of a mutation of the element object [l]: the
    element is replaced by [f] of it, an empty list when it is removed from
    its parent. *)
Fixpoint edit (l : loc) (f : elem -> list elem) (e : elem) : list elem :=
  match e with
  | Elem l' t a kids =>
      if N.eqb l' l then f e
      else [Elem l' t a (flat_map (edit l f) kids)]
  end.

Definition edit_l (l : loc) (f : elem -> list elem) (forest : list elem)
  : list elem :=
  flat_map (edit l f) forest.

(** [copy.deepcopy(element)]: the same tree on fresh objects, numbered from
    [n] on. *)
Fixpoint deepcopy (n : loc) (e : elem) : loc * elem :=
  match e with
  | Elem _ t a kids =>
      let (n', kids') := thread deepcopy (N.succ n) kids in
      (n', Elem n t a kids')
  end.

Definition deepcopy_l (n : loc) (f : list elem) : loc * list elem :=
  thread deepcopy n f.

(** The content of an element: the tree without the identities. *)
Fixpoint content (e : elem) : elem :=
  match e with Elem _ t a kids => Elem 0%N t a (map content kids) end.

(** [parent.insert_element_before(el, 'p:extLst')]: before the first
    [p:extLst] child, at the end when there is none. *)
Fixpoint insert_element_before_extLst (el : elem) (tree : list elem)
  : list elem :=
  match tree with
  | [] => [el]
  | x :: t =>
      match e_tag x with
      | TExtLst => el :: x :: t
      | _ => x :: insert_element_before_extLst el t
      end
  end.

(** [slide.shapes], [group.shapes]: the children that are shapes. *)
Definition shapes_of (tree : list elem) : list elem := filter is_shape tree.

(** *** Slides and the document *)

(** A slide part: the explicit background of its [p:cSld] (no element or
    one), the children of its [p:spTree], its relationships and its
    layout. *)
Record slide := {
  s_bg : list elem;
  s_tree : list elem;
  s_rels : rels;
  s_layout : part
}.

Definition set_tree (s : slide) (tree : list elem) : slide :=
  {| s_bg := s_bg s; s_tree := tree; s_rels := s_rels s;
     s_layout := s_layout s |}.

Definition set_rels (s : slide) (r : rels) : slide :=
  {| s_bg := s_bg s; s_tree := s_tree s; s_rels := r;
     s_layout := s_layout s |}.

(** The objects of a run of [build_ppt_from_excel]. *)
Record world := {
  w_next : N;                    (* the next fresh identity: element, slide part *)
  w_tmpl : slide;                (* [tmpl], the slide of [prs.slides[0]] *)
  w_snapshot : list elem;        (* [original_shapes_xml] *)
  w_new : list (part * slide);   (* the slides added by [add_slide], oldest first *)
  w_sldIdLst : list pystr;       (* [prs.slides._sldIdLst], by relationship id *)
  w_prs_rels : rels;             (* the relationships of [prs.part] *)
  w_other_refs : list pystr;     (* the other [r:id] values of the presentation XML *)
  w_layout_phs : list elem;      (* the placeholders [add_slide] clones from the layout *)
  w_saved : list pystr           (* the files written by [prs.save] *)
}.

Definition with_tmpl (w : world) (s : slide) (n : N) : world :=
  {| w_next := n; w_tmpl := s; w_snapshot := w_snapshot w;
     w_new := w_new w; w_sldIdLst := w_sldIdLst w;
     w_prs_rels := w_prs_rels w; w_other_refs := w_other_refs w;
     w_layout_phs := w_layout_phs w; w_saved := w_saved w |}.

Definition slide_edit (l : loc) (f : elem -> list elem) (s : slide) : slide :=
  {| s_bg := edit_l l f (s_bg s); s_tree := edit_l l f (s_tree s);
     s_rels := s_rels s; s_layout := s_layout s |}.

(** A mutation of the element object [l], seen from every place that can
    hold the object: the template, the snapshot list and the added
    slides. *)
Definition world_edit (l : loc) (f : elem -> list elem) (w : world) : world :=
  {| w_next := w_next w;
     w_tmpl := slide_edit l f (w_tmpl w);
     w_snapshot := edit_l l f (w_snapshot w);
     w_new := map (fun ps => (fst ps, slide_edit l f (snd ps))) (w_new w);
     w_sldIdLst := w_sldIdLst w;
     w_prs_rels := w_prs_rels w; w_other_refs := w_other_refs w;
     w_layout_phs := w_layout_phs w; w_saved := w_saved w |}.

(** *** The file system *)

Inductive file :=
| Image (blob : pystr)   (* a file python-pptx reads as an image *)
| NotImage.              (* any other regular file *)

(** [fs path] is the regular file at [path], if [os.path.isfile(path)]. *)
Definition filesystem := pystr -> option file.

(** *** [fill_picture] *)

Definition image_reltype : pystr := of_string "image".

Definition picture_attrs (ph : ph_kind) (g : geometry) (rId : pystr) : attrs :=
  {| a_ph := ph; a_geom := g; a_embed := Some rId; a_id := None;
     a_typed := true |}.

(** [fill_picture(shape, img_path)] for the shape [e] of the template
    slide [shape.part.slide]. Method 1, [shape.insert_picture], exists on
    picture placeholders only and replaces the placeholder by the picture;
    method 2 adds a picture of the same position and size to the slide's
    shapes and removes the shape from its parent. A file that is no image
    makes both methods raise before they change anything; the second
    exception is caught and reported. *)
Definition fill_picture (fs : filesystem) (w : world) (e : elem)
  (img_path : pystr) : world :=
  if is_empty img_path then w
  else
    match fs img_path with
    | None => w
    | Some NotImage => w
    | Some (Image blob) =>
        let (rels', rId) :=
          relate_to (s_rels (w_tmpl w)) (Internal (PImage blob))
            image_reltype in
        let n := w_next w in
        match a_ph (e_attrs e) with
        | PicturePlaceholder =>
            let pic :=
              Elem n TPic
                (picture_attrs OtherPlaceholder (a_geom (e_attrs e)) rId) [] in
            world_edit (e_loc e) (fun _ => [pic])
              (with_tmpl w (set_rels (w_tmpl w) rels') (N.succ n))
        | _ =>
            let pic :=
              Elem n TPic
                (picture_attrs NotPlaceholder (a_geom (e_attrs e)) rId) [] in
            let tmpl1 :=
              set_tree (set_rels (w_tmpl w) rels')
                (insert_element_before_extLst pic (s_tree (w_tmpl w))) in
            world_edit (e_loc e) (fun _ => []) (with_tmpl w tmpl1 (N.succ n))
        end
    end.

(** *** [fill_template_with_row] *)

(** Step 2: the shapes to process, the top-level shapes with every group
    replaced by its own shapes. This is the list the loop of step 2 builds
    when it runs to its end. *)
Definition candidates (tree : list elem) : list elem :=
  flat_map (fun s => if is_group s then shapes_of (e_kids s) else [s])
    (shapes_of tree).

(** Step 2 under its [try]: the loop asks every top-level shape for its
    [shape_type], and an exception there ends the whole fill ([None]). *)
Definition collect (tree : list elem) : option (list elem) :=
  if existsb shape_type_raises (shapes_of tree) then None
  else Some (candidates tree).

(** The list holds shape proxies; a proxy is its element object. *)
Definition shapes_to_process (tree : list elem) : list loc :=
  map e_loc (candidates tree).

(** The element of a collected proxy, in its current state. *)
Definition find_shape (l : loc) (tree : list elem) : option elem :=
  find (fun e => N.eqb (e_loc e) l) (candidates tree).

(** [set_text_preserve_style] on the element object [l]; it raises no
    exception (lemma [set_text_preserve_style_total]). *)
Definition set_text_at (w : world) (l : loc) (v : pyval) : world :=
  world_edit l
    (fun e => match set_text_preserve_style e v with
              | Some e' => [e']
              | None => [e]
              end) w.

(** The diagnostics of a fill. *)
Record fill_log := {
  matched_count : nat;
  unmatched_shapes : list pystr
}.

Definition matched (log : fill_log) : fill_log :=
  {| matched_count := S (matched_count log);
     unmatched_shapes := unmatched_shapes log |}.

Definition unmatched (log : fill_log) (key : pystr) : fill_log :=
  {| matched_count := matched_count log;
     unmatched_shapes := unmatched_shapes log ++ [key] |}.

(** Step 4, the body of the loop for one shape. *)
Definition fill_shape (fs : filesystem) (image_suffixes : list pystr)
  (row_dict : dict) (st : world * fill_log) (l : loc) : world * fill_log :=
  let (w, log) := st in
  match find_shape l (s_tree (w_tmpl w)) with
  | None => st
  | Some e =>
      let key := normalize_key (Some (get_text_content e)) in
      if is_empty key then st
      else
        match dict_get row_dict key with
        | None => (w, unmatched log key)
        | Some val =>
            match route image_suffixes key val with
            | Blank =>
                ((if has_text_frame e then set_text_at w l (VStr []) else w),
                 matched log)
            | Picture sval => (fill_picture fs w e sval, matched log)
            | PlainText sval => (set_text_at w l (VStr sval), matched log)
            end
        end
  end.

Definition empty_log : fill_log :=
  {| matched_count := 0; unmatched_shapes := [] |}.

(** [fill_template_with_row(tmpl_slide, row, image_suffixes)] on the
    template slide of the world. *)
Definition fill_template_with_row (fs : filesystem)
  (image_suffixes : list pystr) (w : world) (r : row) : world * fill_log :=
  let row_dict := make_row_dict r in
  match collect (s_tree (w_tmpl w)) with
  | None => (w, empty_log)
  | Some shapes =>
      fold_left (fill_shape fs image_suffixes row_dict) (map e_loc shapes)
        (w, empty_log)
  end.

(** *** The snapshot ([backup_template_shapes], [restore_template_shapes]) *)

(** [backup_template_shapes(tmpl_slide)]; the list it returns is the
    [original_shapes_xml] of the driver. *)
Definition backup_template_shapes (w : world) : world :=
  let (n', copies) := deepcopy_l (w_next w) (shapes_of (s_tree (w_tmpl w))) in
  {| w_next := n'; w_tmpl := w_tmpl w; w_snapshot := copies;
     w_new := w_new w; w_sldIdLst := w_sldIdLst w;
     w_prs_rels := w_prs_rels w; w_other_refs := w_other_refs w;
     w_layout_phs := w_layout_phs w; w_saved := w_saved w |}.

(** One iteration of the second loop of [restore_template_shapes]. *)
Definition restore_one (st : N * list elem) (orig_xml : elem)
  : N * list elem :=
  let (n, tree) := st in
  let (n', new_el) := deepcopy n orig_xml in
  (n', insert_element_before_extLst new_el tree).

(** [restore_template_shapes(tmpl_slide, original_shapes_xml)]: every
    shape of the slide is removed from the shape tree, then a copy of every
    entry of the list is inserted. *)
Definition restore_template_shapes (w : world) (original_shapes_xml : list elem)
  : world :=
  let tree1 := filter (fun e => negb (is_shape e)) (s_tree (w_tmpl w)) in
  let (n', tree2) :=
    fold_left restore_one original_shapes_xml (w_next w, tree1) in
  with_tmpl w (set_tree (w_tmpl w) tree2) n'.

(** *** [duplicate_slide] *)

Definition slide_reltype : pystr := of_string "slide".
Definition layout_reltype : pystr := of_string "slideLayout".

(** The relationship from the presentation part to the slide part [n]. *)
Definition slide_rel (n : N) : rel :=
  {| rel_type := slide_reltype; rel_target := Internal (PSlide n) |}.

Definition plain_attrs : attrs :=
  {| a_ph := NotPlaceholder;
     a_geom := {| g_left := 0; g_top := 0; g_width := 0; g_height := 0 |};
     a_embed := None; a_id := None; a_typed := true |}.

(** The shape tree of a new slide before the placeholders: the group
    properties of [p:spTree]. *)
Definition new_slide_tree : list elem :=
  [Elem 0%N TElem plain_attrs []; Elem 0%N TElem plain_attrs []].

(** One iteration of the loop of [duplicate_slide] over [src_slide.shapes]:
    the copy is inserted into the destination tree and remapped. *)
Definition clone_shape (src_rels : rels) (st : N * rels * list elem)
  (shape : elem) : N * rels * list elem :=
  let '(n, dst_rels, dst_tree) := st in
  let (n', new_el) := deepcopy n shape in
  let (dst_rels', new_el') := remap src_rels dst_rels new_el in
  (n', dst_rels', insert_element_before_extLst new_el' dst_tree).

(** [duplicate_slide(prs, src_slide)] for the template slide as source.
    Step 1 is [prs.slides.add_slide(layout)]: a new slide part related to
    the layout, with the layout's placeholders, related from the
    presentation part and appended to the slide list. Step 3 copies
    [src_slide.background.element]: python-pptx wraps the [p:cSld] element
    of the slide in the background proxy, so the copy that replaces the
    destination's holds the background and the whole shape tree. *)
Definition duplicate_slide (w : world) : world :=
  let src := w_tmpl w in
  let p := PSlide (w_next w) in
  let (prs_rels', rId) :=
    relate_to (w_prs_rels w) (Internal p) slide_reltype in
  let (n1, base) := deepcopy_l (N.succ (w_next w)) new_slide_tree in
  let (n2, phs) := deepcopy_l n1 (w_layout_phs w) in
  let rels0 := fst (relate_to [] (Internal (s_layout src)) layout_reltype) in
  let '(n3, rels1, _) :=
    fold_left (clone_shape (s_rels src)) (shapes_of (s_tree src))
      (n2, rels0, base ++ phs) in
  let (n4, csld) := deepcopy_l n3 (s_bg src ++ s_tree src) in
  let (rels2, csld') := thread (remap (s_rels src)) rels1 csld in
  let dst :=
    {| s_bg := firstn (length (s_bg src)) csld';
       s_tree := skipn (length (s_bg src)) csld';
       s_rels := rels2; s_layout := s_layout src |} in
  {| w_next := n4; w_tmpl := w_tmpl w; w_snapshot := w_snapshot w;
     w_new := w_new w ++ [(p, dst)];
     w_sldIdLst := w_sldIdLst w ++ [rId];
     w_prs_rels := prs_rels'; w_other_refs := w_other_refs w;
     w_layout_phs := w_layout_phs w; w_saved := w_saved w |}.

(** *** [build_ppt_from_excel] *)

(** The table [pd.read_excel] returns: the column labels and the rows of
    values. *)
Record dataframe := {
  df_columns : list pystr;
  df_rows : list (list pyval)
}.

(** [df.empty]: an axis of length 0. *)
Definition df_empty (df : dataframe) : bool :=
  match df_columns df, df_rows df with
  | _ :: _, _ :: _ => false
  | _, _ => true
  end.

(** [df.iterrows()] *)
Definition iterrows (df : dataframe) : list row :=
  map (fun values => combine (df_columns df) values) (df_rows df).

(** The body of the loop over the rows: fill, clone, restore. *)
Definition process_row (fs : filesystem) (w : world) (r : row) : world :=
  let w1 := fst (fill_template_with_row fs IMAGE_EXTENSIONS w r) in
  let w2 := duplicate_slide w1 in
  restore_template_shapes w2 (w_snapshot w2).

(** [part._rel_ref_count(rId)] on the presentation part *)
Definition rel_ref_count (w : world) (rId : pystr) : nat :=
  length (filter (pystr_eqb rId) (w_sldIdLst w ++ w_other_refs w)).

(** Step 6, under its [try]: the relationship of the first slide id is
    dropped when nothing else refers to it, then the slide id is deleted. An
    exception ([IndexError] of the empty list, [KeyError] of the missing
    relationship) ends the step where it is raised. *)
Definition remove_template_slide (w : world) : world :=
  match w_sldIdLst w with
  | [] => w
  | rId :: rest =>
      let dropped :=
        if rel_ref_count w rId <? 2
        then (if mem rId (w_prs_rels w)
              then Some (remove_key rId (w_prs_rels w)) else None)
        else Some (w_prs_rels w) in
      match dropped with
      | None => w
      | Some prs_rels' =>
          {| w_next := w_next w; w_tmpl := w_tmpl w;
             w_snapshot := w_snapshot w; w_new := w_new w;
             w_sldIdLst := rest; w_prs_rels := prs_rels';
             w_other_refs := w_other_refs w;
             w_layout_phs := w_layout_phs w; w_saved := w_saved w |}
      end
  end.

Definition save (w : world) (out_path : pystr) : world :=
  {| w_next := w_next w; w_tmpl := w_tmpl w; w_snapshot := w_snapshot w;
     w_new := w_new w; w_sldIdLst := w_sldIdLst w;
     w_prs_rels := w_prs_rels w; w_other_refs := w_other_refs w;
     w_layout_phs := w_layout_phs w; w_saved := w_saved w ++ [out_path] |}.

Inductive outcome :=
| Raised (exception : pystr)
| Returned (path : pystr).

(** [build_ppt_from_excel], from the loaded presentation [w] and the loaded
    table [df]. [prs.slides[0]] raises on a presentation without slides, or
    whose first slide id names no relationship. *)
Definition build_ppt_from_excel (fs : filesystem) (w : world) (df : dataframe)
  (out_path : pystr) : outcome * world :=
  if df_empty df then (Raised (of_string "RuntimeError"), w)
  else
    match w_sldIdLst w with
    | [] => (Raised (of_string "IndexError"), w)
    | rId :: _ =>
        if mem rId (w_prs_rels w) then
          let w1 := backup_template_shapes w in
          let w2 := fold_left (process_row fs) (iterrows df) w1 in
          let w3 := remove_template_slide w2 in
          (Returned out_path, save w3 out_path)
        else (Raised (of_string "KeyError"), w)
    end.

(** *** Well-formed worlds *)

(** The trees outside the template slide: the snapshot and the added
    slides. *)
Definition slide_forest (s : slide) : list elem := s_bg s ++ s_tree s.

Definition frozen (w : world) : list elem :=
  w_snapshot w ++ flat_map (fun ps => slide_forest (snd ps)) (w_new w).

Definition is_nil {A : Type} (l : list A) : bool :=
  match l with [] => true | _ => false end.

Definition slide_number_below (n : N) (kr : pystr * rel) : bool :=
  match rel_target (snd kr) with
  | Internal (PSlide m) => (m <? n)%N
  | _ => true
  end.

(** A presentation as loaded: every object of the template slide and every
    slide part is older than the next fresh identity, nothing has been
    added yet, and the relationships of the presentation part form a
    dictionary. *)
Definition loaded (w : world) : bool :=
  forallb (fun x => (x <? w_next w)%N) (locs_l (slide_forest (w_tmpl w)))
  && is_nil (w_new w)
  && rels_ok (w_prs_rels w)
  && forallb (slide_number_below (w_next w)) (w_prs_rels w).

(** The fields of the world a fill leaves alone; identities are only ever
    added. *)
Definition same_doc (w w' : world) : Prop :=
  w_snapshot w' = w_snapshot w /\ w_new w' = w_new w /\
  w_sldIdLst w' = w_sldIdLst w /\ w_prs_rels w' = w_prs_rels w /\
  w_other_refs w' = w_other_refs w /\ w_layout_phs w' = w_layout_phs w /\
  w_saved w' = w_saved w /\ (w_next w <= w_next w')%N.

(** No shape at or after the first [p:extLst] child: where
    [insert_element_before] puts an element, it becomes the last shape. *)
Fixpoint tail_clean (tree : list elem) : bool :=
  match tree with
  | [] => true
  | x :: t =>
      match e_tag x with
      | TExtLst => forallb (fun e => negb (is_shape e)) t
      | _ => tail_clean t
      end
  end.

(** The invariant of the loop over the rows, for the snapshot [snap]: the
    list is the snapshot, the shapes of the template have its content and
    share no object with the snapshot or an added slide, and identities
    and slide numbers in use are below the next fresh one. *)
Definition loop_invariant (snap : list elem) (w : world) : Prop :=
  w_snapshot w = snap /\
  forallb is_shape snap = true /\
  map content (shapes_of (s_tree (w_tmpl w))) = map content snap /\
  Forall (fun x => (x < w_next w)%N) (locs_l (frozen w)) /\
  Forall (fun l => ~ In l (locs_l (frozen w)))
    (locs_l (shapes_of (s_tree (w_tmpl w)))) /\
  rels_ok (w_prs_rels w) = true /\
  forallb (slide_number_below (w_next w)) (w_prs_rels w) = true.

(** The slide [duplicate_slide] has just added. *)
Definition added_slide (w : world) : list (part * slide) :=
  match rev (w_new w) with
  | [] => []
  | ps :: _ => [ps]
  end.

(** The slides a run over [rows] adds, one per row: the clone of the
    template as the row has filled it. *)
Fixpoint generated (fs : filesystem) (w : world) (rows : list row)
  : list (part * slide) :=
  match rows with
  | [] => []
  | r :: rs =>
      added_slide
        (duplicate_slide (fst (fill_template_with_row fs IMAGE_EXTENSIONS w r)))
      ++ generated fs (process_row fs w r) rs
  end.

(** The relationship from the presentation part to an added slide. *)
Definition rel_of_slide (ps : part * slide) : rel :=
  {| rel_type := slide_reltype; rel_target := Internal (fst ps) |}.

(** The ids the presentation part gives to the relationships of the added
    slides, one per row. *)
Fixpoint generated_ids (fs : filesystem) (w : world) (rows : list row)
  : list pystr :=
  match rows with
  | [] => []
  | r :: rs => next_rId (w_prs_rels w) :: generated_ids fs (process_row fs w r) rs
  end.

(** What a run of the driver leaves, for a document whose slide list is
    [rId :: rest]: the call returns and saves; the added slides are the
    clones of the rows, in row order; the slide list is the rest of the
    original list followed by the ids of the added slides; the relationships
    of the presentation are the original ones without that of the template
    slide, followed by those of the added slides. *)
Definition build_contract (fs : filesystem) (w : world) (df : dataframe)
  (out_path rId : pystr) (rest : list pystr) : Prop :=
  let w1 := backup_template_shapes w in
  let rows := iterrows df in
  let w' := snd (build_ppt_from_excel fs w df out_path) in
  fst (build_ppt_from_excel fs w df out_path) = Returned out_path /\
  w_new w' = generated fs w1 rows /\
  length (w_new w') = length (df_rows df) /\
  w_sldIdLst w' = rest ++ generated_ids fs w1 rows /\
  length (generated_ids fs w1 rows) = length (df_rows df) /\
  w_prs_rels w'
  = remove_key rId (w_prs_rels w)
      ++ combine (generated_ids fs w1 rows)
           (map rel_of_slide (generated fs w1 rows)) /\
  lookup rId (w_prs_rels w') = None /\
  existsb (pystr_eqb rId) (w_sldIdLst w') = false /\
  w_saved w' = w_saved w ++ [out_path].

(** The reading of the specification: the slides of the document are the
    generated ones, one per row. *)
Definition only_generated_slides (fs : filesystem) (w : world)
  (df : dataframe) (out_path : pystr) : Prop :=
  length (w_sldIdLst (snd (build_ppt_from_excel fs w df out_path)))
  = length (df_rows df).

(** *** Groups *)

(** The groups directly inside a top-level group, with all they hold: every
    shape nested two or more groups deep is inside one of them. *)
Definition nested_groups (tree : list elem) : list elem :=
  flat_map (fun g => filter is_group (e_kids g)) (filter is_group tree).

Definition top_group_locs (tree : list elem) : list loc :=
  map e_loc (filter is_group tree).

(** The objects a fill must not reach: the top-level groups themselves and
    everything from the nested groups down. *)
Definition protected (tree : list elem) : list loc :=
  top_group_locs tree ++ locs_l (nested_groups tree).

Fixpoint nodup_locs (l : list loc) : bool :=
  match l with
  | [] => true
  | x :: t => negb (existsb (N.eqb x) t) && nodup_locs t
  end.

(** The elements of the template's shape tree are distinct objects, older
    than the next fresh identity. *)
Definition distinct_objects (w : world) : bool :=
  nodup_locs (locs_l (s_tree (w_tmpl w)))
  && forallb (fun x => (x <? w_next w)%N) (locs_l (s_tree (w_tmpl w))).

(** The shapes a fill visits, as the specification describes them: a
    top-level shape that is no group, or a shape directly inside a
    top-level group. *)
Definition visited (tree : list elem) (l : loc) : Prop :=
  (exists s, In s tree /\ is_shape s = true /\ is_group s = false /\
             e_loc s = l) \/
  (exists g c, In g tree /\ is_group g = true /\ In c (e_kids g) /\
               is_shape c = true /\ e_loc c = l).

(** No shape a fill can process is one of the objects [P]. *)
Definition safe (P : list loc) (tree : list elem) : Prop :=
  Forall (fun e => is_group e = false -> ~ In (e_loc e) P) (candidates tree).

(** A mutation that puts shapes which are no groups, and no objects of [P],
    in the place of the object [l]. *)
Definition harmless (P : list loc) (l : loc) (f : elem -> list elem) : Prop :=
  forall e, e_loc e = l -> is_group e = false ->
            Forall (fun x => is_group x = false /\ ~ In (e_loc x) P) (f e).

(** The invariant of the loop over the shapes: the top-level groups and the
    nested groups are those of the start, and no shape still to process is
    one of their objects. *)
Definition groups_kept (TG : list loc) (NG : list elem) (w : world) : Prop :=
  top_group_locs (s_tree (w_tmpl w)) = TG /\
  nested_groups (s_tree (w_tmpl w)) = NG /\
  safe (TG ++ locs_l NG) (s_tree (w_tmpl w)) /\
  Forall (fun x => (x < w_next w)%N) (TG ++ locs_l NG).

End World.

(** ** A sample run

    A template slide with three labelled text boxes, a group holding a
    labelled text box and a nested group, and a picture; a table of two
    rows, the second with an empty cell and an image path that names no
    file. *)

Module Samples.
Import Text Shapes Rels Remap World.

Definition label (l : loc) (s : string) : elem :=
  Elem l
    (TSp [{| p_items := [IRun {| r_style := Some (of_string "bold");
                                 r_text := of_string s;
                                 r_access := NoElement |}];
             p_access := Removable |}])
    plain_attrs [].

Definition sample_tree : list elem :=
  [ Elem 1%N TElem plain_attrs [];
    Elem 2%N TElem plain_attrs [];
    label 3%N "  Name";
    label 4%N "Phone";
    label 5%N "Logo_IMG";
    Elem 6%N TGrp plain_attrs
      [ Elem 7%N TElem plain_attrs [];
        label 8%N "Name";
        Elem 9%N TGrp plain_attrs [label 10%N "Name"] ];
    Elem 11%N TPic (picture_attrs NotPlaceholder geom0 (of_string "rId2")) [] ].

Definition sample_tmpl : slide :=
  {| s_bg := [];
     s_tree := sample_tree;
     s_rels := [(of_string "rId1", layout_rel); (of_string "rId2", image_rel)];
     s_layout := PNamed (of_string "slideLayout1.xml") |}.

Definition master_rel : rel :=
  {| rel_type := of_string "slideMaster";
     rel_target := Internal (PNamed (of_string "slideMaster1.xml")) |}.

(** A presentation of two slides, the template and one more. *)
Definition sample_world : world :=
  {| w_next := 100;
     w_tmpl := sample_tmpl;
     w_snapshot := [];
     w_new := [];
     w_sldIdLst := [of_string "rId7"; of_string "rId8"];
     w_prs_rels := [ (of_string "rId1", master_rel);
                     (of_string "rId7", slide_rel 0);
                     (of_string "rId8", slide_rel 1) ];
     w_other_refs := [of_string "rId1"];
     w_layout_phs := [];
     w_saved := [] |}.

(** The same presentation with the template as its only slide. *)
Definition sample_world1 : world :=
  {| w_next := 100;
     w_tmpl := sample_tmpl;
     w_snapshot := [];
     w_new := [];
     w_sldIdLst := [of_string "rId7"];
     w_prs_rels := [ (of_string "rId1", master_rel);
                     (of_string "rId7", slide_rel 0) ];
     w_other_refs := [of_string "rId1"];
     w_layout_phs := [];
     w_saved := [] |}.

Definition sample_fs : filesystem :=
  fun p =>
    if pystr_eqb p (of_string "images/logo1.png")
    then Some (Image (of_string "logo1-bytes"))
    else None.

Definition sample_df : dataframe :=
  {| df_columns := map of_string ["Name"; "Phone"; "Logo_IMG"]%string;
     df_rows :=
       [ [ VStr (of_string "Hong"); VOther (of_string "123");
           VStr (of_string "images/logo1.png") ];
         [ VStr (of_string "Kim"); VNaN; VStr (of_string "N/A") ] ] |}.

Definition empty_df : dataframe :=
  {| df_columns := map of_string ["Name"; "Phone"; "Logo_IMG"]%string;
     df_rows := [] |}.

(** The text of the first top-level text box with the given identity. *)
Definition text_at (l : loc) (tree : list elem) : option pystr :=
  match find (fun e => N.eqb (e_loc e) l) tree with
  | Some e => Some (get_text_content e)
  | None => None
  end.

End Samples.

(** ** More of the sources

    Closed forms of the loops of [set_text_preserve_style] and of the
    dictionary of [fill_template_with_row], and the functions
    [validate_template] ([core/ppt_builder.py]) and [detect_sheet_name]
    ([main.py]). *)

Module More.
Import Text Shapes Rels Remap World Samples.

(** *** [set_text_preserve_style] without its loops *)

Definition kept_run (r : run) : bool := negb (removable_run r).
Definition kept_para (p : paragraph) : bool := negb (removable_para p).

(** The children of a paragraph after its first run: the runs that can be
    removed are gone, the other runs are blank, and what is no run is as it
    was. *)
Fixpoint later_runs (items : list inline) : list inline :=
  match items with
  | [] => []
  | IRun r :: t =>
      if kept_run r then IRun (set_run_text [] r) :: later_runs t
      else later_runs t
  | x :: t => x :: later_runs t
  end.

(** The children of a paragraph that has a run, after the call: the first
    run carries the text. *)
Fixpoint written_items (text : pystr) (items : list inline) : list inline :=
  match items with
  | [] => []
  | IRun r :: t => IRun (set_run_text text r) :: later_runs t
  | x :: t => x :: written_items text t
  end.

(** The text frame after the call: the first run of the first paragraph
    (a new one after its other children when it has none) carries the text;
    of the other runs and paragraphs, those that can be removed are gone and
    the others are blank. Line breaks and fields stay where they are. *)
Definition written_frame (tf : text_frame) (v : pyval) : text_frame :=
  match tf with
  | [] => []
  | para :: rest =>
      {| p_items :=
           match p_runs para with
           | _ :: _ => written_items (text_of_value v) (p_items para)
           | [] => p_items para ++ [IRun (set_run_text (text_of_value v) new_run)]
           end;
         p_access := p_access para |}
      :: map blank_runs (filter kept_para rest)
  end.

(** A paragraph whose text is in runs only: no line break, no field. *)
Definition is_run (x : inline) : bool :=
  match x with IRun _ => true | _ => false end.

Definition only_runs (p : paragraph) : bool := forallb is_run (p_items p).

(** A text that python-pptx stores as it is. *)
Definition storable (s : pystr) : bool :=
  forallb (fun c => negb (is_control c)) s.

Definition written (e : elem) (v : pyval) : elem :=
  match e with
  | Elem l (TSp tf) a kids => Elem l (TSp (written_frame tf v)) a kids
  | _ => e
  end.

(** *** The dictionary of a row *)

(** The value of the last column whose label normalises to [k]. *)
Definition last_value (r : row) (k : pystr) : option pyval :=
  match find (fun kv => pystr_eqb (normalize_key (Some (fst kv))) k) (rev r) with
  | Some kv => Some (snd kv)
  | None => None
  end.

(** The label of a shape, as [fill_template_with_row] computes it. *)
Definition shape_key (e : elem) : pystr :=
  normalize_key (Some (get_text_content e)).

(** *** Blank code points *)

(** A code point that [normalize_key] removes, or turns into or leaves as
    white space. *)
Definition ignorable (c : char) : bool :=
  is_invisible c || is_linebreak c || py_isspace (to_space c).

(** The replacements of [normalize_key] before the trim, code point by
    code point. *)
Definition pipeline (s : pystr) : pystr :=
  filter (fun c => negb (is_linebreak c))
    (map to_space (filter (fun c => negb (is_invisible c)) s)).

(** *** [validate_template] *)

Record template_info := {
  slide_count : nat;
  text_boxes : list pystr
}.

Inductive validation :=
| Invalid (exception : pystr)
| Info (i : template_info).

(** [validate_template], from the loaded presentation: [RuntimeError] on a
    presentation without slides; otherwise the number of slides and the
    non-empty normalised texts of the top-level shapes of the first slide
    that have a text frame. [prs.slides[0]] raises when the first slide id
    names no relationship. *)
Definition validate_template (w : world) : validation :=
  match w_sldIdLst w with
  | [] => Invalid (of_string "RuntimeError")
  | rId :: _ =>
      if mem rId (w_prs_rels w) then
        Info
          {| slide_count := length (w_sldIdLst w);
             text_boxes :=
               filter (fun text => negb (is_empty text))
                 (map shape_key
                    (filter has_text_frame (shapes_of (s_tree (w_tmpl w))))) |}
      else Invalid (of_string "KeyError")
  end.

(** *** [detect_sheet_name] *)

(** The [sheet_name] argument of [pd.read_excel]: a position or a name. *)
Inductive sheet :=
| SheetIndex (i : nat)
| SheetName (name : pystr).

(** [detect_sheet_name(excel_path, preferred_sheet)], from the sheet names
    of the workbook, [None] when opening it raises. *)
Definition detect_sheet_name (sheet_names : option (list pystr))
  (preferred_sheet : pystr) : sheet :=
  match sheet_names with
  | None => SheetIndex 0
  | Some names =>
      if length names =? 1 then SheetIndex 0
      else if existsb (pystr_eqb preferred_sheet) names
           then SheetName preferred_sheet
           else SheetIndex 0
  end.

(** The sheet a [sheet_name] argument designates. *)
Definition sheet_read (names : list pystr) (s : sheet) : option pystr :=
  match s with
  | SheetIndex i => nth_error names i
  | SheetName name => find (pystr_eqb name) names
  end.

(** The row dictionary [d] has no entry for the label of the shape. *)
Definition no_column (d : dict) (e : elem) : bool :=
  match dict_get d (shape_key e) with None => true | Some _ => false end.

(** A child of the shape tree that is no shape. *)
Definition other (e : elem) : bool := negb (is_shape e).

(** *** [fill_picture] on a shape of the slide *)

(** [shape.insert_picture] exists: the shape is a picture placeholder. *)
Definition takes_picture (e : elem) : bool :=
  match a_ph (e_attrs e) with PicturePlaceholder => true | _ => false end.

(** The object [l] is no element of the forest. *)
Definition absent (l : loc) (forest : list elem) : bool :=
  negb (existsb (N.eqb l) (locs_l forest)).

Definition image_rel_of (blob : pystr) : rel :=
  {| rel_type := image_reltype; rel_target := Internal (PImage blob) |}.

(** The picture [add_picture] creates in the world [w] with the position
    and the size of the shape [e], under the relationship [rId]. *)
Definition new_picture (w : world) (e : elem) (rId : pystr) : elem :=
  Elem (w_next w) TPic
    (picture_attrs NotPlaceholder (a_geom (e_attrs e)) rId) [].

Definition is_picture (e : elem) : bool :=
  match e_tag e with TPic => true | _ => false end.

(** A picture placeholder between two text boxes. *)
Definition sample_placeholder : elem :=
  Elem 2%N (TSp [])
    {| a_ph := PicturePlaceholder; a_geom := sample_geometry;
       a_embed := None; a_id := None; a_typed := true |} [].

Definition sample_placeholder_world : world :=
  with_tmpl sample_world
    (set_tree sample_tmpl
       [label 1%N "Name"; sample_placeholder; label 3%N "Phone"])
    100%N.

(** *** A fill whose collection of shapes succeeds *)

(** No top-level shape of the tree raises on [shape_type]. *)
Definition collects (tree : list elem) : bool :=
  negb (existsb shape_type_raises (shapes_of tree)).

(** *** A fill that inserts no picture *)

(** What [fill_template_with_row] makes of a shape it processes when the
    value of its column is no picture path: the text of the shape is the
    trimmed value, or empty for a missing value, and a shape without a
    label or without a column is left alone. *)
Definition filled (image_suffixes : list pystr) (d : dict) (e : elem) : elem :=
  if is_empty (shape_key e) then e
  else
    match dict_get d (shape_key e) with
    | None => e
    | Some val =>
        match route image_suffixes (shape_key e) val with
        | Blank => written e (VStr [])
        | Picture _ => e
        | PlainText sval => written e (VStr sval)
        end
    end.

(** The row sends the shape to [set_text_preserve_style] or nowhere, not
    to [fill_picture]. *)
Definition no_picture (image_suffixes : list pystr) (d : dict) (e : elem)
  : bool :=
  if is_empty (shape_key e) then true
  else
    match dict_get d (shape_key e) with
    | None => true
    | Some val =>
        match route image_suffixes (shape_key e) val with
        | Picture _ => false
        | _ => true
        end
    end.

(** *** The usual layout of a shape tree *)

Definition is_extLst (e : elem) : bool :=
  match e_tag e with TExtLst => true | _ => false end.

(** A child that is neither a shape nor the [p:extLst] marker: the group
    properties at the head of [p:spTree]. *)
Definition is_property (e : elem) : bool :=
  negb (is_shape e) && negb (is_extLst e).

(** Nothing, or the [p:extLst] marker with no shape from it on. *)
Definition is_tail (rest : list elem) : bool :=
  match rest with
  | [] => true
  | x :: _ => is_extLst x && forallb other rest
  end.

(** *** What the slides of a run show *)

(** What the collection of shapes reads of an element: its kind, and the
    kinds of its children. *)
Definition shape_view (e : elem) : tagk * list tagk :=
  (e_tag e, map e_tag (e_kids e)).






(** The elements of the template's shape tree are distinct objects, older
    than the next fresh identity. *)
Definition distinct_below (w : world) : Prop :=
  NoDup (locs_l (s_tree (w_tmpl w))) /\
  Forall (fun x => (x < w_next w)%N) (locs_l (s_tree (w_tmpl w))).


(** *** The shapes a fill visits *)

(** A picture shape as [add_picture] and [insert_picture] make it: a shape
    that is no group and has no children of its own. *)
Definition picture_like (pic : elem) : Prop :=
  is_shape pic = true /\ is_group pic = false /\ locs pic = [e_loc pic].

(** The label of the shape has a column in the row dictionary. *)
Definition has_column (d : dict) (e : elem) : bool :=
  negb (is_empty (shape_key e))
  && match dict_get d (shape_key e) with Some _ => true | None => false end.

(** The shape has a label, and the label has no column. *)
Definition lacks_column (d : dict) (e : elem) : bool :=
  negb (is_empty (shape_key e))
  && match dict_get d (shape_key e) with Some _ => false | None => true end.

(** What the loop of step 4 does to the log for a shape. *)
Definition log_shape (d : dict) (log : fill_log) (e : elem) : fill_log :=
  if has_column d e then matched log
  else if lacks_column d e then unmatched log (shape_key e)
  else log.

(** What a fill does. When the collection of the shapes fails, nothing: the
    world is as it was and the log is empty. Otherwise the shapes it
    processes are the visited ones, the top-level shapes that are no groups
    and the shapes directly inside a top-level group; each of them is
    looked up once, as it was before the fill: the matches counted are the
    visited shapes whose label has a column, the keys recorded as unmatched
    are the labels without a column, in order, and that is all that happens
    to them; a visited shape whose value is no picture path is afterwards
    what the writer makes of it; the groups directly inside a top-level
    group, with all the shapes two or more groups deep, are after the fill
    what they were before. *)
Definition fill_contract (fs : filesystem) (image_suffixes : list pystr)
  (w : world) (r : row) : Prop :=
  let tree := s_tree (w_tmpl w) in
  let d := make_row_dict r in
  let res := fill_template_with_row fs image_suffixes w r in
  match collect tree with
  | None => res = (w, empty_log)
  | Some shapes =>
      (forall l, In l (map e_loc shapes) <-> visited tree l) /\
      matched_count (snd res) = length (filter (has_column d) shapes) /\
      unmatched_shapes (snd res)
      = map shape_key (filter (lacks_column d) shapes) /\
      (forall c, In c shapes -> no_picture image_suffixes d c = true ->
                 find_shape (e_loc c) (s_tree (w_tmpl (fst res)))
                 = Some (filled image_suffixes d c)) /\
      nested_groups (s_tree (w_tmpl (fst res))) = nested_groups tree
  end.

(** The reading of the specification: on every slide, a visited shape
    whose label has a column is filled. *)
Definition always_fills (fs : filesystem) (image_suffixes : list pystr)
  (w : world) (r : row) : Prop :=
  forall c,
    In c (candidates (s_tree (w_tmpl w))) ->
    no_picture image_suffixes (make_row_dict r) c = true ->
    find_shape (e_loc c)
      (s_tree (w_tmpl (fst (fill_template_with_row fs image_suffixes w r))))
    = Some (filled image_suffixes (make_row_dict r) c).

(** A slide with a labelled text box and a shape in which python-pptx
    recognises no type. *)
Definition sample_untyped_world : world :=
  with_tmpl sample_world
    (set_tree sample_tmpl
       [ label 1%N "Name";
         Elem 2%N TGraphic
           {| a_ph := NotPlaceholder; a_geom := sample_geometry;
              a_embed := None; a_id := None; a_typed := false |} [] ])
    100%N.

(** *** The shape tree after the cycles *)




End More.

(** * Properties of the text normaliser *)

Module TextFacts.
Import Text.

(** Induction two elements at a time, the recursion scheme of [replace2],
    [contains2] and [squeeze]. *)
Lemma list_ind2 (A : Type) (P : list A -> Prop) :
  P [] -> (forall x, P [x]) ->
  (forall x y t, P t -> P (y :: t) -> P (x :: y :: t)) ->
  forall l, P l.
Proof.
  intros H0 H1 H2.
  assert (H : forall l, P l /\ forall x, P (x :: l)).
  { induction l as [|y t [IH1 IH2]].
    - split; [exact H0 | exact H1].
    - split; [apply IH2 | intro x; apply H2; [exact IH1 | apply IH2]]. }
  intro l; apply H.
Qed.

Lemma replace2_cons2 c d new x y t :
  replace2 c d new (x :: y :: t) =
  if char_eqb x c && char_eqb y d then new ++ replace2 c d new t
  else x :: replace2 c d new (y :: t).
Proof. reflexivity. Qed.

Lemma contains2_cons2 c d x y t :
  contains2 c d (x :: y :: t) =
  (char_eqb x c && char_eqb y d) || contains2 c d (y :: t).
Proof. reflexivity. Qed.

Lemma squeeze_cons2 x y t :
  squeeze (x :: y :: t) =
  if char_eqb x SP && char_eqb y SP then squeeze (y :: t)
  else x :: squeeze (y :: t).
Proof. reflexivity. Qed.

Lemma char_eqb_eq a b : char_eqb a b = true <-> a = b.
Proof. apply N.eqb_eq. Qed.

(** ** The replacements as filters and maps *)

Lemma replace1_nil c s :
  replace1 c [] s = filter (fun x => negb (char_eqb x c)) s.
Proof.
  induction s as [|x t IH]; simpl; [reflexivity|].
  destruct (char_eqb x c); simpl; congruence.
Qed.

Lemma replace1_single c n s :
  replace1 c [n] s = map (fun x => if char_eqb x c then n else x) s.
Proof.
  induction s as [|x t IH]; simpl; [reflexivity|].
  destruct (char_eqb x c); simpl; congruence.
Qed.

Lemma filter_filter (A : Type) (p q : A -> bool) l :
  filter p (filter q l) = filter (fun x => q x && p x) l.
Proof.
  induction l as [|x t IH]; simpl; [reflexivity|].
  destruct (q x); simpl; [destruct (p x)|]; congruence.
Qed.

Lemma filter_replace2_crlf s :
  filter (fun c => negb (is_linebreak c)) (replace2 CR LF [] s) =
  filter (fun c => negb (is_linebreak c)) s.
Proof.
  induction s as [| x | x y t IHt IHyt] using list_ind2; try reflexivity.
  rewrite replace2_cons2.
  destruct (char_eqb x CR && char_eqb y LF) eqn:E.
  - apply andb_true_iff in E as [Ex Ey].
    apply char_eqb_eq in Ex, Ey; subst x y.
    simpl app. rewrite IHt. reflexivity.
  - change (filter ?p (x :: ?l)) with
      (if p x then x :: filter p l else filter p l).
    rewrite IHyt. reflexivity.
Qed.

Lemma linebreaks_removed s :
  replace1 CR [] (replace1 LF [] (replace2 CR LF [] s)) =
  filter (fun c => negb (is_linebreak c)) s.
Proof.
  rewrite !replace1_nil, filter_filter, <- filter_replace2_crlf.
  apply filter_ext; intro a. unfold is_linebreak.
  destruct (char_eqb a CR), (char_eqb a LF); reflexivity.
Qed.

Lemma invisibles_removed s :
  replace1 WJ [] (replace1 BOM [] (replace1 ZWSP [] s)) =
  filter (fun c => negb (is_invisible c)) s.
Proof.
  rewrite !replace1_nil, !filter_filter.
  apply filter_ext; intro a. unfold is_invisible.
  destruct (char_eqb a ZWSP), (char_eqb a BOM), (char_eqb a WJ); reflexivity.
Qed.

Lemma spaces_converted s :
  replace1 TAB [SP] (replace1 NBSP [SP] s) = map to_space s.
Proof.
  rewrite !replace1_single, map_map.
  apply map_ext; intro a. unfold to_space, char_eqb.
  destruct (N.eqb_spec a NBSP) as [->|Hn]; [reflexivity|].
  simpl. reflexivity.
Qed.

Lemma normalize_prefix_spec s :
  normalize_prefix s =
  strip (filter (fun c => negb (is_linebreak c))
           (map to_space (filter (fun c => negb (is_invisible c)) s))).
Proof.
  unfold normalize_prefix.
  rewrite linebreaks_removed, spaces_converted, invisibles_removed.
  reflexivity.
Qed.

(** ** The loop computes [squeeze] and stops by its own test *)

Lemma hd_replace2 s :
  hd_error (replace2 SP SP [SP] s) = hd_error s.
Proof.
  destruct s as [|x [|y t]]; try reflexivity.
  rewrite replace2_cons2.
  destruct (char_eqb x SP && char_eqb y SP) eqn:E; [|reflexivity].
  apply andb_true_iff in E as [Ex _]. apply char_eqb_eq in Ex. subst x.
  reflexivity.
Qed.

Lemma squeeze_cons_hd x u v :
  hd_error u = hd_error v -> squeeze u = squeeze v ->
  squeeze (x :: u) = squeeze (x :: v).
Proof.
  intros Hh Hs.
  destruct u as [|a u'], v as [|b v']; try discriminate; [reflexivity|].
  injection Hh as ->.
  rewrite !squeeze_cons2, Hs. reflexivity.
Qed.

Lemma squeeze_replace2 s :
  squeeze (replace2 SP SP [SP] s) = squeeze s.
Proof.
  induction s as [| x | x y t IHt IHyt] using list_ind2; try reflexivity.
  rewrite replace2_cons2, squeeze_cons2.
  destruct (char_eqb x SP && char_eqb y SP) eqn:E.
  - apply andb_true_iff in E as [Ex Ey].
    apply char_eqb_eq in Ex, Ey; subst x y.
    simpl app. apply squeeze_cons_hd; [apply hd_replace2 | exact IHt].
  - rewrite (@squeeze_cons_hd x (replace2 SP SP [SP] (y :: t)) (y :: t)
               (hd_replace2 (y :: t)) IHyt).
    rewrite squeeze_cons2, E. reflexivity.
Qed.

Lemma squeeze_fix s : contains2 SP SP s = false -> squeeze s = s.
Proof.
  induction s as [| x | x y t IHt IHyt] using list_ind2; try reflexivity.
  rewrite contains2_cons2, squeeze_cons2. intro H.
  apply orb_false_iff in H as [E H]. rewrite E, (IHyt H). reflexivity.
Qed.

Lemma squeeze_no_double s : contains2 SP SP (squeeze s) = false.
Proof.
  induction s as [| x | x y t IHt IHyt] using list_ind2; try reflexivity.
  rewrite squeeze_cons2.
  destruct (char_eqb x SP && char_eqb y SP) eqn:E; [exact IHyt|].
  assert (Hh : hd_error (squeeze (y :: t)) = Some y).
  { destruct t as [|z t']; [reflexivity|]. rewrite squeeze_cons2.
    destruct (char_eqb y SP && char_eqb z SP) eqn:E2; [|reflexivity].
    apply andb_true_iff in E2 as [Ey Ez].
    apply char_eqb_eq in Ey, Ez; subst y z.
    clear. induction t' as [|w t'' IH]; [reflexivity|].
    rewrite squeeze_cons2.
    destruct (char_eqb SP SP && char_eqb w SP) eqn:E3; [|reflexivity].
    apply andb_true_iff in E3 as [_ Ew]. apply char_eqb_eq in Ew. subst w.
    exact IH. }
  destruct (squeeze (y :: t)) as [|y' r] eqn:Es; [reflexivity|].
  injection Hh as ->.
  rewrite contains2_cons2, E, IHyt. reflexivity.
Qed.

Lemma replace2_length s :
  length (replace2 SP SP [SP] s) <= length s /\
  (contains2 SP SP s = true -> length (replace2 SP SP [SP] s) < length s).
Proof.
  induction s as [| x | x y t [IHt _] [IHyt IHyt']] using list_ind2.
  - split; [simpl; lia | discriminate].
  - split; [simpl; lia | discriminate].
  - rewrite replace2_cons2, contains2_cons2.
    destruct (char_eqb x SP && char_eqb y SP); simpl app; simpl length in *.
    + split; intros; lia.
    + split; [lia | intro H; specialize (IHyt' H); lia].
Qed.

Lemma collapse_loop_squeeze fuel s :
  length s <= fuel -> collapse_loop fuel s = squeeze s.
Proof.
  revert s; induction fuel as [|f IH]; intros s Hl.
  - destruct s; [reflexivity | simpl in Hl; lia].
  - simpl. destruct (contains2 SP SP s) eqn:E.
    + rewrite IH, squeeze_replace2; [reflexivity|].
      pose proof (proj2 (replace2_length s) E). lia.
    + symmetry; apply squeeze_fix; exact E.
Qed.

(** More fuel than the length of the string changes nothing: the loop has
    ended by its own test. *)
Lemma collapse_loop_terminates fuel s :
  length s <= fuel ->
  collapse_loop fuel s = collapse_loop (length s) s /\
  contains2 SP SP (collapse_loop (length s) s) = false.
Proof.
  intro H. rewrite !collapse_loop_squeeze by lia.
  split; [reflexivity | apply squeeze_no_double].
Qed.

Lemma normalize_key_refines s :
  normalize_key (Some s) = normalize_spec s.
Proof.
  unfold normalize_key, normalize_spec.
  rewrite collapse_loop_squeeze by lia.
  rewrite normalize_prefix_spec. reflexivity.
Qed.

(** ** Trimming *)

Lemma lstrip_app_single a x :
  lstrip (a ++ [x]) =
  match lstrip a with
  | [] => if py_isspace x then [] else [x]
  | _ :: _ => lstrip a ++ [x]
  end.
Proof.
  induction a as [|y t IH]; simpl; [reflexivity|].
  destruct (py_isspace y); [exact IH | reflexivity].
Qed.

Lemma rstrip_cons x t :
  rstrip (x :: t) =
  match rstrip t with
  | [] => if py_isspace x then [] else [x]
  | _ :: _ => x :: rstrip t
  end.
Proof.
  unfold rstrip. simpl rev. rewrite lstrip_app_single.
  destruct (lstrip (rev t)) as [|y l] eqn:E.
  - simpl. destruct (py_isspace x); reflexivity.
  - rewrite rev_app_distr. remember (rev (y :: l)) as r eqn:E2.
    destruct r; [|reflexivity].
    apply (f_equal (@length _)) in E2. rewrite length_rev in E2. discriminate.
Qed.

Lemma rstrip_nil : rstrip [] = [].
Proof. reflexivity. Qed.

Lemma lstrip_fix s : trimmed s -> lstrip s = s.
Proof.
  destruct s as [|x t]; [reflexivity|]. intros [H _]. simpl. rewrite H.
  reflexivity.
Qed.

Lemma last_cons2 (x y : char) t d : last (x :: y :: t) d = last (y :: t) d.
Proof. reflexivity. Qed.

Lemma rstrip_fix_last s :
  s <> [] -> py_isspace (last s SP) = false -> rstrip s = s.
Proof.
  induction s as [|x t IH]; [congruence|]. intros _ H.
  rewrite rstrip_cons. destruct t as [|y t'].
  - simpl in H. rewrite rstrip_nil, H. reflexivity.
  - rewrite last_cons2 in H. rewrite IH by (congruence || exact H).
    reflexivity.
Qed.

Lemma rstrip_fix s : trimmed s -> rstrip s = s.
Proof.
  destruct s as [|x t]; [reflexivity|]. intros [_ H].
  apply rstrip_fix_last; [discriminate | exact H].
Qed.

Lemma strip_fix s : trimmed s -> strip s = s.
Proof.
  intro H. unfold strip. rewrite (lstrip_fix _ H). apply rstrip_fix, H.
Qed.

Lemma lstrip_hd s :
  match lstrip s with [] => True | x :: _ => py_isspace x = false end.
Proof.
  induction s as [|x t IH]; simpl; [exact I|].
  destruct (py_isspace x) eqn:E; [exact IH | exact E].
Qed.

Lemma rstrip_last s :
  match rstrip s with
  | [] => True
  | _ :: _ => py_isspace (last (rstrip s) SP) = false
  end.
Proof.
  induction s as [|x t IH]; [exact I|].
  rewrite rstrip_cons. destruct (rstrip t) as [|y r] eqn:E.
  - destruct (py_isspace x) eqn:Ex; [exact I | exact Ex].
  - rewrite last_cons2. exact IH.
Qed.

Lemma rstrip_hd x t :
  py_isspace x = false -> exists r, rstrip (x :: t) = x :: r.
Proof.
  intro H. rewrite rstrip_cons, H.
  destruct (rstrip t); eexists; reflexivity.
Qed.

Lemma strip_trimmed s : trimmed (strip s).
Proof.
  unfold strip. pose proof (lstrip_hd s) as Hh.
  destruct (lstrip s) as [|x t]; [exact I|].
  destruct (rstrip_hd x t Hh) as [r Hr].
  pose proof (rstrip_last (x :: t)) as Hl. rewrite Hr in *.
  split; assumption.
Qed.

Lemma squeeze_hd s : hd_error (squeeze s) = hd_error s.
Proof.
  induction s as [| x | x y t IHt IHyt] using list_ind2; try reflexivity.
  rewrite squeeze_cons2.
  destruct (char_eqb x SP && char_eqb y SP) eqn:E; [|reflexivity].
  apply andb_true_iff in E as [Ex Ey].
  apply char_eqb_eq in Ex, Ey; subst x y. exact IHyt.
Qed.

Lemma squeeze_last s d : last (squeeze s) d = last s d.
Proof.
  induction s as [| x | x y t IHt IHyt] using list_ind2; try reflexivity.
  rewrite squeeze_cons2, last_cons2.
  destruct (char_eqb x SP && char_eqb y SP); [exact IHyt|].
  pose proof (squeeze_hd (y :: t)) as Hh.
  destruct (squeeze (y :: t)) as [|y' r]; [discriminate|].
  rewrite last_cons2. exact IHyt.
Qed.

Lemma squeeze_trimmed s : trimmed s -> trimmed (squeeze s).
Proof.
  intro H. pose proof (squeeze_hd s) as Hh.
  pose proof (squeeze_last s SP) as Hl.
  destruct s as [|x t]; [exact I|].
  destruct (squeeze (x :: t)) as [|x' r]; [discriminate|].
  injection Hh as ->. unfold trimmed in *. rewrite Hl. exact H.
Qed.

(** ** Subsequences *)

Lemma Subseq_refl s : Subseq s s.
Proof. induction s; constructor; assumption. Qed.

Lemma Subseq_trans a b c : Subseq a b -> Subseq b c -> Subseq a c.
Proof.
  intros Hab Hbc. revert a Hab.
  induction Hbc as [| x b c Hbc IH | x b c Hbc IH]; intros a Hab.
  - exact Hab.
  - inversion Hab; subst; constructor; apply IH; assumption.
  - constructor. apply IH. exact Hab.
Qed.

Lemma Subseq_filter p s : Subseq (filter p s) s.
Proof.
  induction s as [|x t IH]; simpl; [constructor|].
  destruct (p x); constructor; exact IH.
Qed.

Lemma Subseq_lstrip s : Subseq (lstrip s) s.
Proof.
  induction s as [|x t IH]; simpl; [constructor|].
  destruct (py_isspace x); [constructor; exact IH | apply Subseq_refl].
Qed.

Lemma Subseq_rstrip s : Subseq (rstrip s) s.
Proof.
  induction s as [|x t IH]; [constructor|].
  rewrite rstrip_cons. destruct (rstrip t) as [|y r].
  - destruct (py_isspace x); [constructor; exact IH|].
    constructor. exact IH.
  - constructor. exact IH.
Qed.

Lemma Subseq_strip s : Subseq (strip s) s.
Proof.
  unfold strip.
  eapply Subseq_trans; [apply Subseq_rstrip | apply Subseq_lstrip].
Qed.

Lemma Subseq_squeeze s : Subseq (squeeze s) s.
Proof.
  induction s as [| x | x y t IHt IHyt] using list_ind2.
  - constructor.
  - apply Subseq_refl.
  - rewrite squeeze_cons2.
    destruct (char_eqb x SP && char_eqb y SP); constructor; exact IHyt.
Qed.

Lemma Subseq_map f a b : Subseq a b -> Subseq (map f a) (map f b).
Proof. induction 1; simpl; constructor; assumption. Qed.

Lemma Subseq_Forall (P : char -> Prop) a b :
  Subseq a b -> Forall P b -> Forall P a.
Proof.
  induction 1 as [| x a b _ IH | x a b _ IH]; intro HF.
  - constructor.
  - inversion HF; subst. constructor; auto.
  - inversion HF; subst. auto.
Qed.

Lemma normalize_spec_Subseq s : Subseq (normalize_spec s) (map to_space s).
Proof.
  unfold normalize_spec.
  eapply Subseq_trans; [apply Subseq_squeeze|].
  eapply Subseq_trans; [apply Subseq_strip|].
  eapply Subseq_trans; [apply Subseq_filter|].
  apply Subseq_map, Subseq_filter.
Qed.

(** ** What the result contains *)

Lemma clean_to_space c :
  is_invisible c = false -> is_linebreak (to_space c) = false ->
  clean (to_space c) = true.
Proof.
  unfold clean, is_invisible, is_linebreak, to_space, char_eqb.
  destruct (N.eqb_spec c NBSP) as [->|H1]; [reflexivity|].
  destruct (N.eqb_spec c TAB) as [->|H2]; [reflexivity|].
  simpl. intros Hi Hl. rewrite Hi, Hl. simpl.
  destruct (N.eqb_spec c NBSP); [contradiction|].
  destruct (N.eqb_spec c TAB); [contradiction|]. reflexivity.
Qed.

Lemma clean_pipeline s :
  Forall (fun c => clean c = true)
    (filter (fun c => negb (is_linebreak c))
       (map to_space (filter (fun c => negb (is_invisible c)) s))).
Proof.
  induction s as [|x t IH]; simpl; [constructor|].
  destruct (is_invisible x) eqn:Ei; simpl; [exact IH|].
  destruct (is_linebreak (to_space x)) eqn:El; simpl; [exact IH|].
  constructor; [apply clean_to_space; assumption | exact IH].
Qed.

Lemma normalize_spec_clean s :
  Forall (fun c => clean c = true) (normalize_spec s).
Proof.
  unfold normalize_spec.
  eapply Subseq_Forall; [|apply clean_pipeline].
  eapply Subseq_trans; [apply Subseq_squeeze | apply Subseq_strip].
Qed.

Lemma clean_parts c :
  clean c = true ->
  is_invisible c = false /\ is_linebreak c = false /\ to_space c = c.
Proof.
  unfold clean. intro H. apply negb_true_iff in H.
  apply orb_false_iff in H as [H Ht]. apply orb_false_iff in H as [H Hn].
  apply orb_false_iff in H as [Hi Hl].
  split; [exact Hi | split; [exact Hl|]].
  unfold to_space. rewrite Hn, Ht. reflexivity.
Qed.

Lemma filter_all (A : Type) (p : A -> bool) l :
  Forall (fun x => p x = true) l -> filter p l = l.
Proof.
  induction 1 as [|x t Hx _ IH]; simpl; [reflexivity|].
  rewrite Hx, IH. reflexivity.
Qed.

Lemma normalize_spec_fix r :
  Forall (fun c => clean c = true) r -> trimmed r ->
  contains2 SP SP r = false -> normalize_spec r = r.
Proof.
  intros Hc Ht Hd. unfold normalize_spec.
  rewrite (@filter_all _ (fun c => negb (is_invisible c)) r).
  2:{ eapply Forall_impl; [|exact Hc]. intros c H.
      apply clean_parts in H as (-> & _ & _). reflexivity. }
  replace (map to_space r) with r.
  2:{ symmetry. rewrite <- (map_id r) at 2. apply map_ext_Forall.
      eapply Forall_impl; [|exact Hc]. intros c H.
      apply clean_parts in H as (_ & _ & ->). reflexivity. }
  rewrite (@filter_all _ (fun c => negb (is_linebreak c)) r).
  2:{ eapply Forall_impl; [|exact Hc]. intros c H.
      apply clean_parts in H as (_ & -> & _). reflexivity. }
  rewrite (strip_fix _ Ht). apply squeeze_fix, Hd.
Qed.

Lemma normalize_spec_trimmed s : trimmed (normalize_spec s).
Proof. apply squeeze_trimmed, strip_trimmed. Qed.

Lemma normalize_spec_drop c a b :
  is_invisible c || is_linebreak c = true ->
  normalize_spec (a ++ c :: b) = normalize_spec (a ++ b).
Proof.
  intro H. unfold normalize_spec. do 2 f_equal.
  rewrite !filter_app, !map_app, !filter_app. f_equal. simpl.
  destruct (is_invisible c) eqn:Ei; simpl; [reflexivity|].
  simpl in H.
  assert (Hs : to_space c = c).
  { revert H. unfold is_linebreak, to_space, char_eqb, CR, LF, NBSP, TAB.
    destruct (N.eqb_spec c 13) as [->|]; [reflexivity|].
    destruct (N.eqb_spec c 10) as [->|]; [reflexivity|]. discriminate. }
  rewrite Hs, H. reflexivity.
Qed.

(** C5. [normalize_key] maps [None] to the empty string and is the
    normaliser of the specification: the zero-width space, the byte-order
    mark and the word joiner are removed, the non-breaking space and the tab
    become plain spaces, CRLF, LF and CR disappear without leaving a space,
    the result is trimmed, it has no two adjacent spaces, and it is a
    subsequence of the input with its tabs and non-breaking spaces turned
    into spaces, so that no letter changes case: ["  Name\n"] becomes
    ["Name"] and [" name"] does not. *)
Theorem normalize_key_contract :
  normalize_key None = [] /\
  (forall s, normalize_key (Some s) = normalize_spec s) /\
  (forall s, Forall (fun c => clean c = true) (normalize_key (Some s))) /\
  (forall a b,
      normalize_key (Some (a ++ CR :: LF :: b)) = normalize_key (Some (a ++ b))
      /\ normalize_key (Some (a ++ LF :: b)) = normalize_key (Some (a ++ b))
      /\ normalize_key (Some (a ++ CR :: b)) = normalize_key (Some (a ++ b))) /\
  (forall s, trimmed (normalize_key (Some s))) /\
  (forall s, contains2 SP SP (normalize_key (Some s)) = false) /\
  (forall s, Subseq (normalize_key (Some s)) (map to_space s)) /\
  normalize_key (Some (of_string "  Name"%string ++ [LF])) = of_string "Name"%string /\
  pystr_eqb (normalize_key (Some (of_string " name"%string))) (of_string "Name"%string)
  = false.
Proof.
  split; [reflexivity|].
  split; [exact normalize_key_refines|].
  split; [intro s; rewrite normalize_key_refines; apply normalize_spec_clean|].
  split.
  { intros a b. rewrite !normalize_key_refines.
    repeat split.
    - rewrite (@normalize_spec_drop CR a (LF :: b)) by reflexivity.
      apply normalize_spec_drop; reflexivity.
    - apply normalize_spec_drop; reflexivity.
    - apply normalize_spec_drop; reflexivity. }
  split; [intro s; rewrite normalize_key_refines; apply normalize_spec_trimmed|].
  split; [intro s; rewrite normalize_key_refines; apply squeeze_no_double|].
  split; [intro s; rewrite normalize_key_refines; apply normalize_spec_Subseq|].
  split; reflexivity.
Qed.

(** C10. [normalize_key] is idempotent: normalising a canonical label again
    returns it unchanged. *)
Theorem normalize_key_idempotent (s : option pystr) :
  normalize_key (Some (normalize_key s)) = normalize_key s.
Proof.
  destruct s as [s|]; [|reflexivity].
  rewrite (normalize_key_refines s), normalize_key_refines.
  apply normalize_spec_fix.
  - apply normalize_spec_clean.
  - apply normalize_spec_trimmed.
  - apply squeeze_no_double.
Qed.

End TextFacts.
(** * Properties of the style-preserving text writer *)

Module ShapesFacts.
Import Text Shapes Rels Remap World Samples More.

Lemma nth_error_middle (A : Type) (a b : list A) (x : A) :
  nth_error (a ++ x :: b) (length a) = Some x.
Proof. induction a as [|y t IH]; simpl; [reflexivity | exact IH]. Qed.

Lemma remove_at_middle (A : Type) (a b : list A) (x : A) :
  remove_at (length a) (a ++ x :: b) = a ++ b.
Proof.
  induction a as [|y t IH]; simpl; [reflexivity | rewrite IH; reflexivity].
Qed.

Lemma update_at_middle (A : Type) (f : A -> A) (a b : list A) (x : A) :
  update_at (length a) f (a ++ x :: b) = a ++ f x :: b.
Proof.
  induction a as [|y t IH]; simpl; [reflexivity | rewrite IH; reflexivity].
Qed.

(** ** The runs among the children of a paragraph *)

Lemma runs_of_app a b : runs_of (a ++ b) = runs_of a ++ runs_of b.
Proof.
  induction a as [|x t IH]; [reflexivity|].
  destruct x; cbn [app runs_of]; rewrite IH; reflexivity.
Qed.

Lemma at_run_middle f a r b :
  at_run (length (runs_of a)) f (a ++ IRun r :: b) = a ++ f r ++ b.
Proof.
  induction a as [|x t IH]; [reflexivity|].
  destruct x; cbn [app runs_of length at_run]; rewrite IH; reflexivity.
Qed.

Lemma later_runs_app a b : later_runs (a ++ b) = later_runs a ++ later_runs b.
Proof.
  induction a as [|x t IH]; [reflexivity|].
  destruct x as [r| |]; cbn [app later_runs]; rewrite IH;
    [destruct (kept_run r)|..]; reflexivity.
Qed.

Lemma later_runs_none a : runs_of a = [] -> later_runs a = a.
Proof.
  induction a as [|x t IH]; [reflexivity|].
  destruct x; cbn [runs_of later_runs]; intro H; try discriminate;
    rewrite (IH H); reflexivity.
Qed.

Lemma split_last_run a :
  forall j, length (runs_of a) = S j ->
  exists a1 r a2,
    a = a1 ++ IRun r :: a2 /\ runs_of a2 = [] /\ length (runs_of a1) = j.
Proof.
  induction a as [|x t IH] using rev_ind; intros j H; [discriminate|].
  rewrite runs_of_app in H. destruct x as [r| |].
  - exists t, r, []. split; [reflexivity|]. split; [reflexivity|].
    cbn [runs_of] in H. rewrite length_app in H. cbn [length] in H. lia.
  - cbn [runs_of] in H. rewrite app_nil_r in H.
    destruct (IH j H) as (a1 & r & a2 & -> & H2 & H1).
    exists a1, r, (a2 ++ [IBreak]). rewrite <- app_assoc.
    split; [reflexivity|]. split; [|exact H1].
    rewrite runs_of_app, H2. reflexivity.
  - cbn [runs_of] in H. rewrite app_nil_r in H.
    destruct (IH j H) as (a1 & r & a2 & -> & H2 & H1).
    exists a1, r, (a2 ++ [IField text]). rewrite <- app_assoc.
    split; [reflexivity|]. split; [|exact H1].
    rewrite runs_of_app, H2. reflexivity.
Qed.

Lemma split_first_run a r0 others :
  runs_of a = r0 :: others ->
  exists pre tail,
    a = pre ++ IRun r0 :: tail /\ runs_of pre = [] /\ runs_of tail = others.
Proof.
  induction a as [|x t IH]; [discriminate|].
  destruct x as [r| |]; cbn [runs_of]; intro H.
  - inversion H; subst. exists [], t. repeat split.
  - destruct (IH H) as (pre & tail & -> & H1 & H2).
    exists (IBreak :: pre), tail. repeat split; assumption.
  - destruct (IH H) as (pre & tail & -> & H1 & H2).
    exists (IField text :: pre), tail. repeat split; assumption.
Qed.

Lemma written_items_split text pre r tail :
  runs_of pre = [] ->
  written_items text (pre ++ IRun r :: tail)
  = pre ++ IRun (set_run_text text r) :: later_runs tail.
Proof.
  induction pre as [|x t IH]; [reflexivity|].
  destruct x; cbn [runs_of app written_items]; intro H; try discriminate;
    rewrite (IH H); reflexivity.
Qed.

(** The loop over the extra runs, run from the last one down: the removable
    ones go, the others stay in place, blank; what is no run is not
    touched. *)
Lemma drop_runs_closed head :
  forall j a b,
    length (runs_of head) = 1 -> length (runs_of a) = j ->
    drop_runs j (head ++ a ++ b) = Some (head ++ later_runs a ++ b).
Proof.
  induction j as [|j IH]; intros a b Hh Ha.
  - cbn [drop_runs]. rewrite later_runs_none; [reflexivity|].
    destruct (runs_of a); [reflexivity | discriminate].
  - destruct (split_last_run a j Ha) as (a1 & r & a2 & -> & H2 & H1).
    cbn [drop_runs]. unfold drop_run.
    assert (L : length (runs_of (head ++ a1)) = S j)
      by (rewrite runs_of_app, length_app, Hh, H1; reflexivity).
    assert (E : head ++ (a1 ++ IRun r :: a2) ++ b
                = (head ++ a1) ++ IRun r :: (a2 ++ b)).
    { rewrite <- !app_assoc. reflexivity. }
    rewrite E, runs_of_app. cbn [runs_of].
    rewrite <- L at 1. rewrite nth_error_middle. rewrite <- L.
    rewrite later_runs_app. cbn [later_runs].
    rewrite (later_runs_none a2 H2). unfold kept_run, removable_run.
    destruct (r_access r); cbn [negb]; rewrite at_run_middle;
      rewrite <- !app_assoc; cbn [blank_run app];
      rewrite (IH a1 _ Hh H1); reflexivity.
Qed.

Lemma drop_paras_closed p0 rest :
  forall tail,
    drop_paras (length rest) (p0 :: rest ++ tail)
    = Some (p0 :: map blank_runs (filter kept_para rest) ++ tail).
Proof.
  induction rest as [|x rest' IH] using rev_ind; intro tail; [reflexivity|].
  rewrite length_app, Nat.add_comm. cbn [length plus drop_paras].
  unfold drop_para. cbn [nth_error]. rewrite <- app_assoc. cbn [app].
  rewrite nth_error_middle, filter_app, map_app, <- app_assoc.
  cbn [filter]. unfold kept_para at 2, removable_para.
  destruct (p_access x); cbn [negb map app].
  - cbn [update_at]. rewrite update_at_middle. apply IH.
  - cbn [remove_at]. rewrite remove_at_middle. apply IH.
  - cbn [update_at]. rewrite update_at_middle. apply IH.
Qed.

(** [set_text_preserve_style] raises no [IndexError], and its loops have a
    closed form. *)
Lemma set_text_frame_written tf v :
  set_text_frame tf v = Some (written_frame tf v).
Proof.
  destruct tf as [|para rest]; [reflexivity|].
  unfold set_text_frame, written_frame.
  replace (length (para :: rest) - 1) with (length rest) by (simpl; lia).
  unfold p_runs.
  destruct (runs_of (p_items para)) as [|r0 others] eqn:Er.
  - pose proof (drop_paras_closed
                  {| p_items := p_items para
                                ++ [IRun (set_run_text (text_of_value v) new_run)];
                     p_access := p_access para |} rest []) as H.
    rewrite !app_nil_r in H. exact H.
  - destruct (split_first_run _ _ _ Er) as (pre & tail & E & Hp & Ht).
    rewrite E, (written_items_split _ _ _ _ Hp).
    replace (length (r0 :: others) - 1) with (length others) by (simpl; lia).
    pose proof (at_run_middle
                  (fun r => [IRun (set_run_text (text_of_value v) r)])
                  pre r0 tail) as A.
    rewrite Hp in A. cbn [length] in A. rewrite A. cbn [app].
    pose proof (drop_runs_closed
                  (pre ++ [IRun (set_run_text (text_of_value v) r0)])
                  (length others) tail []) as D.
    rewrite !app_nil_r, <- !app_assoc in D. cbn [app] in D.
    rewrite D.
    + pose proof (drop_paras_closed
                    {| p_items := pre ++ IRun (set_run_text (text_of_value v) r0)
                                         :: later_runs tail;
                       p_access := p_access para |} rest []) as H2.
      rewrite !app_nil_r in H2. exact H2.
    + rewrite runs_of_app, Hp. reflexivity.
    + rewrite Ht. reflexivity.
Qed.

Lemma set_text_written e v :
  set_text_preserve_style e v = Some (written e v).
Proof.
  destruct e as [l t a kids]. destruct t; try reflexivity.
  cbn [set_text_preserve_style written].
  rewrite set_text_frame_written. reflexivity.
Qed.

(** ** The runs python-pptx gives *)

Lemma runs_later a :
  forallb python_run (runs_of a) = true ->
  runs_of (later_runs a) = map (set_run_text []) (runs_of a).
Proof.
  induction a as [|x t IH]; [reflexivity|].
  destruct x as [r| |]; cbn [runs_of later_runs forallb]; intro H;
    try (apply IH, H).
  apply andb_prop in H as [Hr Ht]. unfold kept_run, removable_run.
  unfold python_run in Hr. destruct (r_access r); try discriminate.
  cbn [negb runs_of map]. rewrite (IH Ht). reflexivity.
Qed.

Lemma runs_written text a :
  forallb python_run (runs_of a) = true ->
  length (runs_of (written_items text a)) = length (runs_of a).
Proof.
  induction a as [|x t IH]; [reflexivity|].
  destruct x as [r| |]; cbn [runs_of written_items forallb]; intro H;
    try (apply IH, H).
  apply andb_prop in H as [_ Ht]. cbn [length].
  rewrite (runs_later t Ht), length_map. reflexivity.
Qed.

(** C6. [set_text_preserve_style] on a text box whose first paragraph has
    two or more runs, the runs being what [para.runs] of python-pptx gives:
    the call returns, and the first paragraph has as many runs afterwards
    as before. The extra runs are not removed, since a [_Run] has neither
    [_element] nor [element]; the shape does not hold one paragraph with
    one run. *)
Theorem set_text_preserve_style_keeps_runs
  (l : loc) (para : paragraph) (rest : list paragraph) (a : attrs)
  (kids : list elem) (v : pyval) :
  forallb python_run (p_runs para) = true ->
  (2 <=? length (p_runs para)) = true ->
  (exists p' rest',
      set_text_preserve_style (Elem l (TSp (para :: rest)) a kids) v
      = Some (Elem l (TSp (p' :: rest')) a kids) /\
      length (p_runs p') = length (p_runs para)) /\
  ~ shows_single_run
      (set_text_preserve_style (Elem l (TSp (para :: rest)) a kids) v).
Proof.
  intros Hp H2. apply Nat.leb_le in H2.
  assert (E : exists p' rest',
             set_text_preserve_style (Elem l (TSp (para :: rest)) a kids) v
             = Some (Elem l (TSp (p' :: rest')) a kids) /\
             length (p_runs p') = length (p_runs para)).
  { cbn [set_text_preserve_style]. rewrite set_text_frame_written.
    unfold written_frame. do 2 eexists. split; [reflexivity|].
    unfold p_runs in *. cbn [p_items].
    destruct (runs_of (p_items para)) as [|r0 others] eqn:Er;
      [cbn in H2; lia|].
    rewrite <- Er. apply runs_written. rewrite Er. exact Hp. }
  split; [exact E|].
  destruct E as (p' & rest' & E & L).
  intros (l0 & p & x & a0 & kids0 & S1 & S2).
  rewrite E in S1. inversion S1; subst. rewrite S2 in L. cbn in L. lia.
Qed.

Lemma set_text_preserve_style_keeps_runs_witness :
  forallb python_run (p_runs sample_para) = true /\
  (2 <=? length (p_runs sample_para)) = true /\
  ~ shows_single_run
      (set_text_preserve_style (Elem 1%N (TSp [sample_para]) sample_attrs [])
         (VStr (of_string "Hong"))).
Proof.
  split; [reflexivity|]. split; [reflexivity|].
  apply (set_text_preserve_style_keeps_runs 1%N sample_para [] sample_attrs []
           (VStr (of_string "Hong"))); reflexivity.
Defined.

End ShapesFacts.

(** * Properties of the relationship tables *)

Module RelsFacts.
Import Rels.

Lemma pystr_eqb_eq a b : pystr_eqb a b = true <-> a = b.
Proof.
  revert b; induction a as [|x a' IH]; intros [|y b']; simpl;
    try (split; [discriminate | congruence]); try tauto.
  rewrite andb_true_iff, IH. unfold char_eqb. rewrite N.eqb_eq.
  split; [intros [-> ->]; reflexivity | intro H; injection H; auto].
Qed.

Lemma pystr_eqb_refl a : pystr_eqb a a = true.
Proof. apply pystr_eqb_eq; reflexivity. Qed.

Lemma pystr_eqb_neq a b : pystr_eqb a b = false <-> a <> b.
Proof.
  rewrite <- pystr_eqb_eq. destruct (pystr_eqb a b); split; congruence.
Qed.

Lemma part_eqb_eq a b : part_eqb a b = true <-> a = b.
Proof.
  destruct a, b; simpl; try (split; [discriminate | congruence]).
  - rewrite N.eqb_eq. split; congruence.
  - rewrite pystr_eqb_eq. split; congruence.
  - rewrite pystr_eqb_eq. split; congruence.
Qed.

Lemma target_eqb_eq a b : target_eqb a b = true <-> a = b.
Proof.
  destruct a, b; simpl; try (split; [discriminate | congruence]).
  - rewrite part_eqb_eq. split; congruence.
  - rewrite pystr_eqb_eq. split; congruence.
Qed.

Lemma rel_eqb_eq a b : rel_eqb a b = true <-> a = b.
Proof.
  unfold rel_eqb. rewrite andb_true_iff, pystr_eqb_eq, target_eqb_eq.
  destruct a, b; simpl. split; [intros [-> ->]; reflexivity|].
  intro H; injection H; auto.
Qed.

Lemma nodupb_NoDup l : nodupb l = true <-> NoDup l.
Proof.
  induction l as [|x t IH]; simpl.
  - split; [constructor | reflexivity].
  - rewrite andb_true_iff, negb_true_iff, IH. split.
    + intros [Hx Ht]. constructor; [|exact Ht]. intro Hin.
      assert (existsb (pystr_eqb x) t = true); [|congruence].
      apply existsb_exists. exists x. split; [exact Hin | apply pystr_eqb_refl].
    + intro H. inversion H as [|? ? Hx Ht]; subst. split; [|exact Ht].
      destruct (existsb (pystr_eqb x) t) eqn:E; [|reflexivity].
      apply existsb_exists in E as [y [Hy Hxy]].
      apply pystr_eqb_eq in Hxy. subst y. contradiction.
Qed.

Lemma lookup_In k r x : lookup k r = Some x -> In (k, x) r.
Proof.
  induction r as [|[k' y] t IH]; simpl; [discriminate|].
  destruct (pystr_eqb k' k) eqn:E.
  - apply pystr_eqb_eq in E. intro H; injection H as ->. left; congruence.
  - intro H. right; auto.
Qed.

Lemma lookup_None k r : lookup k r = None <-> ~ In k (keys r).
Proof.
  induction r as [|[k' y] t IH]; simpl; [tauto|].
  destruct (pystr_eqb k' k) eqn:E.
  - apply pystr_eqb_eq in E. split; [discriminate | intro H; exfalso; auto].
  - apply pystr_eqb_neq in E. rewrite IH. tauto.
Qed.

Lemma mem_In k r : mem k r = true <-> In k (keys r).
Proof.
  unfold mem. pose proof (lookup_None k r) as H.
  destruct (lookup k r).
  - split; [intros _|reflexivity].
    destruct (in_dec (list_eq_dec N.eq_dec) k (keys r)) as [Hi|Hn];
      [exact Hi|]. apply H in Hn. discriminate.
  - split; [discriminate|]. intro Hi. exfalso. apply (proj1 H eq_refl Hi).
Qed.

(** ** Relationship ids are told apart by their number *)

Lemma of_string_inj a b : of_string a = of_string b -> a = b.
Proof.
  unfold of_string. intro H.
  rewrite <- (string_of_list_ascii_of_string a),
          <- (string_of_list_ascii_of_string b).
  f_equal. revert H.
  generalize (list_ascii_of_string a) (list_ascii_of_string b).
  induction l as [|x t IH]; intros [|y u]; simpl; try discriminate;
    [reflexivity|].
  intro H. injection H as Hxy Htu. f_equal; [|apply IH, Htu].
  rewrite <- (ascii_N_embedding x), <- (ascii_N_embedding y), Hxy.
  reflexivity.
Qed.

Lemma rId_name_inj n m : rId_name n = rId_name m -> n = m.
Proof.
  unfold rId_name. intro H. apply app_inv_head, of_string_inj in H.
  apply Unsigned.to_uint_inj.
  assert (E : NilEmpty.uint_of_string (NilEmpty.string_of_uint (Nat.to_uint n))
              = NilEmpty.uint_of_string
                  (NilEmpty.string_of_uint (Nat.to_uint m))) by (rewrite H; reflexivity).
  rewrite !NilEmpty.usu in E. injection E; auto.
Qed.

Lemma first_unused_spec r n :
  ~ In (first_unused r n) (keys r) \/
  (first_unused r n = rId_name 1 /\
   forall i, 2 <= i <= S n -> In (rId_name i) (keys r)).
Proof.
  induction n as [|m IH]; cbn [first_unused].
  - right. split; [reflexivity | intros i Hi; lia].
  - destruct (mem (rId_name (S (S m))) r) eqn:E.
    + destruct IH as [H|[H1 H2]]; [left; exact H|].
      right. split; [exact H1|].
      intros i Hi. destruct (Nat.eq_dec i (S (S m))) as [->|Hne].
      * apply mem_In, E.
      * apply H2. lia.
    + left. intro Hin. apply mem_In in Hin. congruence.
Qed.

(** [_next_rId] is not a key of the table. *)
Lemma next_rId_fresh r : ~ In (next_rId r) (keys r).
Proof.
  unfold next_rId. destruct (first_unused_spec r (length r)) as [H|[H1 H2]];
    [exact H|].
  rewrite H1. intro Hin.
  assert (Hincl : incl (map rId_name (seq 1 (S (length r)))) (keys r)).
  { intros k Hk. apply in_map_iff in Hk as [i [<- Hi]].
    apply in_seq in Hi.
    destruct (Nat.eq_dec i 1) as [->|Hne]; [exact Hin|].
    apply H2. lia. }
  assert (Hnd : NoDup (map rId_name (seq 1 (S (length r))))).
  { apply Finite.Injective_map_NoDup; [|apply seq_NoDup].
    intros a b. apply rId_name_inj. }
  pose proof (NoDup_incl_length Hnd Hincl) as Hlen.
  unfold keys in Hlen. rewrite !length_map, length_seq in Hlen. lia.
Qed.

End RelsFacts.

(** * Properties of the relationship remapper *)

Module RemapFacts.
Import Shapes Rels Remap RelsFacts.

Lemma thread_cons (S : Type) (f : S -> elem -> S * elem) st k ks :
  thread f st (k :: ks) =
  let (s1, k') := f st k in
  let (s2, ks') := thread f s1 ks in (s2, k' :: ks').
Proof. reflexivity. Qed.

(** Induction on elements, with the hypothesis on every child. *)
Lemma elem_ind' (P : elem -> Prop) :
  (forall l t a kids, Forall P kids -> P (Elem l t a kids)) ->
  forall e, P e.
Proof.
  intro H. fix IH 1. intros [l t a kids]. apply H.
  induction kids as [|k ks IHks]; constructor; [apply IH | exact IHks].
Qed.

(** ** Tables only grow at their end *)

Lemma ext_refl d : ext d d.
Proof. exists []. rewrite app_nil_r. reflexivity. Qed.

Lemma ext_trans a b c : ext a b -> ext b c -> ext a c.
Proof.
  intros [m1 ->] [m2 ->]. exists (m1 ++ m2). rewrite app_assoc. reflexivity.
Qed.

Lemma lookup_app k d m :
  lookup k (d ++ m) =
  match lookup k d with Some x => Some x | None => lookup k m end.
Proof.
  induction d as [|[k' y] t IH]; simpl; [reflexivity|].
  destruct (pystr_eqb k' k); [reflexivity | exact IH].
Qed.

Lemma get_matching_app d m x :
  get_matching (d ++ m) x =
  match get_matching d x with Some k => Some k | None => get_matching m x end.
Proof.
  unfold get_matching. induction d as [|[k' y] t IH]; simpl; [reflexivity|].
  destruct (rel_eqb y x); [reflexivity | exact IH].
Qed.

Lemma In_lookup k x d : NoDup (keys d) -> In (k, x) d -> lookup k d = Some x.
Proof.
  induction d as [|[k' y] t IH]; simpl; [tauto|]. intros Hnd [H|H].
  - injection H as -> ->. rewrite pystr_eqb_refl. reflexivity.
  - inversion Hnd as [|? ? Hk Ht]; subst.
    destruct (pystr_eqb k' k) eqn:E; [|apply IH; assumption].
    apply pystr_eqb_eq in E. subst k'. exfalso. apply Hk.
    change k with (fst (k, x)). apply in_map, H.
Qed.

Lemma get_matching_Some d x k :
  get_matching d x = Some k -> In (k, x) d.
Proof.
  unfold get_matching. destruct (find _ d) as [[k' y]|] eqn:E; [|discriminate].
  intro H; injection H as <-. apply find_some in E as [Hin Heq].
  apply rel_eqb_eq in Heq. simpl in Heq. subst y. exact Hin.
Qed.

Lemma relate_to_spec d t ty d' k :
  rels_ok d = true -> relate_to d t ty = (d', k) ->
  ext d d' /\ rels_ok d' = true /\ length d' <= S (length d) /\
  get_matching d' {| rel_type := ty; rel_target := t |} = Some k /\
  lookup k d' = Some {| rel_type := ty; rel_target := t |}.
Proof.
  unfold relate_to, rels_ok. intros Hok H.
  apply nodupb_NoDup in Hok.
  destruct (get_matching d _) as [k0|] eqn:E.
  - injection H as <- <-.
    split; [apply ext_refl|]. split; [apply nodupb_NoDup, Hok|].
    split; [lia|]. split; [exact E|].
    apply In_lookup; [exact Hok | apply get_matching_Some, E].
  - injection H as <- <-.
    pose proof (next_rId_fresh d) as Hf.
    split; [eexists; reflexivity|]. split.
    { apply nodupb_NoDup. unfold keys. rewrite map_app. simpl.
      apply NoDup_app; [exact Hok | repeat constructor; simpl; tauto |].
      intros a Ha [<-|[]]. apply Hf, Ha. }
    split; [rewrite length_app; simpl; lia|]. split.
    + rewrite get_matching_app, E. unfold get_matching. simpl.
      replace (rel_eqb _ _) with true; [reflexivity|].
      symmetry; apply rel_eqb_eq; reflexivity.
    + rewrite lookup_app. apply lookup_None in Hf. rewrite Hf. simpl.
      rewrite pystr_eqb_refl. reflexivity.
Qed.

Lemma attr_remapped_mono src d d2 old new :
  ext d d2 -> attr_remapped src d old new -> attr_remapped src d2 old new.
Proof.
  intros [m ->]. unfold attr_remapped. destruct old as [o|]; [|auto].
  destruct (if is_empty o then None else lookup o src); [|auto].
  intros (k & Hn & Hg & Hl). exists k. split; [exact Hn|].
  rewrite get_matching_app, Hg, lookup_app, Hl. split; reflexivity.
Qed.

Lemma Remapped_mono src d d2 e :
  forall e', ext d d2 -> Remapped src d e e' -> Remapped src d2 e e'.
Proof.
  induction e as [l t a kids IH] using elem_ind'. intros e' Hext H.
  inversion H as [? ? ? a' ? kids' Hp Hg Hty He Hi Hk]; subst.
  constructor; try assumption;
    try (eapply attr_remapped_mono; eassumption).
  clear -IH Hk Hext. induction Hk as [|k k' ks ks' Hkk _ IHk]; constructor.
  - inversion IH; subst. auto.
  - inversion IH; subst. auto.
Qed.

Lemma remap_attr_spec src d old d' new :
  rels_ok d = true -> remap_attr src d old = (d', new) ->
  ext d d' /\ rels_ok d' = true /\
  length d' <= length d + attr_occurs src old /\
  attr_remapped src d' old new.
Proof.
  unfold remap_attr, attr_remapped, attr_occurs, mem. intros Hok H.
  destruct old as [o|].
  2:{ injection H as <- <-. repeat split; auto using ext_refl. lia. }
  destruct (is_empty o).
  { injection H as <- <-. repeat split; auto using ext_refl. lia. }
  destruct (lookup o src) as [x|].
  2:{ injection H as <- <-. repeat split; auto using ext_refl. lia. }
  destruct (relate_to d (rel_target x) (rel_type x)) as [d1 k] eqn:E.
  injection H as <- <-.
  destruct (relate_to_spec _ _ _ _ _ Hok E) as (H1 & H2 & H3 & H4 & H5).
  destruct x as [ty t]; simpl in *.
  repeat split; try assumption; [lia|].
  exists k. auto.
Qed.

Lemma remap_spec src e :
  forall d d' e',
    rels_ok d = true -> remap src d e = (d', e') ->
    ext d d' /\ rels_ok d' = true /\
    length d' <= length d + occurrences src e /\
    Remapped src d' e e'.
Proof.
  induction e as [l t a kids IH] using elem_ind'. intros d d' e' Hok H.
  cbn [remap] in H.
  destruct (remap_attr src d (a_embed a)) as [d1 em] eqn:E1.
  destruct (remap_attr src d1 (a_id a)) as [d2 id'] eqn:E2.
  destruct (thread (remap src) d2 kids) as [d3 kids'] eqn:E3.
  injection H as <- <-.
  destruct (remap_attr_spec _ _ _ _ _ Hok E1) as (X1 & Ok1 & L1 & A1).
  destruct (remap_attr_spec _ _ _ _ _ Ok1 E2) as (X2 & Ok2 & L2 & A2).
  assert (K : ext d2 d3 /\ rels_ok d3 = true /\
              length d3 <= length d2 + list_sum (map (occurrences src) kids) /\
              Forall2 (Remapped src d3) kids kids').
  { clear -IH Ok2 E3. revert d2 d3 kids' Ok2 E3.
    induction kids as [|k ks IHks]; intros d2 d3 kids' Ok2 E3.
    - injection E3 as <- <-. repeat split; auto using ext_refl. simpl; lia.
    - cbn [thread] in E3.
      destruct (remap src d2 k) as [da k'] eqn:Ek.
      fold (thread (remap src)) in E3.
      destruct (thread (remap src) da ks) as [db ks'] eqn:Et.
      injection E3 as <- <-.
      inversion IH as [|? ? Hk Hks]; subst.
      destruct (Hk _ _ _ Ok2 Ek) as (Xa & Oka & La & Ra).
      destruct (IHks Hks _ _ _ Oka Et) as (Xb & Okb & Lb & Rb).
      split; [eapply ext_trans; eassumption|]. split; [exact Okb|].
      split; [simpl; lia|].
      constructor; [eapply Remapped_mono; eassumption | exact Rb]. }
  destruct K as (X3 & Ok3 & L3 & R3).
  split; [eapply ext_trans; [exact X1 | eapply ext_trans; eassumption]|].
  split; [exact Ok3|]. split; [cbn [occurrences]; lia|].
  constructor; try reflexivity; [| |exact R3].
  - eapply attr_remapped_mono; [|exact A1]. eapply ext_trans; eassumption.
  - eapply attr_remapped_mono; [|exact A2]. exact X3.
Qed.

(** ** The entries the remapper adds *)

Lemma matched_in_app dst added x :
  matched_in (dst ++ added) x
  = matched_in dst x || existsb (fun y => rel_eqb y x) (map snd added).
Proof.
  unfold matched_in. rewrite get_matching_app.
  destruct (get_matching dst x); [reflexivity|]. cbn [orb].
  unfold get_matching.
  induction added as [|[k y] t IH]; [reflexivity|].
  cbn [find map existsb snd]. destruct (rel_eqb y x); [reflexivity | exact IH].
Qed.

Lemma remap_attr_table src dst added old d' new :
  remap_attr src (dst ++ added) old = (d', new) ->
  exists added',
    d' = dst ++ added' /\
    map snd added'
    = fold_left (add_rel dst) (attr_ref src old) (map snd added).
Proof.
  unfold remap_attr, attr_ref. intro H.
  destruct old as [o|].
  2:{ injection H as <- <-. exists added. split; reflexivity. }
  destruct (is_empty o).
  { injection H as <- <-. exists added. split; reflexivity. }
  destruct (lookup o src) as [x|].
  2:{ injection H as <- <-. exists added. split; reflexivity. }
  cbn [fold_left]. unfold add_rel. rewrite <- matched_in_app.
  unfold relate_to, matched_in in *. destruct x as [ty t]. cbn [rel_type rel_target] in H.
  destruct (get_matching (dst ++ added) _) as [k|].
  - injection H as <- <-. exists added. split; reflexivity.
  - injection H as <- <-. eexists. rewrite <- app_assoc.
    split; [reflexivity|]. rewrite map_app. reflexivity.
Qed.

Lemma remap_table src dst e :
  forall added d' e',
    remap src (dst ++ added) e = (d', e') ->
    exists added',
      d' = dst ++ added' /\
      map snd added'
      = fold_left (add_rel dst) (referenced src e) (map snd added).
Proof.
  induction e as [l t a kids IH] using elem_ind'. intros added d' e' H.
  cbn [remap] in H.
  destruct (remap_attr src (dst ++ added) (a_embed a)) as [d1 em] eqn:E1.
  destruct (remap_attr src d1 (a_id a)) as [d2 id'] eqn:E2.
  destruct (thread (remap src) d2 kids) as [d3 kids'] eqn:E3.
  injection H as <- <-.
  destruct (remap_attr_table _ _ _ _ _ _ E1) as (a1 & -> & M1).
  destruct (remap_attr_table _ _ _ _ _ _ E2) as (a2 & -> & M2).
  cbn [referenced]. rewrite !fold_left_app, <- M1, <- M2.
  clear E1 E2 M1 M2. revert a2 d3 kids' E3.
  induction IH as [|k ks Hk _ IHks]; intros a2 d3 kids' E3.
  - injection E3 as <- <-. exists a2. split; reflexivity.
  - rewrite thread_cons in E3.
    destruct (remap src (dst ++ a2) k) as [da k'] eqn:Ek.
    destruct (thread (remap src) da ks) as [db ks'] eqn:Et.
    injection E3 as <- <-.
    destruct (Hk _ _ _ Ek) as (a3 & -> & M3).
    cbn [flat_map]. rewrite fold_left_app, <- M3.
    apply (IHks _ _ _ Et).
Qed.

(** C3, as the code has it. Every occurrence of [r:embed] or [r:id] whose
    value is a key of the source table is rewritten to the id that the
    destination's [relate_to] returns for the source relationship: the id of
    the first relationship of the destination table with the same type and
    the same target (the same URI, external, or the same part). The
    destination table keeps its entries and gains, at its end, exactly one
    entry for every source relationship that is named by an occurrence and
    that the table did not hold: no entry when it held one, and one entry,
    not two, when two occurrences name the same relationship. Occurrences
    whose value is empty or no key of the source table, and nodes without
    the attributes, are left unchanged. *)
Theorem remap_relationships_spec (src dst : rels) (e : elem) :
  rels_ok dst = true -> remap_contract src dst e.
Proof.
  intro Hok. unfold remap_contract.
  destruct (remap src dst e) as [d' e'] eqn:E. cbn [fst snd].
  destruct (remap_spec src e _ _ _ Hok E) as (X & Ok & L & R).
  split; [|repeat split; assumption].
  rewrite <- (app_nil_r dst) in E.
  destruct (remap_table src dst e [] _ _ E) as (added & -> & M).
  exists added. split; [reflexivity | exact M].
Qed.

Lemma remap_relationships_spec_witness :
  rels_ok sample_dst = true /\
  remap_contract sample_src sample_dst sample_subtree.
Proof.
  split; [reflexivity|].
  apply (remap_relationships_spec sample_src sample_dst sample_subtree).
  reflexivity.
Defined.

(** The two pictures of the sample embed the same source relationship: the
    destination gains one image relationship, and both pictures refer to
    it. *)
Example remap_sample :
  remap sample_src sample_dst sample_subtree =
  ( [ (of_string "rId1", layout_rel); (of_string "rId2", image_rel);
      (of_string "rId3", link_rel) ],
    node 1%N TGrp None None
      [ node 2%N TPic (Some (of_string "rId2")) None [];
        node 3%N TPic (Some (of_string "rId2")) None [];
        node 4%N TElem None (Some (of_string "rId3")) [];
        node 5%N TElem (Some (of_string "rId9")) None [] ] ).
Proof. vm_compute. reflexivity. Qed.

(** The property as the specification states it, one new entry for every
    occurrence, fails: three occurrences, two new entries. *)
Lemma remap_reuses_relationship :
  ~ (forall src dst e,
        rels_ok dst = true -> one_entry_per_occurrence src dst e).
Proof.
  intro H. specialize (H sample_src sample_dst sample_subtree eq_refl).
  vm_compute in H. discriminate H.
Qed.

End RemapFacts.

(** * Properties of the fill of one shape *)

Module FillFacts.
Import Text Shapes Rels Remap World Samples.

(** The routing of the code is the routing of the specification on [None],
    on every string and on every other object but the float NaN. *)
Lemma route_refines (key : pystr) :
  route IMAGE_EXTENSIONS key VNone = route_spec key VNone /\
  (forall s, route IMAGE_EXTENSIONS key (VStr s) = route_spec key (VStr s)) /\
  (forall r, route IMAGE_EXTENSIONS key (VOther r) = route_spec key (VOther r)).
Proof.
  split; [reflexivity|]. split.
  - intro s. unfold route, route_spec. simpl.
    destruct (pystr_eqb (py_lower s) (of_string "nan")); [reflexivity|].
    destruct (is_empty (strip s)); [reflexivity|].
    destruct (endswith (py_upper key) (of_string "_IMG")); reflexivity.
  - intro r. unfold route, route_spec. simpl.
    destruct (is_empty (strip r)); [reflexivity|].
    destruct (endswith (py_upper key) (of_string "_IMG")); reflexivity.
Qed.

(** The routing examples of the specification. *)
Example route_logo_png :
  route IMAGE_EXTENSIONS (of_string "Logo") (VStr (of_string "logo.PNG"))
  = Picture (of_string "logo.PNG").
Proof. reflexivity. Qed.

Example route_img_key :
  route IMAGE_EXTENSIONS (of_string "Logo_IMG") (VStr (of_string "N/A"))
  = Picture (of_string "N/A").
Proof. reflexivity. Qed.

Example route_nan_string :
  route IMAGE_EXTENSIONS (of_string "Name") (VStr (of_string "NaN")) = Blank.
Proof. reflexivity. Qed.

(** C4, at the input on which the code leaves the specification. The value of an
    empty cell is a float NaN: it is not [None] and no string, so the first
    test lets it pass, [str] turns it into "nan", and the shape receives
    the text "nan" where the routing of the specification writes the empty
    text. *)
Theorem fill_nan_cell_writes_nan :
  route IMAGE_EXTENSIONS (of_string "Phone") VNaN = PlainText (of_string "nan")
  /\ route_spec (of_string "Phone") VNaN = Blank
  /\ text_at 4%N
       (s_tree (w_tmpl (fst (fill_template_with_row sample_fs IMAGE_EXTENSIONS
                               sample_world [(of_string "Phone", VNaN)]))))
     = Some (of_string "nan").
Proof. repeat split; vm_compute; reflexivity. Qed.

(** C8. A picture value whose path names no file: [fill_picture] returns
    with the world as it was, the shape, the shape tree and the
    relationship tables included. *)
Theorem fill_picture_missing_file
  (fs : filesystem) (w : world) (e : elem) (img_path : pystr) :
  fs img_path = None -> fill_picture fs w e img_path = w.
Proof.
  intro H. unfold fill_picture. rewrite H.
  destruct (is_empty img_path); reflexivity.
Qed.

Lemma fill_picture_missing_file_witness :
  sample_fs (of_string "N/A") = None /\
  fill_picture sample_fs sample_world (label 5%N "Logo_IMG") (of_string "N/A")
  = sample_world.
Proof.
  split; [reflexivity|].
  apply (fill_picture_missing_file sample_fs sample_world
           (label 5%N "Logo_IMG") (of_string "N/A")).
  reflexivity.
Defined.

End FillFacts.

(** * Elements: copies and mutations by identity *)

Module ElemFacts.
Import Text Shapes Rels Remap World RemapFacts.

Lemma locs_l_app a b : locs_l (a ++ b) = locs_l a ++ locs_l b.
Proof. unfold locs_l. apply flat_map_app. Qed.

Lemma locs_l_cons e t : locs_l (e :: t) = locs e ++ locs_l t.
Proof. reflexivity. Qed.

(** ** A mutation of an object leaves the trees without it alone *)

Lemma edit_notin l f e : ~ In l (locs e) -> edit l f e = [e].
Proof.
  induction e as [l' t a kids IH] using elem_ind'. intro H.
  cbn [edit]. cbn [locs] in H.
  destruct (N.eqb_spec l' l) as [->|Hne]; [exfalso; apply H; left; reflexivity|].
  do 2 f_equal.
  assert (Hk : ~ In l (flat_map locs kids)) by (intro X; apply H; right; exact X).
  clear H. induction kids as [|k ks IHks]; [reflexivity|].
  inversion IH as [|? ? Hk1 Hks]; subst. simpl in Hk. simpl.
  rewrite Hk1 by (intro X; apply Hk, in_or_app; left; exact X).
  rewrite IHks; [reflexivity | exact Hks |].
  intro X; apply Hk, in_or_app; right; exact X.
Qed.

Lemma edit_l_notin l f forest :
  ~ In l (locs_l forest) -> edit_l l f forest = forest.
Proof.
  induction forest as [|e t IH]; intro H; [reflexivity|].
  unfold edit_l in *. simpl. rewrite locs_l_cons in H.
  rewrite edit_notin by (intro X; apply H, in_or_app; left; exact X).
  rewrite IH by (intro X; apply H, in_or_app; right; exact X).
  reflexivity.
Qed.

(** ** Copies *)


Lemma deepcopy_spec e :
  forall n n' e',
    deepcopy n e = (n', e') ->
    (n < n')%N /\ content e' = content e /\ e_tag e' = e_tag e /\
    Forall (fun x => (n <= x < n')%N) (locs e').
Proof.
  induction e as [l t a kids IH] using elem_ind'. intros n n' e' H.
  cbn [deepcopy] in H.
  destruct (thread deepcopy (N.succ n) kids) as [m kids'] eqn:E.
  injection H as <- <-.
  assert (K : (N.succ n <= m)%N /\ map content kids' = map content kids /\
              Forall (fun x => (N.succ n <= x < m)%N) (locs_l kids')).
  { clear -IH E. revert m kids' E. generalize (N.succ n) as n0.
    induction kids as [|k ks IHks]; intros n0 m kids' E.
    - injection E as <- <-. repeat split; [lia | constructor].
    - rewrite thread_cons in E.
      destruct (deepcopy n0 k) as [n1 k'] eqn:Ek.
      destruct (thread deepcopy n1 ks) as [n2 ks'] eqn:Es.
      injection E as <- <-.
      inversion IH as [|? ? Hk Hks]; subst.
      destruct (Hk _ _ _ Ek) as (L1 & C1 & _ & F1).
      destruct (IHks Hks _ _ _ Es) as (L2 & C2 & F2).
      split; [lia|]. split; [simpl; congruence|].
      rewrite locs_l_cons. apply Forall_app. split.
      + eapply Forall_impl; [|exact F1]. intros x Hx. simpl in Hx. lia.
      + eapply Forall_impl; [|exact F2]. intros x Hx. simpl in Hx. lia. }
  destruct K as (L & C & F).
  split; [lia|]. split; [cbn [content]; rewrite C; reflexivity|].
  split; [reflexivity|].
  cbn [locs]. constructor; [lia|].
  eapply Forall_impl; [|exact F]. intros x Hx. simpl in Hx. lia.
Qed.

Lemma deepcopy_l_spec forest :
  forall n n' forest',
    deepcopy_l n forest = (n', forest') ->
    (n <= n')%N /\ map content forest' = map content forest /\
    map e_tag forest' = map e_tag forest /\
    Forall (fun x => (n <= x < n')%N) (locs_l forest').
Proof.
  unfold deepcopy_l.
  induction forest as [|k ks IHks]; intros n n' forest' E.
  - injection E as <- <-. repeat split; [lia | constructor].
  - rewrite thread_cons in E.
    destruct (deepcopy n k) as [n1 k'] eqn:Ek.
    destruct (thread deepcopy n1 ks) as [n2 ks'] eqn:Es.
    injection E as <- <-.
    destruct (deepcopy_spec _ _ _ _ Ek) as (L1 & C1 & T1 & F1).
    destruct (IHks _ _ _ Es) as (L2 & C2 & T2 & F2).
    split; [lia|]. split; [simpl; congruence|]. split; [simpl; congruence|].
    rewrite locs_l_cons. apply Forall_app. split.
    + eapply Forall_impl; [|exact F1]. intros x Hx. simpl in Hx. lia.
    + eapply Forall_impl; [|exact F2]. intros x Hx. simpl in Hx. lia.
Qed.

End ElemFacts.

(** * The fill leaves the snapshot and the added slides alone *)

Module FrameFacts.
Import Text Shapes Rels Remap World RemapFacts ElemFacts.

Lemma same_doc_refl w : same_doc w w.
Proof. unfold same_doc. repeat split; reflexivity || lia. Qed.

Lemma same_doc_trans a b c : same_doc a b -> same_doc b c -> same_doc a c.
Proof.
  unfold same_doc.
  intros (A1 & A2 & A3 & A4 & A5 & A6 & A7 & A8)
         (B1 & B2 & B3 & B4 & B5 & B6 & B7 & B8).
  repeat split; try congruence. lia.
Qed.

Lemma same_doc_frozen w w' : same_doc w w' -> frozen w' = frozen w.
Proof. intros (A1 & A2 & _). unfold frozen. rewrite A1, A2. reflexivity. Qed.

Lemma slide_edit_notin l f s :
  ~ In l (locs_l (slide_forest s)) -> slide_edit l f s = s.
Proof.
  unfold slide_forest. rewrite locs_l_app. intro H.
  unfold slide_edit.
  rewrite !edit_l_notin by (intro X; apply H, in_or_app; auto).
  destruct s; reflexivity.
Qed.

Lemma world_edit_frame l f w :
  ~ In l (locs_l (frozen w)) -> same_doc w (world_edit l f w).
Proof.
  unfold frozen. rewrite locs_l_app. intro H.
  unfold same_doc. cbn [world_edit w_snapshot w_new w_sldIdLst w_prs_rels
                          w_other_refs w_layout_phs w_saved w_next].
  split; [apply edit_l_notin; intro X; apply H, in_or_app; auto|].
  split; [|repeat split; reflexivity || lia].
  assert (Hn : ~ In l (locs_l (flat_map (fun ps => slide_forest (snd ps))
                                 (w_new w))))
    by (intro X; apply H, in_or_app; auto).
  clear H. induction (w_new w) as [|[p s] t IH]; [reflexivity|].
  simpl in Hn. rewrite locs_l_app in Hn. simpl.
  rewrite slide_edit_notin by (intro X; apply Hn, in_or_app; auto).
  rewrite IH by (intro X; apply Hn, in_or_app; auto). reflexivity.
Qed.

Lemma with_tmpl_same_doc w s n :
  (w_next w <= n)%N -> same_doc w (with_tmpl w s n).
Proof. intro H. unfold same_doc. simpl. repeat split; reflexivity || exact H. Qed.

Lemma with_tmpl_frozen w s n : frozen (with_tmpl w s n) = frozen w.
Proof. reflexivity. Qed.

Lemma find_shape_loc l tree e : find_shape l tree = Some e -> e_loc e = l.
Proof.
  unfold find_shape. intro H. apply find_some in H as [_ H].
  apply N.eqb_eq, H.
Qed.

Lemma fill_picture_frame fs w e path :
  ~ In (e_loc e) (locs_l (frozen w)) -> same_doc w (fill_picture fs w e path).
Proof.
  intro H. unfold fill_picture.
  destruct (is_empty path); [apply same_doc_refl|].
  destruct (fs path) as [[blob|]|]; try apply same_doc_refl.
  destruct (relate_to _ _ _) as [rels' rId].
  destruct (a_ph (e_attrs e));
    (eapply same_doc_trans;
     [apply with_tmpl_same_doc | apply world_edit_frame;
                                 rewrite with_tmpl_frozen; exact H]); lia.
Qed.

Lemma fill_shape_frame fs sufs d w log l :
  ~ In l (locs_l (frozen w)) ->
  same_doc w (fst (fill_shape fs sufs d (w, log) l)).
Proof.
  intro H. unfold fill_shape.
  destruct (find_shape l (s_tree (w_tmpl w))) as [e|] eqn:E;
    [|apply same_doc_refl].
  apply find_shape_loc in E.
  destruct (is_empty _); [apply same_doc_refl|].
  destruct (dict_get d _) as [val|]; [|apply same_doc_refl].
  destruct (route sufs _ val); cbn [fst].
  - destruct (has_text_frame e); [|apply same_doc_refl].
    apply world_edit_frame, H.
  - apply fill_picture_frame. rewrite E. exact H.
  - apply world_edit_frame, H.
Qed.

Lemma fill_shapes_frame fs sufs d ls :
  forall w log,
    Forall (fun l => ~ In l (locs_l (frozen w))) ls ->
    same_doc w (fst (fold_left (fill_shape fs sufs d) ls (w, log))).
Proof.
  induction ls as [|l t IH]; intros w log H; [apply same_doc_refl|].
  inversion H as [|? ? Hl Ht]; subst. cbn [fold_left].
  pose proof (fill_shape_frame fs sufs d w log l Hl) as S1.
  destruct (fill_shape fs sufs d (w, log) l) as [w1 log1]. cbn [fst] in S1.
  eapply same_doc_trans; [exact S1|]. apply IH.
  rewrite (same_doc_frozen _ _ S1). exact Ht.
Qed.

(** The two ways a fill goes: the collection of the shapes fails and
    nothing happens, or the loop runs over the shapes to process. *)
Lemma fill_cases fs sufs w r :
  (collect (s_tree (w_tmpl w)) = None /\
   fill_template_with_row fs sufs w r = (w, empty_log)) \/
  (collect (s_tree (w_tmpl w)) = Some (candidates (s_tree (w_tmpl w))) /\
   fill_template_with_row fs sufs w r
   = fold_left (fill_shape fs sufs (make_row_dict r))
       (shapes_to_process (s_tree (w_tmpl w))) (w, empty_log)).
Proof.
  unfold fill_template_with_row, collect.
  destruct (existsb shape_type_raises _); [left | right]; split; reflexivity.
Qed.

(** A fill touches the template slide only, provided the shapes it
    processes are no objects of the snapshot or of an added slide. *)
Lemma fill_frame fs sufs w r :
  Forall (fun l => ~ In l (locs_l (frozen w)))
    (shapes_to_process (s_tree (w_tmpl w))) ->
  same_doc w (fst (fill_template_with_row fs sufs w r)).
Proof.
  intro H. destruct (fill_cases fs sufs w r) as [[_ ->]|[_ ->]].
  - apply same_doc_refl.
  - apply fill_shapes_frame, H.
Qed.

End FrameFacts.

(** * Restoring the template *)

Module RestoreFacts.
Import Text Shapes Rels Remap World RemapFacts ElemFacts FrameFacts.

Lemma shapes_of_app a b : shapes_of (a ++ b) = shapes_of a ++ shapes_of b.
Proof. unfold shapes_of. apply filter_app. Qed.

Lemma shapes_of_none t :
  forallb (fun e => negb (is_shape e)) t = true -> shapes_of t = [].
Proof.
  induction t as [|x t IH]; simpl; [reflexivity|].
  intro H. apply andb_true_iff in H as [Hx Ht].
  apply negb_true_iff in Hx. rewrite Hx. apply IH, Ht.
Qed.

Lemma insert_shapes el tree :
  tail_clean tree = true ->
  shapes_of (insert_element_before_extLst el tree)
  = shapes_of tree ++ shapes_of [el] /\
  tail_clean (insert_element_before_extLst el tree) = true.
Proof.
  induction tree as [|x t IH]; intro H.
  - simpl. split; [destruct (is_shape el); reflexivity|].
    destruct (e_tag el); reflexivity.
  - cbn [insert_element_before_extLst tail_clean] in *.
    destruct (e_tag x) eqn:Ex;
      try (destruct (IH H) as [I1 I2];
           split; [|cbn [tail_clean]; rewrite Ex; exact I2];
           change (x :: insert_element_before_extLst el t)
             with ([x] ++ insert_element_before_extLst el t);
           change (x :: t) with ([x] ++ t);
           rewrite !shapes_of_app, I1, app_assoc; reflexivity).
    split.
    + change (el :: x :: t) with ([el] ++ x :: t).
      rewrite shapes_of_app.
      assert (E : shapes_of (x :: t) = []).
      { apply shapes_of_none. simpl. unfold is_shape at 1. rewrite Ex.
        exact H. }
      rewrite E, app_nil_r. reflexivity.
    + cbn [tail_clean]. rewrite Ex.
      destruct (e_tag el); try reflexivity; try exact H;
        simpl; unfold is_shape at 1; rewrite Ex; exact H.
Qed.

Lemma removed_shapes_clean tree :
  tail_clean (filter (fun e => negb (is_shape e)) tree) = true /\
  shapes_of (filter (fun e => negb (is_shape e)) tree) = [].
Proof.
  assert (H : forallb (fun e => negb (is_shape e))
                (filter (fun e => negb (is_shape e)) tree) = true).
  { apply forallb_forall. intros x Hx. apply filter_In in Hx. tauto. }
  split; [|apply shapes_of_none, H].
  revert H. generalize (filter (fun e => negb (is_shape e)) tree) as t.
  induction t as [|x t IH]; simpl; [reflexivity|]. intro H.
  apply andb_true_iff in H as [Hx Ht].
  destruct (e_tag x); auto.
Qed.

Lemma shapes_of_all l :
  forallb is_shape l = true -> shapes_of l = l.
Proof.
  induction l as [|x t IH]; simpl; [reflexivity|]. intro H.
  apply andb_true_iff in H as [Hx Ht]. rewrite Hx, IH by exact Ht.
  reflexivity.
Qed.

Lemma same_tags_shapes a b :
  map e_tag a = map e_tag b ->
  forallb is_shape b = true -> forallb is_shape a = true.
Proof.
  revert b; induction a as [|x a IH]; intros [|y b]; simpl;
    try discriminate; [reflexivity|].
  intros H Hb. injection H as Hxy Hab.
  apply andb_true_iff in Hb as [Hy Hb].
  unfold is_shape in *. rewrite Hxy, Hy. simpl. eapply IH; eassumption.
Qed.

Lemma restore_fold snap :
  forall n tree n' tree',
    forallb is_shape snap = true ->
    tail_clean tree = true ->
    fold_left restore_one snap (n, tree) = (n', tree') ->
    (n <= n')%N /\ tail_clean tree' = true /\
    exists copies,
      shapes_of tree' = shapes_of tree ++ copies /\
      map content copies = map content snap /\
      Forall (fun x => (n <= x < n')%N) (locs_l copies).
Proof.
  induction snap as [|o snap IH]; intros n tree n' tree' Hs Hc H.
  - injection H as <- <-. split; [lia|]. split; [exact Hc|].
    exists []. rewrite app_nil_r. repeat split. constructor.
  - cbn [fold_left restore_one] in H.
    simpl in Hs. apply andb_true_iff in Hs as [Ho Hs].
    destruct (deepcopy n o) as [n1 c] eqn:Ec.
    destruct (deepcopy_spec _ _ _ _ Ec) as (L1 & C1 & T1 & F1).
    destruct (insert_shapes c tree Hc) as [S1 K1].
    destruct (IH _ _ _ _ Hs K1 H) as (L2 & K2 & copies & S2 & C2 & F2).
    split; [lia|]. split; [exact K2|].
    exists (c :: copies).
    assert (Hcs : shapes_of [c] = [c]).
    { apply shapes_of_all. simpl. unfold is_shape in *. rewrite T1, Ho.
      reflexivity. }
    split; [rewrite S2, S1, Hcs, <- app_assoc; reflexivity|].
    split; [simpl; congruence|].
    rewrite locs_l_cons. apply Forall_app. split.
    + eapply Forall_impl; [|exact F1]. intros x Hx. simpl in Hx. lia.
    + eapply Forall_impl; [|exact F2]. intros x Hx. simpl in Hx. lia.
Qed.

(** [restore_template_shapes] reads the list and writes the template: the
    shapes of the slide become fresh copies of the entries, in order. *)
Lemma restore_spec w snap :
  forallb is_shape snap = true ->
  same_doc w (restore_template_shapes w snap) /\
  s_rels (w_tmpl (restore_template_shapes w snap)) = s_rels (w_tmpl w) /\
  map content (shapes_of (s_tree (w_tmpl (restore_template_shapes w snap))))
  = map content snap /\
  Forall (fun x => (w_next w <= x < w_next (restore_template_shapes w snap))%N)
    (locs_l (shapes_of (s_tree (w_tmpl (restore_template_shapes w snap))))).
Proof.
  intro Hs. unfold restore_template_shapes.
  destruct (removed_shapes_clean (s_tree (w_tmpl w))) as [Hc He].
  destruct (fold_left restore_one snap _) as [n' tree'] eqn:E.
  destruct (restore_fold _ _ _ _ _ Hs Hc E) as (L & _ & copies & S & C & F).
  rewrite He in S. simpl in S.
  split; [apply with_tmpl_same_doc, L|]. split; [reflexivity|].
  cbn [with_tmpl w_tmpl set_tree s_tree w_next]. rewrite S.
  split; assumption.
Qed.

End RestoreFacts.

(** * Cloning the template *)

Module CloneFacts.
Import Text Shapes Rels Remap World RelsFacts RemapFacts ElemFacts FrameFacts.

Lemma remap_locs src e : forall d, locs (snd (remap src d e)) = locs e.
Proof.
  induction e as [l t a kids IH] using elem_ind'. intro d.
  cbn [remap].
  destruct (remap_attr src d (a_embed a)) as [d1 em].
  destruct (remap_attr src d1 (a_id a)) as [d2 id'].
  destruct (thread (remap src) d2 kids) as [d3 kids'] eqn:E.
  cbn [snd locs]. f_equal.
  clear -IH E. revert d2 d3 kids' E.
  induction kids as [|k ks IHks]; intros d2 d3 kids' E.
  - injection E as <- <-. reflexivity.
  - rewrite thread_cons in E.
    destruct (remap src d2 k) as [da k'] eqn:Ek.
    destruct (thread (remap src) da ks) as [db ks'] eqn:Es.
    injection E as <- <-.
    inversion IH as [|? ? Hk Hks]; subst.
    simpl. rewrite (IHks Hks _ _ _ Es).
    specialize (Hk d2). rewrite Ek in Hk. simpl in Hk. rewrite Hk.
    reflexivity.
Qed.

Lemma thread_remap_locs src ks :
  forall d, locs_l (snd (thread (remap src) d ks)) = locs_l ks.
Proof.
  induction ks as [|k ks IH]; intro d; [reflexivity|].
  rewrite thread_cons.
  pose proof (remap_locs src k d) as Hk.
  destruct (remap src d k) as [da k'].
  specialize (IH da).
  destruct (thread (remap src) da ks) as [db ks'].
  cbn [snd] in *. rewrite !locs_l_cons, Hk, IH. reflexivity.
Qed.

Lemma clone_fold_next src shapes :
  forall n r t n' r' t',
    fold_left (clone_shape src) shapes (n, r, t) = (n', r', t') ->
    (n <= n')%N.
Proof.
  induction shapes as [|s ss IH]; intros n r t n' r' t' H.
  - injection H as <- _ _. lia.
  - cbn [fold_left clone_shape] in H.
    destruct (deepcopy n s) as [n1 c] eqn:Ec.
    destruct (remap src r c) as [r1 c'].
    apply IH in H. destruct (deepcopy_spec _ _ _ _ Ec) as (L & _). lia.
Qed.

Lemma no_match_for_new_slide d n :
  forallb (slide_number_below n) d = true ->
  get_matching d (slide_rel n) = None.
Proof.
  unfold get_matching. induction d as [|[k x] t IH]; simpl; [reflexivity|].
  intro H. apply andb_true_iff in H as [Hx Ht].
  destruct (rel_eqb x (slide_rel n)) eqn:E.
  - apply rel_eqb_eq in E. subst x. unfold slide_number_below in Hx.
    simpl in Hx. apply N.ltb_lt in Hx. lia.
  - apply IH, Ht.
Qed.

(** The effect of [duplicate_slide]: one slide part more, related from the
    presentation under a new id, last in the slide list; its objects are
    new; the template and the snapshot are as before. *)
Lemma duplicate_spec w :
  forallb (slide_number_below (w_next w)) (w_prs_rels w) = true ->
  w_tmpl (duplicate_slide w) = w_tmpl w /\
  w_snapshot (duplicate_slide w) = w_snapshot w /\
  w_other_refs (duplicate_slide w) = w_other_refs w /\
  w_layout_phs (duplicate_slide w) = w_layout_phs w /\
  w_saved (duplicate_slide w) = w_saved w /\
  (w_next w < w_next (duplicate_slide w))%N /\
  exists dst,
    w_new (duplicate_slide w) = w_new w ++ [(PSlide (w_next w), dst)] /\
    w_sldIdLst (duplicate_slide w)
    = w_sldIdLst w ++ [next_rId (w_prs_rels w)] /\
    w_prs_rels (duplicate_slide w)
    = w_prs_rels w ++ [(next_rId (w_prs_rels w), slide_rel (w_next w))] /\
    Forall (fun x => (x < w_next (duplicate_slide w))%N)
      (locs_l (slide_forest dst)).
Proof.
  intro Hp. unfold duplicate_slide.
  assert (R : relate_to (w_prs_rels w) (Internal (PSlide (w_next w)))
                slide_reltype
              = (w_prs_rels w
                   ++ [(next_rId (w_prs_rels w), slide_rel (w_next w))],
                 next_rId (w_prs_rels w))).
  { unfold relate_to.
    change {| rel_type := slide_reltype;
              rel_target := Internal (PSlide (w_next w)) |}
      with (slide_rel (w_next w)).
    rewrite (no_match_for_new_slide _ _ Hp). reflexivity. }
  rewrite R.
  destruct (deepcopy_l (N.succ (w_next w)) new_slide_tree) as [n1 base] eqn:E1.
  destruct (deepcopy_l n1 (w_layout_phs w)) as [n2 phs] eqn:E2.
  destruct (fold_left _ _ _) as [[n3 rels1] tr] eqn:E3.
  destruct (deepcopy_l n3 _) as [n4 csld] eqn:E4.
  pose proof (thread_remap_locs (s_rels (w_tmpl w)) csld rels1) as Hl.
  destruct (thread _ rels1 csld) as [rels2 csld'] eqn:E5.
  cbn [snd] in Hl.
  destruct (deepcopy_l_spec _ _ _ _ E1) as (L1 & _).
  destruct (deepcopy_l_spec _ _ _ _ E2) as (L2 & _).
  apply clone_fold_next in E3.
  destruct (deepcopy_l_spec _ _ _ _ E4) as (L4 & _ & _ & F4).
  cbn [w_tmpl w_snapshot w_other_refs w_layout_phs w_saved w_next w_new
       w_sldIdLst w_prs_rels].
  repeat (split; [reflexivity || lia|]).
  eexists. repeat (split; [reflexivity|]).
  unfold slide_forest. cbn [s_bg s_tree]. rewrite firstn_skipn, Hl.
  eapply Forall_impl; [|exact F4]. intros x Hx. simpl in Hx. lia.
Qed.

End CloneFacts.

(** * The loop over the rows *)

Module LoopFacts.
Import Text Shapes Rels Remap World.
Import RelsFacts RemapFacts ElemFacts FrameFacts RestoreFacts CloneFacts.

Lemma e_loc_in_locs e : In (e_loc e) (locs e).
Proof. destruct e; left; reflexivity. Qed.

Lemma shapes_to_process_locs tree :
  incl (shapes_to_process tree) (locs_l (shapes_of tree)).
Proof.
  unfold shapes_to_process, candidates.
  induction (shapes_of tree) as [|s t IH]; [intros x []|].
  simpl. rewrite map_app. apply incl_app.
  - intros x Hx. apply in_or_app. left.
    destruct (is_group s).
    + apply in_map_iff in Hx as [c [<- Hc]].
      apply filter_In in Hc as [Hc _].
      destruct s as [l tg a kids]. right. apply in_flat_map.
      exists c. split; [exact Hc | apply e_loc_in_locs].
    + destruct Hx as [<-|[]]. apply e_loc_in_locs.
  - intros x Hx. apply in_or_app. right. apply IH, Hx.
Qed.

Lemma frozen_added w w' dst p :
  w_snapshot w' = w_snapshot w -> w_new w' = w_new w ++ [(p, dst)] ->
  locs_l (frozen w') = locs_l (frozen w) ++ locs_l (slide_forest dst).
Proof.
  intros Hs Hn. unfold frozen. rewrite Hs, Hn, flat_map_app.
  rewrite !locs_l_app. simpl. rewrite app_nil_r, app_assoc. reflexivity.
Qed.

Lemma slide_number_below_mono n m d :
  (n <= m)%N -> forallb (slide_number_below n) d = true ->
  forallb (slide_number_below m) d = true.
Proof.
  intros Hnm H. rewrite forallb_forall in *. intros x Hx.
  specialize (H x Hx). unfold slide_number_below in *.
  destruct (rel_target (snd x)) as [[k| |]|]; try reflexivity.
  apply N.ltb_lt in H. apply N.ltb_lt. lia.
Qed.

Lemma rels_ok_added d x :
  rels_ok d = true -> rels_ok (d ++ [(next_rId d, x)]) = true.
Proof.
  unfold rels_ok. intro H. apply nodupb_NoDup in H. apply nodupb_NoDup.
  unfold keys. rewrite map_app. simpl.
  apply NoDup_app; [exact H | repeat constructor; simpl; tauto|].
  intros a Ha [<-|[]]. apply (next_rId_fresh d), Ha.
Qed.

(** One cycle of fill, clone and restore keeps the invariant, adds one
    slide at the end of the document, and changes no file. *)
Lemma process_row_spec fs snap w r :
  loop_invariant snap w ->
  loop_invariant snap (process_row fs w r) /\
  w_new (process_row fs w r)
  = w_new w
      ++ added_slide
           (duplicate_slide
              (fst (fill_template_with_row fs IMAGE_EXTENSIONS w r))) /\
  length (added_slide
            (duplicate_slide
               (fst (fill_template_with_row fs IMAGE_EXTENSIONS w r)))) = 1 /\
  w_sldIdLst (process_row fs w r)
  = w_sldIdLst w ++ [next_rId (w_prs_rels w)] /\
  w_prs_rels (process_row fs w r)
  = w_prs_rels w
      ++ combine [next_rId (w_prs_rels w)]
           (map rel_of_slide
              (added_slide
                 (duplicate_slide
                    (fst (fill_template_with_row fs IMAGE_EXTENSIONS w r))))) /\
  w_other_refs (process_row fs w r) = w_other_refs w /\
  w_saved (process_row fs w r) = w_saved w.
Proof.
  intros (I1 & I2 & I3 & I4 & I5 & I6 & I7).
  unfold process_row.
  assert (F : same_doc w (fst (fill_template_with_row fs IMAGE_EXTENSIONS w r))).
  { apply fill_frame. rewrite Forall_forall in *. intros l Hl.
    apply I5, shapes_to_process_locs, Hl. }
  set (w1 := fst (fill_template_with_row fs IMAGE_EXTENSIONS w r)) in *.
  pose proof (same_doc_frozen _ _ F) as Fz.
  destruct F as (F1 & F2 & F3 & F4 & F5 & F6 & F7 & F8).
  assert (P1 : forallb (slide_number_below (w_next w1)) (w_prs_rels w1) = true).
  { rewrite F4. eapply slide_number_below_mono; eassumption. }
  destruct (duplicate_spec w1 P1)
    as (D1 & D2 & D3 & D4 & D5 & D6 & dst & D7 & D8 & D9 & D10).
  set (w2 := duplicate_slide w1) in *.
  assert (Hsnap : w_snapshot w2 = snap) by congruence.
  rewrite Hsnap.
  destruct (restore_spec w2 snap I2) as (R & R1 & R2 & R3).
  set (w3 := restore_template_shapes w2 snap) in *.
  pose proof (same_doc_frozen _ _ R) as Rz.
  destruct R as (S1 & S2 & S3 & S4 & S5 & S6 & S7 & S8).
  assert (Fz2 : locs_l (frozen w3)
                = locs_l (frozen w) ++ locs_l (slide_forest dst)).
  { rewrite Rz, (frozen_added w1 w2 dst _ D2 D7), Fz. reflexivity. }
  assert (Hadd : added_slide w2 = [(PSlide (w_next w1), dst)]).
  { unfold added_slide. rewrite D7, rev_app_distr. reflexivity. }
  split.
  { unfold loop_invariant. split; [congruence|]. split; [exact I2|].
    split; [exact R2|]. split.
    { rewrite Fz2. apply Forall_app. split.
      - eapply Forall_impl; [|exact I4]. intros x Hx. simpl in Hx. lia.
      - eapply Forall_impl; [|exact D10]. intros x Hx. simpl in Hx. lia. }
    split.
    { rewrite Fz2. eapply Forall_impl; [|exact R3].
      intros x Hx Hin. simpl in Hx. apply in_app_or in Hin as [Hin|Hin].
      - rewrite Forall_forall in I4. specialize (I4 x Hin). simpl in I4. lia.
      - rewrite Forall_forall in D10. specialize (D10 x Hin).
        simpl in D10. lia. }
    split.
    { rewrite S4, D9, F4. apply rels_ok_added, I6. }
    rewrite S4, D9, F4, forallb_app. apply andb_true_iff. split.
    - eapply slide_number_below_mono; [|exact I7]. lia.
    - simpl. rewrite andb_true_r. unfold slide_number_below. simpl.
      apply N.ltb_lt. lia. }
  split; [rewrite S2, D7, F2, Hadd; reflexivity|].
  split; [rewrite Hadd; reflexivity|].
  split; [rewrite S3, D8, F3, F4; reflexivity|].
  split; [rewrite Hadd, S4, D9, F4; reflexivity|].
  split; congruence.
Qed.

End LoopFacts.

(** * The replication driver *)

Module DriverFacts.
Import Text Shapes Rels Remap World Samples.
Import RelsFacts RemapFacts ElemFacts FrameFacts RestoreFacts CloneFacts
       LoopFacts.

Lemma combine_app (A B : Type) (a1 a2 : list A) (b1 b2 : list B) :
  length a1 = length b1 ->
  combine (a1 ++ a2) (b1 ++ b2) = combine a1 b1 ++ combine a2 b2.
Proof.
  revert b1; induction a1 as [|x a1 IH]; intros [|y b1] H;
    try discriminate; [reflexivity|].
  simpl. rewrite IH by (simpl in H; lia). reflexivity.
Qed.

(** Any number of cycles: the invariant holds after each, the added slides
    are the clones of the rows in row order, and each is listed and related
    under its own new id. *)
Lemma loop_spec fs snap rows :
  forall w,
    loop_invariant snap w ->
    loop_invariant snap (fold_left (process_row fs) rows w) /\
    w_new (fold_left (process_row fs) rows w) = w_new w ++ generated fs w rows /\
    length (generated fs w rows) = length rows /\
    w_sldIdLst (fold_left (process_row fs) rows w)
    = w_sldIdLst w ++ generated_ids fs w rows /\
    length (generated_ids fs w rows) = length rows /\
    w_prs_rels (fold_left (process_row fs) rows w)
    = w_prs_rels w
        ++ combine (generated_ids fs w rows)
             (map rel_of_slide (generated fs w rows)) /\
    Forall (fun k => ~ In k (keys (w_prs_rels w))) (generated_ids fs w rows) /\
    w_other_refs (fold_left (process_row fs) rows w) = w_other_refs w /\
    w_saved (fold_left (process_row fs) rows w) = w_saved w.
Proof.
  induction rows as [|r rs IH]; intros w Hinv.
  - simpl. rewrite !app_nil_r. split; [exact Hinv|].
    repeat split; constructor.
  - destruct (process_row_spec fs snap w r Hinv)
      as (J & N1 & N2 & N3 & N4 & N5 & N6).
    destruct (IH _ J) as (K & M1 & M2 & M3 & M4 & M5 & M6 & M7 & M8).
    cbn [fold_left generated generated_ids].
    set (a := added_slide _) in *.
    split; [exact K|].
    split; [rewrite M1, N1, app_assoc; reflexivity|].
    split; [rewrite length_app, M2, N2; reflexivity|].
    split; [rewrite M3, N3, <- app_assoc; reflexivity|].
    split; [simpl; rewrite M4; reflexivity|].
    split.
    { rewrite M5, N4, <- app_assoc. f_equal.
      rewrite map_app.
      change (next_rId (w_prs_rels w) :: generated_ids fs (process_row fs w r) rs)
        with ([next_rId (w_prs_rels w)]
                ++ generated_ids fs (process_row fs w r) rs).
      rewrite combine_app; [reflexivity|].
      rewrite length_map, N2. reflexivity. }
    split.
    { constructor; [apply next_rId_fresh|].
      eapply Forall_impl; [|exact M6]. intros k Hk Hin. apply Hk.
      rewrite N4. unfold keys. rewrite map_app. apply in_or_app. left.
      exact Hin. }
    split; congruence.
Qed.

Lemma locs_l_filter p tree : incl (locs_l (filter p tree)) (locs_l tree).
Proof.
  induction tree as [|x t IH]; [intros y []|].
  cbn [filter]. rewrite locs_l_cons. destruct (p x).
  - rewrite locs_l_cons. apply incl_app;
      [apply incl_appl, incl_refl | apply incl_appr, IH].
  - apply incl_appr, IH.
Qed.

(** The snapshot of a loaded presentation starts the loop. *)
Lemma backup_spec w :
  loaded w = true ->
  loop_invariant (w_snapshot (backup_template_shapes w))
    (backup_template_shapes w) /\
  map content (w_snapshot (backup_template_shapes w))
  = map content (shapes_of (s_tree (w_tmpl w))) /\
  w_tmpl (backup_template_shapes w) = w_tmpl w /\
  w_new (backup_template_shapes w) = [] /\
  w_sldIdLst (backup_template_shapes w) = w_sldIdLst w /\
  w_prs_rels (backup_template_shapes w) = w_prs_rels w /\
  w_other_refs (backup_template_shapes w) = w_other_refs w /\
  w_saved (backup_template_shapes w) = w_saved w.
Proof.
  unfold loaded. intro H.
  apply andb_true_iff in H as [H H4]. apply andb_true_iff in H as [H H3].
  apply andb_true_iff in H as [H1 H2].
  assert (Hn : w_new w = []) by (destruct (w_new w); [reflexivity|discriminate]).
  unfold backup_template_shapes.
  destruct (deepcopy_l (w_next w) (shapes_of (s_tree (w_tmpl w))))
    as [n' copies] eqn:E.
  destruct (deepcopy_l_spec _ _ _ _ E) as (L & C & T & F).
  cbn [w_snapshot w_tmpl w_new w_sldIdLst w_prs_rels w_other_refs w_saved].
  split; [|repeat split; assumption].
  unfold loop_invariant, frozen.
  cbn [w_snapshot w_tmpl w_new w_prs_rels w_next].
  rewrite Hn. simpl flat_map. rewrite app_nil_r.
  split; [reflexivity|]. split.
  { eapply same_tags_shapes; [exact T|].
    apply forallb_forall. intros x Hx. apply filter_In in Hx. tauto. }
  split; [symmetry; exact C|]. split.
  { eapply Forall_impl; [|exact F]. intros x Hx. simpl in Hx. lia. }
  split.
  { apply Forall_forall. intros l Hl Hin.
    rewrite Forall_forall in F. specialize (F l Hin). simpl in F.
    rewrite forallb_forall in H1.
    assert (Hlt : (l <? w_next w)%N = true).
    { apply H1. unfold slide_forest. rewrite locs_l_app.
      apply in_or_app. right. eapply locs_l_filter, Hl. }
    apply N.ltb_lt in Hlt. lia. }
  split; [exact H3|].
  eapply slide_number_below_mono; eassumption.
Qed.

Lemma remove_key_app k a b :
  remove_key k (a ++ b) = remove_key k a ++ remove_key k b.
Proof.
  induction a as [|[k' x] t IH]; simpl; [reflexivity|].
  destruct (pystr_eqb k' k); simpl; rewrite IH; reflexivity.
Qed.

Lemma remove_key_notin k d : ~ In k (keys d) -> remove_key k d = d.
Proof.
  induction d as [|[k' x] t IH]; simpl; [reflexivity|]. intro H.
  destruct (pystr_eqb k' k) eqn:E.
  - apply pystr_eqb_eq in E. exfalso. apply H. left. exact E.
  - rewrite IH; [reflexivity|]. intro X. apply H. right. exact X.
Qed.

Lemma lookup_remove_key k d : lookup k (remove_key k d) = None.
Proof.
  induction d as [|[k' x] t IH]; simpl; [reflexivity|].
  destruct (pystr_eqb k' k) eqn:E; [exact IH|]. simpl. rewrite E. exact IH.
Qed.

Lemma keys_combine (ids : list pystr) (xs : list rel) :
  incl (keys (combine ids xs)) ids.
Proof.
  revert xs; induction ids as [|k ids IH]; intros [|x xs]; simpl;
    intros z Hz; try contradiction.
  destruct Hz as [<-|Hz]; [left; reflexivity | right; eapply IH, Hz].
Qed.

Lemma filter_absent k l :
  ~ In k l -> filter (pystr_eqb k) l = [].
Proof.
  induction l as [|x t IH]; simpl; [reflexivity|]. intro H.
  destruct (pystr_eqb k x) eqn:E.
  - apply pystr_eqb_eq in E. exfalso. apply H. left. congruence.
  - apply IH. intro X. apply H. right. exact X.
Qed.

Lemma existsb_absent k l :
  filter (pystr_eqb k) l = [] -> existsb (pystr_eqb k) l = false.
Proof.
  induction l as [|x t IH]; simpl; [reflexivity|].
  destruct (pystr_eqb k x); [discriminate | exact IH].
Qed.

(** C2, as the code has it. A run over a table of [N >= 1] rows, on a
    loaded document whose first slide id is related and referred to once,
    returns and saves; it adds [N] slides, the clone of the filled template
    for each row, in row order; the slide list becomes the other slides of
    the original document followed by the added ones, and the relationships
    of the presentation lose that of the template slide and gain those of
    the added slides, in the same order. *)
Theorem build_generates_slides
  (fs : filesystem) (w : world) (df : dataframe) (out_path rId : pystr)
  (rest : list pystr) :
  loaded w = true ->
  df_empty df = false ->
  w_sldIdLst w = rId :: rest ->
  mem rId (w_prs_rels w) = true ->
  (rel_ref_count w rId <? 2) = true ->
  build_contract fs w df out_path rId rest.
Proof.
  intros Hl He Hs Hm Hc.
  destruct (backup_spec w Hl) as (J & _ & _ & B1 & B2 & B3 & B4 & B5).
  destruct (loop_spec fs _ (iterrows df) _ J)
    as (_ & M1 & M2 & M3 & M4 & M5 & M6 & M7 & M8).
  unfold build_contract, build_ppt_from_excel.
  rewrite He, Hs, Hm.
  set (w1 := backup_template_shapes w) in *.
  set (w2 := fold_left (process_row fs) (iterrows df) w1) in *.
  set (ids := generated_ids fs w1 (iterrows df)) in *.
  set (gen := generated fs w1 (iterrows df)) in *.
  rewrite B1 in M1. simpl in M1. rewrite B2, Hs in M3. rewrite B3 in M5, M6.
  assert (Hin : In rId (keys (w_prs_rels w))) by (apply mem_In, Hm).
  assert (Hids : ~ In rId ids).
  { intro X. rewrite Forall_forall in M6. exact (M6 _ X Hin). }
  assert (Hnew : ~ In rId (keys (combine ids (map rel_of_slide gen)))).
  { intro X. apply Hids. eapply keys_combine, X. }
  assert (Hrest : filter (pystr_eqb rId) rest = []).
  { apply Nat.ltb_lt in Hc. unfold rel_ref_count in Hc. rewrite Hs in Hc.
    simpl in Hc. rewrite pystr_eqb_refl in Hc. rewrite filter_app in Hc.
    simpl in Hc. rewrite length_app in Hc.
    destruct (filter (pystr_eqb rId) rest); [reflexivity | simpl in Hc; lia]. }
  assert (Hc2 : (rel_ref_count w2 rId <? 2) = true).
  { unfold rel_ref_count in *. rewrite M3, M7, B4.
    rewrite Hs in Hc. rewrite <- app_assoc, !filter_app in *.
    rewrite (filter_absent _ _ Hids). exact Hc. }
  assert (Hm2 : mem rId (w_prs_rels w2) = true).
  { apply mem_In. rewrite M5. unfold keys. rewrite map_app.
    apply in_or_app. left. exact Hin. }
  unfold remove_template_slide. rewrite M3. cbn [app].
  rewrite Hc2, Hm2.
  cbn [fst snd save w_new w_sldIdLst w_prs_rels w_saved].
  rewrite M5, remove_key_app, (remove_key_notin _ _ Hnew).
  split; [reflexivity|]. split; [exact M1|].
  split; [rewrite M1, M2; unfold iterrows; apply length_map|].
  split; [reflexivity|].
  split; [rewrite M4; unfold iterrows; apply length_map|].
  split; [reflexivity|]. split.
  { rewrite lookup_app, lookup_remove_key. apply lookup_None, Hnew. }
  split.
  { apply existsb_absent. rewrite filter_app, Hrest.
    apply filter_absent, Hids. }
  rewrite M8, B5. reflexivity.
Qed.

Lemma build_generates_slides_witness :
  loaded sample_world = true /\
  df_empty sample_df = false /\
  w_sldIdLst sample_world = of_string "rId7" :: [of_string "rId8"] /\
  mem (of_string "rId7") (w_prs_rels sample_world) = true /\
  (rel_ref_count sample_world (of_string "rId7") <? 2) = true /\
  build_contract sample_fs sample_world sample_df (of_string "out.pptx")
    (of_string "rId7") [of_string "rId8"].
Proof.
  repeat (split; [reflexivity|]).
  apply (build_generates_slides sample_fs sample_world sample_df
           (of_string "out.pptx") (of_string "rId7") [of_string "rId8"]);
    reflexivity.
Defined.

(** The property as the specification states it, a document left with the
    generated slides only, fails on a template document of two slides: the
    second slide stays in front of the two generated ones. *)
Lemma build_keeps_other_slides :
  ~ (forall fs w df out_path,
        loaded w = true -> df_empty df = false ->
        only_generated_slides fs w df out_path).
Proof.
  intro H.
  specialize (H sample_fs sample_world sample_df (of_string "out.pptx")
                eq_refl eq_refl).
  vm_compute in H. discriminate H.
Qed.

Example build_sample_slide_list :
  w_sldIdLst
    (snd (build_ppt_from_excel sample_fs sample_world sample_df
            (of_string "out.pptx")))
  = [of_string "rId8"; of_string "rId4"; of_string "rId5"].
Proof. vm_compute. reflexivity. Qed.

(** The run of the specification's scenario, on a template document of one
    slide: two slides, the template absent; the first shows the first row
    and a picture in the place of the logo label, the second shows the
    second row, the text "nan" for its empty cell, and keeps the logo label
    whose path names no file. *)
Example build_sample_single :
  let w' := snd (build_ppt_from_excel sample_fs sample_world1 sample_df
                   (of_string "out.pptx")) in
  w_sldIdLst w' = [of_string "rId3"; of_string "rId4"] /\
  map (fun ps => map get_text_content (filter has_text_frame (s_tree (snd ps))))
    (w_new w')
  = [ [of_string "Hong"; of_string "123"];
      [of_string "Kim"; of_string "nan"; of_string "Logo_IMG"] ] /\
  map (fun ps => length (filter (fun e => match e_tag e with
                                          | TPic => true
                                          | _ => false
                                          end) (s_tree (snd ps))))
    (w_new w')
  = [2; 1].
Proof. vm_compute. repeat split; reflexivity. Qed.

(** C7. A table without rows: the run raises [RuntimeError] and the
    document is as it was loaded; no slide is added, the template is not
    touched, no file is written. *)
Theorem build_empty_source
  (fs : filesystem) (w : world) (df : dataframe) (out_path : pystr) :
  df_rows df = [] ->
  build_ppt_from_excel fs w df out_path
  = (Raised (of_string "RuntimeError"), w).
Proof.
  intro H. unfold build_ppt_from_excel, df_empty. rewrite H.
  destruct (df_columns df); reflexivity.
Qed.

Lemma build_empty_source_witness :
  df_rows empty_df = [] /\
  build_ppt_from_excel sample_fs sample_world empty_df (of_string "out.pptx")
  = (Raised (of_string "RuntimeError"), sample_world).
Proof.
  split; [reflexivity|].
  apply (build_empty_source sample_fs sample_world empty_df
           (of_string "out.pptx")).
  reflexivity.
Defined.

End DriverFacts.

(** * One level of groups *)

Module GroupFacts.
Import Text Shapes Rels Remap World Samples.
Import RelsFacts RemapFacts ElemFacts FrameFacts RestoreFacts LoopFacts.

Lemma edit_eq l f e : e_loc e = l -> edit l f e = f e.
Proof.
  destruct e as [l' t a kids]. simpl. intros ->.
  rewrite N.eqb_refl. reflexivity.
Qed.

Lemma edit_neq l f e :
  e_loc e <> l ->
  edit l f e
  = [Elem (e_loc e) (e_tag e) (e_attrs e) (flat_map (edit l f) (e_kids e))].
Proof.
  destruct e as [l' t a kids]. simpl. intro H.
  destruct (N.eqb_spec l' l); [contradiction | reflexivity].
Qed.

Lemma is_group_shape e : is_group e = true -> is_shape e = true.
Proof. unfold is_group, is_shape. destruct (e_tag e); auto; discriminate. Qed.

Lemma candidates_cons x t :
  candidates (x :: t)
  = (if is_shape x
     then (if is_group x then shapes_of (e_kids x) else [x])
     else [])
    ++ candidates t.
Proof.
  unfold candidates. simpl. destruct (is_shape x); reflexivity.
Qed.

Lemma candidates_app a b : candidates (a ++ b) = candidates a ++ candidates b.
Proof.
  unfold candidates. rewrite shapes_of_app, flat_map_app. reflexivity.
Qed.

Lemma nested_groups_cons x t :
  nested_groups (x :: t)
  = (if is_group x then filter is_group (e_kids x) else []) ++ nested_groups t.
Proof. unfold nested_groups. simpl. destruct (is_group x); reflexivity. Qed.

Lemma nested_groups_app a b :
  nested_groups (a ++ b) = nested_groups a ++ nested_groups b.
Proof. unfold nested_groups. rewrite filter_app, flat_map_app. reflexivity. Qed.

Lemma top_group_locs_cons x t :
  top_group_locs (x :: t)
  = (if is_group x then [e_loc x] else []) ++ top_group_locs t.
Proof. unfold top_group_locs. simpl. destruct (is_group x); reflexivity. Qed.

Lemma top_group_locs_app a b :
  top_group_locs (a ++ b) = top_group_locs a ++ top_group_locs b.
Proof. unfold top_group_locs. rewrite filter_app, map_app. reflexivity. Qed.

(** Elements that are no groups: nothing for the groups, themselves as
    candidates. *)
Lemma no_groups l :
  Forall (fun x => is_group x = false) l ->
  filter is_group l = [] /\ candidates l = shapes_of l.
Proof.
  induction 1 as [|x t Hx _ [IH1 IH2]]; [split; reflexivity|].
  split.
  - simpl. rewrite Hx. exact IH1.
  - rewrite candidates_cons, Hx, IH2. unfold shapes_of. simpl.
    destruct (is_shape x); reflexivity.
Qed.

Section Edit.
Variables (P : list loc) (l : loc) (f : elem -> list elem).
Hypothesis Hl : ~ In l P.
Hypothesis Hf : harmless P l f.

Let ok (e : elem) : Prop := is_group e = false -> ~ In (e_loc e) P.

Lemma replaced_ok e :
  e_loc e = l -> is_group e = false ->
  filter is_group (f e) = [] /\ Forall ok (shapes_of (f e)) /\
  candidates (f e) = shapes_of (f e).
Proof.
  intros He Hg. specialize (Hf e He Hg).
  assert (Hng : Forall (fun x => is_group x = false) (f e))
    by (eapply Forall_impl; [|exact Hf]; intros x [Hx _]; exact Hx).
  destruct (no_groups _ Hng) as [N1 N2].
  split; [exact N1|]. split; [|exact N2].
  apply Forall_forall. intros x Hx. apply filter_In in Hx as [Hx _].
  rewrite Forall_forall in Hf. intros _. apply (Hf x Hx).
Qed.

(** The children of a top-level group. *)
Lemma edit_kids ks :
  (forall k, In k ks -> is_group k = true -> incl (locs k) P) ->
  Forall ok (shapes_of ks) ->
  filter is_group (flat_map (edit l f) ks) = filter is_group ks /\
  Forall ok (shapes_of (flat_map (edit l f) ks)).
Proof.
  induction ks as [|k ks IH]; intros Hk Hs; [split; [reflexivity|constructor]|].
  assert (Hk' : forall k0, In k0 ks -> is_group k0 = true -> incl (locs k0) P)
    by (intros k0 H0; apply Hk; right; exact H0).
  assert (Hs' : Forall ok (shapes_of ks)).
  { unfold shapes_of in *. simpl in Hs. destruct (is_shape k); [|exact Hs].
    inversion Hs; assumption. }
  destruct (IH Hk' Hs') as [I1 I2].
  cbn [flat_map]. rewrite filter_app, shapes_of_app, I1.
  destruct (N.eq_dec (e_loc k) l) as [E|E].
  - assert (Hg : is_group k = false).
    { destruct (is_group k) eqn:G; [|reflexivity]. exfalso. apply Hl.
      apply (Hk k (or_introl eq_refl) G). rewrite <- E. apply e_loc_in_locs. }
    rewrite (edit_eq _ _ _ E).
    destruct (replaced_ok k E Hg) as (R1 & R2 & _).
    rewrite R1. simpl. rewrite Hg. split; [reflexivity|].
    apply Forall_app. split; assumption.
  - rewrite (edit_neq _ _ _ E).
    destruct (is_group k) eqn:G.
    + assert (Hn : ~ In l (locs k)).
      { intro X. apply Hl. apply (Hk k (or_introl eq_refl) G), X. }
      pose proof (edit_notin l f k Hn) as Hid.
      rewrite (edit_neq _ _ _ E) in Hid. rewrite Hid.
      simpl. rewrite G. split; [reflexivity|].
      unfold shapes_of in *. simpl. simpl in Hs.
      destruct (is_shape k); [|exact I2].
      inversion Hs; subst. constructor; assumption.
    + simpl. unfold is_group at 1. simpl. fold (is_group k). rewrite G.
      split; [reflexivity|].
      unfold shapes_of in *. simpl. simpl in Hs.
      unfold is_shape at 1. simpl. fold (is_shape k).
      destruct (is_shape k); [|exact I2].
      inversion Hs as [|? ? Hk0 _]; subst. constructor; [|exact I2].
      unfold ok in *. simpl. intros _. apply Hk0, G.
Qed.

(** The shape tree. *)
Lemma edit_tree tree :
  (forall g, In g tree -> is_group g = true -> In (e_loc g) P) ->
  (forall g, In g tree -> is_group g = true ->
             forall k, In k (e_kids g) -> is_group k = true ->
                       incl (locs k) P) ->
  safe P tree ->
  top_group_locs (edit_l l f tree) = top_group_locs tree /\
  nested_groups (edit_l l f tree) = nested_groups tree /\
  safe P (edit_l l f tree).
Proof.
  unfold safe, edit_l.
  induction tree as [|x t IH]; intros Ht Hn Hs;
    [repeat split; constructor|].
  assert (Ht' : forall g, In g t -> is_group g = true -> In (e_loc g) P)
    by (intros g H0; apply Ht; right; exact H0).
  assert (Hn' : forall g, In g t -> is_group g = true ->
                          forall k, In k (e_kids g) -> is_group k = true ->
                                    incl (locs k) P)
    by (intros g H0; apply Hn; right; exact H0).
  rewrite candidates_cons in Hs. apply Forall_app in Hs as [Hx Hs'].
  destruct (IH Ht' Hn' Hs') as (I1 & I2 & I3).
  cbn [flat_map].
  rewrite top_group_locs_app, nested_groups_app, candidates_app, I1, I2.
  rewrite top_group_locs_cons, nested_groups_cons.
  destruct (N.eq_dec (e_loc x) l) as [E|E].
  - assert (Hg : is_group x = false).
    { destruct (is_group x) eqn:G; [|reflexivity]. exfalso. apply Hl.
      rewrite <- E. apply (Ht x (or_introl eq_refl) G). }
    rewrite (edit_eq _ _ _ E), Hg.
    destruct (replaced_ok x E Hg) as (R1 & R2 & R3).
    unfold top_group_locs, nested_groups. rewrite R1, R3. simpl.
    repeat split. apply Forall_app. split; assumption.
  - rewrite (edit_neq _ _ _ E).
    set (x' := Elem (e_loc x) (e_tag x) (e_attrs x)
                 (flat_map (edit l f) (e_kids x))).
    assert (G' : is_group x' = is_group x) by reflexivity.
    assert (S' : is_shape x' = is_shape x) by reflexivity.
    rewrite top_group_locs_cons, nested_groups_cons, candidates_cons.
    simpl top_group_locs. simpl nested_groups. simpl candidates.
    rewrite !app_nil_r, G', S'.
    destruct (is_group x) eqn:G.
    + rewrite (is_group_shape x G) in *.
      destruct (edit_kids (e_kids x)) as [K1 K2].
      { intros k Hk Gk. apply (Hn x (or_introl eq_refl) G k Hk Gk). }
      { exact Hx. }
      cbn [x' e_kids e_loc]. rewrite K1.
      repeat split. apply Forall_app. split; assumption.
    + repeat split. apply Forall_app. split; [|exact I3].
      destruct (is_shape x); [|constructor].
      inversion Hx as [|? ? Hx0 _]; subst. constructor; [|constructor].
      intros _. apply Hx0, G.
Qed.

End Edit.

(** ** Inserting a picture *)

Lemma insert_split el tree :
  exists pre post,
    tree = pre ++ post /\
    insert_element_before_extLst el tree = pre ++ el :: post.
Proof.
  induction tree as [|x t (pre & post & E1 & E2)].
  - exists [], []. split; reflexivity.
  - cbn [insert_element_before_extLst].
    destruct (e_tag x);
      try (exists (x :: pre), post; rewrite E2; split;
           [simpl; congruence | reflexivity]).
    exists [], (x :: t). split; reflexivity.
Qed.

Lemma insert_groups P el tree :
  is_group el = false -> ~ In (e_loc el) P ->
  top_group_locs (insert_element_before_extLst el tree) = top_group_locs tree /\
  nested_groups (insert_element_before_extLst el tree) = nested_groups tree /\
  (safe P tree -> safe P (insert_element_before_extLst el tree)).
Proof.
  intros Hg Hp. destruct (insert_split el tree) as (pre & post & -> & ->).
  change (el :: post) with ([el] ++ post).
  rewrite !top_group_locs_app, !nested_groups_app.
  unfold safe. rewrite !candidates_app.
  rewrite (top_group_locs_cons el []), (nested_groups_cons el []),
    (candidates_cons el []), Hg.
  repeat split. intro H. apply Forall_app in H as [H1 H2].
  apply Forall_app. split; [exact H1|]. apply Forall_app. split; [|exact H2].
  destruct (is_shape el); simpl; repeat constructor. intros _. exact Hp.
Qed.

(** ** The fill of one shape *)

Lemma locs_unfold e : locs e = e_loc e :: flat_map locs (e_kids e).
Proof. destruct e; reflexivity. Qed.

Lemma groups_kept_edit TG NG w l f :
  groups_kept TG NG w ->
  ~ In l (TG ++ locs_l NG) -> harmless (TG ++ locs_l NG) l f ->
  groups_kept TG NG (world_edit l f w).
Proof.
  intros (K1 & K2 & K3 & K4) Hl Hf.
  destruct (edit_tree (TG ++ locs_l NG) l f Hl Hf (s_tree (w_tmpl w)))
    as (E1 & E2 & E3).
  - intros g Hg Gg. apply in_or_app. left. rewrite <- K1.
    unfold top_group_locs. apply in_map, filter_In. split; assumption.
  - intros g Hg Gg k Hk Gk x Hx. apply in_or_app. right. rewrite <- K2.
    unfold locs_l. apply in_flat_map. exists k. split; [|exact Hx].
    unfold nested_groups. apply in_flat_map. exists g.
    split; apply filter_In; split; assumption.
  - exact K3.
  - unfold groups_kept. cbn [world_edit w_tmpl slide_edit s_tree w_next].
    repeat split; congruence || assumption.
Qed.

Lemma set_text_same e v e' :
  set_text_preserve_style e v = Some e' ->
  e_loc e' = e_loc e /\ is_group e' = is_group e.
Proof.
  destruct e as [l t a kids]. destruct t; simpl;
    try (intro H; injection H as <-; split; reflexivity).
  destruct (set_text_frame tf v); [|discriminate].
  intro H; injection H as <-. split; reflexivity.
Qed.

Lemma groups_kept_set_text TG NG w l v :
  groups_kept TG NG w -> ~ In l (TG ++ locs_l NG) ->
  groups_kept TG NG (set_text_at w l v).
Proof.
  intros K Hl. unfold set_text_at. apply groups_kept_edit; [exact K|exact Hl|].
  intros e He Hg.
  destruct (set_text_preserve_style e v) as [e'|] eqn:E.
  - destruct (set_text_same _ _ _ E) as [L G]. repeat constructor; congruence.
  - repeat constructor; congruence.
Qed.

Lemma groups_kept_with_tmpl TG NG w rels' tree' n :
  (w_next w <= n)%N ->
  top_group_locs tree' = TG -> nested_groups tree' = NG ->
  safe (TG ++ locs_l NG) tree' ->
  Forall (fun x => (x < w_next w)%N) (TG ++ locs_l NG) ->
  groups_kept TG NG
    (with_tmpl w (set_tree (set_rels (w_tmpl w) rels') tree') n).
Proof.
  intros Hn H1 H2 H3 H4. unfold groups_kept.
  cbn [with_tmpl w_tmpl set_tree s_tree w_next].
  repeat split; try assumption.
  eapply Forall_impl; [|exact H4]. intros x Hx. simpl in Hx. lia.
Qed.

Lemma set_tree_same s : set_tree s (s_tree s) = s.
Proof. destruct s; reflexivity. Qed.

Lemma groups_kept_fill_picture TG NG fs w e path :
  groups_kept TG NG w -> ~ In (e_loc e) (TG ++ locs_l NG) ->
  groups_kept TG NG (fill_picture fs w e path).
Proof.
  intros K Hl. pose proof K as (K1 & K2 & K3 & K4).
  assert (Hfresh : ~ In (w_next w) (TG ++ locs_l NG)).
  { intro X. rewrite Forall_forall in K4. specialize (K4 _ X). simpl in K4.
    lia. }
  unfold fill_picture.
  destruct (is_empty path); [exact K|].
  destruct (fs path) as [[blob|]|]; try exact K.
  destruct (relate_to _ _ _) as [rels' rId].
  destruct (a_ph (e_attrs e)).
  - apply groups_kept_edit; [|exact Hl | intros x _ _; constructor].
    destruct (insert_groups (TG ++ locs_l NG)
                (Elem (w_next w) TPic
                   (picture_attrs NotPlaceholder (a_geom (e_attrs e)) rId) [])
                (s_tree (w_tmpl w)) eq_refl Hfresh) as (I1 & I2 & I3).
    apply groups_kept_with_tmpl; try congruence; [lia | apply I3, K3].
  - apply groups_kept_edit; [|exact Hl|].
    + rewrite <- (set_tree_same (set_rels (w_tmpl w) rels')).
      apply groups_kept_with_tmpl; try assumption. lia.
    + intros x _ _. repeat constructor. exact Hfresh.
  - apply groups_kept_edit; [|exact Hl | intros x _ _; constructor].
    destruct (insert_groups (TG ++ locs_l NG)
                (Elem (w_next w) TPic
                   (picture_attrs NotPlaceholder (a_geom (e_attrs e)) rId) [])
                (s_tree (w_tmpl w)) eq_refl Hfresh) as (I1 & I2 & I3).
    apply groups_kept_with_tmpl; try congruence; [lia | apply I3, K3].
Qed.

Lemma labelled_is_text e :
  is_empty (normalize_key (Some (get_text_content e))) = false ->
  is_group e = false.
Proof.
  unfold get_text_content, is_group.
  destruct (e_tag e); try reflexivity; intro H; discriminate H.
Qed.

Lemma fill_shape_groups TG NG fs sufs d w log l :
  groups_kept TG NG w ->
  groups_kept TG NG (fst (fill_shape fs sufs d (w, log) l)).
Proof.
  intro K. unfold fill_shape.
  destruct (find_shape l (s_tree (w_tmpl w))) as [e|] eqn:E; [|exact K].
  pose proof (find_shape_loc _ _ _ E) as El.
  unfold find_shape in E. apply find_some in E as [Ein _].
  destruct (is_empty _) eqn:Ek; [exact K|].
  apply labelled_is_text in Ek.
  assert (Hl : ~ In l (TG ++ locs_l NG)).
  { destruct K as (_ & _ & K3 & _). unfold safe in K3.
    rewrite Forall_forall in K3. rewrite <- El. apply (K3 e Ein Ek). }
  destruct (dict_get d _) as [val|]; [|exact K].
  destruct (route sufs _ val); cbn [fst].
  - destruct (has_text_frame e); [|exact K].
    apply groups_kept_set_text; assumption.
  - apply groups_kept_fill_picture; [exact K | rewrite El; exact Hl].
  - apply groups_kept_set_text; assumption.
Qed.

Lemma fill_shapes_groups TG NG fs sufs d ls :
  forall w log,
    groups_kept TG NG w ->
    groups_kept TG NG (fst (fold_left (fill_shape fs sufs d) ls (w, log))).
Proof.
  induction ls as [|l t IH]; intros w log K; [exact K|].
  cbn [fold_left].
  pose proof (fill_shape_groups TG NG fs sufs d w log l K) as K1.
  destruct (fill_shape fs sufs d (w, log) l) as [w1 log1].
  apply IH, K1.
Qed.

(** The keys recorded as unmatched are the keys without a column. *)
Lemma fill_shapes_unmatched fs sufs d ls :
  forall w log,
    Forall (fun key => dict_get d key = None) (unmatched_shapes log) ->
    Forall (fun key => dict_get d key = None)
      (unmatched_shapes (snd (fold_left (fill_shape fs sufs d) ls (w, log)))).
Proof.
  induction ls as [|l t IH]; intros w log H; [exact H|].
  cbn [fold_left].
  assert (H1 : Forall (fun key => dict_get d key = None)
                 (unmatched_shapes (snd (fill_shape fs sufs d (w, log) l)))).
  { unfold fill_shape.
    destruct (find_shape l (s_tree (w_tmpl w))) as [e|]; [|exact H].
    destruct (is_empty _); [exact H|].
    destruct (dict_get d _) as [val|] eqn:E.
    - destruct (route sufs _ val); exact H.
    - cbn [snd unmatched unmatched_shapes]. apply Forall_app.
      split; [exact H | repeat constructor; exact E]. }
  destruct (fill_shape fs sufs d (w, log) l) as [w1 log1].
  apply IH, H1.
Qed.

(** ** Distinct objects *)

Lemma nodup_locs_NoDup l : nodup_locs l = true -> NoDup l.
Proof.
  induction l as [|x t IH]; simpl; [constructor|]. intro H.
  apply andb_true_iff in H as [Hx Ht]. apply negb_true_iff in Hx.
  constructor; [|apply IH, Ht]. intro Hin.
  assert (existsb (N.eqb x) t = true); [|congruence].
  apply existsb_exists. exists x. split; [exact Hin | apply N.eqb_refl].
Qed.

Lemma NoDup_app_disjoint (A : Type) (a b : list A) x :
  NoDup (a ++ b) -> In x a -> In x b -> False.
Proof.
  induction a as [|y a IH]; simpl; [tauto|]. intros H [->|Ha] Hb.
  - inversion H as [|? ? Hn _]; subst. apply Hn, in_or_app. right. exact Hb.
  - inversion H; subst. eapply IH; eassumption.
Qed.

Lemma NoDup_flat_map_in (A B : Type) (g : A -> list B) L a :
  NoDup (flat_map g L) -> In a L -> NoDup (g a).
Proof.
  induction L as [|c t IH]; simpl; [tauto|]. intros H [->|Ha].
  - eapply NoDup_app_remove_r, H.
  - apply IH; [eapply NoDup_app_remove_l, H | exact Ha].
Qed.

Lemma NoDup_flat_map_unique (A B : Type) (g : A -> list B) L a b x :
  NoDup (flat_map g L) -> In a L -> In b L -> In x (g a) -> In x (g b) ->
  a = b.
Proof.
  induction L as [|c t IH]; simpl; [tauto|]. intros H Ha Hb Hxa Hxb.
  destruct Ha as [->|Ha], Hb as [->|Hb]; [reflexivity| | |].
  - exfalso. eapply NoDup_app_disjoint; [exact H | exact Hxa|].
    apply in_flat_map. exists b. split; assumption.
  - exfalso. eapply NoDup_app_disjoint; [exact H | exact Hxb|].
    apply in_flat_map. exists a. split; assumption.
  - apply IH; try assumption. eapply NoDup_app_remove_l, H.
Qed.

Lemma kid_locs g k x : In k (e_kids g) -> In x (locs k) -> In x (locs g).
Proof.
  intros Hk Hx. rewrite locs_unfold. right. apply in_flat_map.
  exists k. split; assumption.
Qed.

Lemma candidates_In tree e :
  In e (candidates tree) ->
  (In e tree /\ is_group e = false) \/
  (exists g, In g tree /\ is_group g = true /\ In e (e_kids g)).
Proof.
  unfold candidates. intro H. apply in_flat_map in H as [s [Hs He]].
  apply filter_In in Hs as [Hs _].
  destruct (is_group s) eqn:G.
  - right. exists s. apply filter_In in He as [He _]. auto.
  - left. destruct He as [<-|[]]. auto.
Qed.

Lemma protected_In tree x :
  In x (protected tree) ->
  exists g, In g tree /\ is_group g = true /\
            (e_loc g = x \/
             exists k, In k (e_kids g) /\ is_group k = true /\ In x (locs k)).
Proof.
  unfold protected, top_group_locs, nested_groups, locs_l. intro H.
  apply in_app_or in H as [H|H].
  - apply in_map_iff in H as [g [<- Hg]]. apply filter_In in Hg as [Hg G].
    exists g. auto.
  - apply in_flat_map in H as [k [Hk Hx]].
    apply in_flat_map in Hk as [g [Hg Hk]].
    apply filter_In in Hg as [Hg G]. apply filter_In in Hk as [Hk Gk].
    exists g. split; [exact Hg|]. split; [exact G|]. right.
    exists k. auto.
Qed.

Lemma protected_locs tree : incl (protected tree) (locs_l tree).
Proof.
  intros x Hx. apply protected_In in Hx as (g & Hg & _ & [<-|(k & Hk & _ & Hx)]);
    unfold locs_l; apply in_flat_map; exists g; split; try exact Hg.
  - apply e_loc_in_locs.
  - eapply kid_locs; eassumption.
Qed.

(** Distinct objects: no shape to process is a top-level group or an object
    of a nested group. *)
Lemma distinct_safe tree :
  NoDup (locs_l tree) -> safe (protected tree) tree.
Proof.
  intro Hnd. unfold safe. apply Forall_forall. intros e He Hg Hp.
  apply protected_In in Hp as (g & Hgt & Gg & Hp).
  apply candidates_In in He as [[Het _]|(g0 & Hg0 & Gg0 & Hek)].
  - assert (E : e = g).
    { eapply (NoDup_flat_map_unique _ _ locs tree e g (e_loc e));
        try eassumption; [apply e_loc_in_locs|].
      destruct Hp as [<-|(k & Hk & _ & Hx)];
        [apply e_loc_in_locs | eapply kid_locs; eassumption]. }
    congruence.
  - assert (E : g0 = g).
    { eapply (NoDup_flat_map_unique _ _ locs tree g0 g (e_loc e));
        try eassumption.
      - eapply kid_locs; [exact Hek | apply e_loc_in_locs].
      - destruct Hp as [<-|(k & Hk & _ & Hx)];
          [apply e_loc_in_locs | eapply kid_locs; eassumption]. }
    subst g0.
    pose proof (NoDup_flat_map_in _ _ locs tree g Hnd Hgt) as Hg1.
    rewrite locs_unfold in Hg1. inversion Hg1 as [|? ? Hh Hk1]; subst.
    destruct Hp as [Ep|(k & Hk & Gk & Hx)].
    + apply Hh. rewrite Ep. apply in_flat_map. exists e.
      split; [exact Hek | apply e_loc_in_locs].
    + assert (E : e = k).
      { eapply (NoDup_flat_map_unique _ _ locs (e_kids g) e k (e_loc e));
          try eassumption. apply e_loc_in_locs. }
      congruence.
Qed.

Lemma distinct_groups_kept w :
  distinct_objects w = true ->
  groups_kept (top_group_locs (s_tree (w_tmpl w)))
    (nested_groups (s_tree (w_tmpl w))) w.
Proof.
  unfold distinct_objects. intro H. apply andb_true_iff in H as [H1 H2].
  apply nodup_locs_NoDup in H1.
  unfold groups_kept. split; [reflexivity|]. split; [reflexivity|].
  split; [apply distinct_safe, H1|].
  apply Forall_forall. intros x Hx.
  rewrite forallb_forall in H2. apply N.ltb_lt, H2.
  apply protected_locs, Hx.
Qed.

Lemma visited_iff tree l :
  In l (shapes_to_process tree) <-> visited tree l.
Proof.
  unfold shapes_to_process, visited, candidates. split.
  - intro H. apply in_map_iff in H as [e [<- He]].
    apply in_flat_map in He as [s [Hs He]].
    apply filter_In in Hs as [Hs Ss].
    destruct (is_group s) eqn:G.
    + right. apply filter_In in He as [He Se]. exists s, e. auto.
    + left. destruct He as [<-|[]]. exists s. auto.
  - intros [(s & Hs & Ss & G & <-)|(g & c & Hg & G & Hc & Sc & <-)];
      apply in_map, in_flat_map.
    + exists s. split; [apply filter_In; auto|]. rewrite G. left. reflexivity.
    + exists g. split; [apply filter_In; auto using is_group_shape|].
      rewrite G. apply filter_In. auto.
Qed.

(** On the sample: the label directly inside the group is filled, the label
    two groups deep is not. *)
Example fill_sample_group :
  map content
    (filter is_group
       (s_tree (w_tmpl (fst (fill_template_with_row sample_fs IMAGE_EXTENSIONS
                               sample_world
                               [(of_string "Name", VStr (of_string "Hong"))])))))
  = map content
      [ Elem 6%N TGrp plain_attrs
          [ Elem 7%N TElem plain_attrs [];
            label 8%N "Hong";
            Elem 9%N TGrp plain_attrs [label 10%N "Name"] ] ].
Proof. vm_compute. reflexivity. Qed.

End GroupFacts.

(** * The text writer on any text frame *)

Module WriterFacts.
Import Text Shapes Rels Remap World Samples More.
Import TextFacts ShapesFacts.

(** X1. [set_text_preserve_style] never raises, whatever the removals do:
    the result is the element with the first run of the first paragraph
    (a new run when it has none) carrying the text and its former style,
    the removable runs and paragraphs after the first gone, and the ones
    that cannot be removed left in place with empty text. *)
Theorem set_text_preserve_style_fallback (e : elem) (v : pyval) :
  set_text_preserve_style e v = Some (written e v).
Proof.
  destruct e as [l t a kids]. destruct t; try reflexivity.
  cbn [set_text_preserve_style written].
  rewrite set_text_frame_written. reflexivity.
Qed.

(** ** Writing twice *)

Lemma set_run_text_twice t u r :
  set_run_text t (set_run_text u r) = set_run_text t r.
Proof. reflexivity. Qed.

Lemma later_runs_twice a : later_runs (later_runs a) = later_runs a.
Proof.
  induction a as [|x t IH]; [reflexivity|].
  destruct x as [r| |]; cbn [later_runs]; try (rewrite IH; reflexivity).
  destruct (kept_run r) eqn:E; [|exact IH].
  cbn [later_runs].
  replace (kept_run (set_run_text [] r)) with (kept_run r) by reflexivity.
  rewrite E, IH. reflexivity.
Qed.

Lemma runs_of_snoc a r : runs_of (a ++ [IRun r]) = runs_of a ++ [r].
Proof. rewrite runs_of_app. reflexivity. Qed.

Lemma written_items_twice text a :
  written_items text (written_items text a) = written_items text a.
Proof.
  induction a as [|x t IH]; [reflexivity|].
  destruct x as [r| |]; cbn [written_items]; try (rewrite IH; reflexivity).
  rewrite later_runs_twice. reflexivity.
Qed.

Lemma runs_written_items text a :
  runs_of a <> [] -> runs_of (written_items text a) <> [].
Proof.
  induction a as [|x t IH]; [intro H; exact H|].
  destruct x as [r| |]; cbn [runs_of written_items]; [discriminate|exact IH..].
Qed.

Lemma blank_runs_twice p : blank_runs (blank_runs p) = blank_runs p.
Proof.
  unfold blank_runs, map_runs. cbn [p_items p_access]. rewrite map_map.
  f_equal. apply map_ext. intros [r| |]; reflexivity.
Qed.

Lemma filter_kept_blank_paras l :
  filter kept_para (map blank_runs (filter kept_para l))
  = map blank_runs (filter kept_para l).
Proof.
  induction l as [|x t IH]; [reflexivity|]. cbn [filter].
  destruct (kept_para x) eqn:E; [|exact IH].
  cbn [map filter].
  replace (kept_para (blank_runs x)) with (kept_para x) by reflexivity.
  rewrite E, IH. reflexivity.
Qed.

Lemma written_frame_twice tf v :
  written_frame (written_frame tf v) v = written_frame tf v.
Proof.
  destruct tf as [|para rest]; [reflexivity|].
  unfold written_frame at 2. unfold written_frame.
  cbn [p_items p_access]. f_equal.
  - f_equal. unfold p_runs. cbn [p_items].
    destruct (runs_of (p_items para)) as [|r0 others] eqn:Er.
    + rewrite runs_of_snoc, Er. cbn [app].
      rewrite (written_items_split _ _ _ [] Er). reflexivity.
    + assert (N : runs_of (written_items (text_of_value v) (p_items para))
                  <> []).
      { apply runs_written_items. rewrite Er. discriminate. }
      destruct (runs_of (written_items _ _)); [contradiction|].
      apply written_items_twice.
  - rewrite filter_kept_blank_paras, map_map.
    apply map_ext. intro p. apply blank_runs_twice.
Qed.

(** X2. Writing the same value a second time changes nothing, whatever the
    removals do: the collapse is destructive once. *)
Theorem set_text_preserve_style_idempotent (e : elem) (v : pyval) :
  match set_text_preserve_style e v with
  | Some e' => set_text_preserve_style e' v = Some e'
  | None => False
  end.
Proof.
  rewrite set_text_written, set_text_written. f_equal.
  destruct e as [l t a kids]. destruct t; try reflexivity.
  cbn [written]. rewrite written_frame_twice. reflexivity.
Qed.

(** ** The label after a write *)

Lemma text_later_runs a :
  forallb is_run a = true -> concat (map item_text (later_runs a)) = [].
Proof.
  induction a as [|x t IH]; [reflexivity|].
  destruct x as [r| |]; cbn [forallb is_run later_runs]; try discriminate.
  intro H. destruct (kept_run r); [|apply IH, H].
  cbn [map concat item_text]. apply IH, H.
Qed.

Lemma para_text_blank p : only_runs p = true -> para_text (blank_runs p) = [].
Proof.
  unfold only_runs, para_text, blank_runs, map_runs. cbn [p_items].
  induction (p_items p) as [|x t IH]; [reflexivity|].
  destruct x; cbn [forallb is_run]; try discriminate. exact IH.
Qed.

Lemma join_lines_cons2 x y t :
  join_lines (x :: y :: t) = x ++ LF :: join_lines (y :: t).
Proof. reflexivity. Qed.

Lemma join_lines_blank x l :
  forallb only_runs l = true ->
  join_lines (x :: map para_text (map blank_runs l))
  = x ++ repeat LF (length l).
Proof.
  revert x; induction l as [|p t IH]; intros x H.
  - simpl. rewrite app_nil_r. reflexivity.
  - cbn [forallb] in H. apply andb_prop in H as [Hp Ht].
    cbn [map length repeat].
    rewrite join_lines_cons2, (IH _ Ht), (para_text_blank p Hp).
    reflexivity.
Qed.

Lemma normalize_trailing_linebreaks s k :
  normalize_key (Some (s ++ repeat LF k)) = normalize_key (Some s).
Proof.
  rewrite !normalize_key_refines.
  induction k as [|k IH]; [rewrite app_nil_r; reflexivity|].
  cbn [repeat]. rewrite (normalize_spec_drop LF s (repeat LF k)) by reflexivity.
  exact IH.
Qed.

Lemma written_first_text para v :
  only_runs para = true ->
  concat
    (map item_text
       match p_runs para with
       | _ :: _ => written_items (text_of_value v) (p_items para)
       | [] => p_items para ++ [IRun (set_run_text (text_of_value v) new_run)]
       end)
  = escape (text_of_value v).
Proof.
  unfold only_runs, p_runs. destruct (p_items para) as [|x t].
  - intros _. cbn. apply app_nil_r.
  - destruct x as [r| |]; cbn [forallb is_run]; try discriminate.
    intro H. cbn [runs_of written_items map concat item_text set_run_text r_text].
    rewrite (text_later_runs t H). apply app_nil_r.
Qed.

Lemma escape_storable s : storable s = true -> escape s = s.
Proof.
  unfold storable, escape. induction s as [|c t IH]; [reflexivity|].
  cbn [forallb]. intro H. apply andb_prop in H as [Hc Ht].
  change (flat_map escape_char (c :: t))
    with (escape_char c ++ flat_map escape_char t).
  rewrite (IH Ht). unfold escape_char. apply negb_true_iff in Hc.
  rewrite Hc. reflexivity.
Qed.

(** X3. After a write on a text frame whose first paragraph, and whose
    paragraphs that cannot be removed, hold their text in runs only: the
    label of the shape, its normalised text, is the normalised form of the
    value as python-pptx stores it, control characters escaped; for a value
    without control characters other than tab and line feed it is the
    normalised value. What remains of runs and paragraphs that could not be
    removed is empty text and line breaks. *)
Theorem label_after_write
  (l : loc) (para : paragraph) (rest : list paragraph) (a : attrs)
  (kids : list elem) (v : pyval) :
  forallb only_runs (para :: filter kept_para rest) = true ->
  option_map shape_key
    (set_text_preserve_style (Elem l (TSp (para :: rest)) a kids) v)
  = Some (normalize_key (Some (escape (text_of_value v)))) /\
  (storable (text_of_value v) = true ->
   option_map shape_key
     (set_text_preserve_style (Elem l (TSp (para :: rest)) a kids) v)
   = Some (normalize_key (Some (text_of_value v)))).
Proof.
  intro H. cbn [forallb] in H. apply andb_prop in H as [Hp Hr].
  assert (E : option_map shape_key
                (set_text_preserve_style (Elem l (TSp (para :: rest)) a kids) v)
              = Some (normalize_key (Some (escape (text_of_value v))))).
  { cbn [set_text_preserve_style]. rewrite set_text_frame_written.
    cbn [option_map]. unfold shape_key, get_text_content. cbn [e_tag].
    unfold written_frame. cbn [map].
    rewrite (join_lines_blank _ _ Hr). unfold para_text at 1. cbn [p_items].
    rewrite (written_first_text para v Hp).
    rewrite normalize_trailing_linebreaks. reflexivity. }
  split; [exact E|].
  intro S. rewrite E, (escape_storable _ S). reflexivity.
Qed.

Lemma label_after_write_witness :
  forallb only_runs (sample_para :: filter kept_para []) = true /\
  option_map shape_key
    (set_text_preserve_style (Elem 1%N (TSp [sample_para]) sample_attrs [])
       (VStr (of_string " Hong ")))
  = Some (of_string "Hong").
Proof.
  split; [reflexivity|].
  apply (proj2 (label_after_write 1%N sample_para [] sample_attrs []
                  (VStr (of_string " Hong ")) eq_refl)).
  reflexivity.
Defined.

End WriterFacts.

(** * More on rows, routing and labels *)

Module RowFacts.
Import Text Shapes Rels Remap World Samples More.
Import TextFacts RelsFacts ElemFacts FrameFacts.

Lemma dict_get_set d k v k' :
  dict_get (dict_set d k v) k'
  = if pystr_eqb k k' then Some v else dict_get d k'.
Proof.
  induction d as [|[k0 v0] t IH]; simpl.
  - reflexivity.
  - destruct (pystr_eqb k0 k) eqn:E0; simpl.
    + apply pystr_eqb_eq in E0. subst k0.
      destruct (pystr_eqb k k'); reflexivity.
    + rewrite IH. destruct (pystr_eqb k0 k') eqn:E1; [|reflexivity].
      destruct (pystr_eqb k k') eqn:E2; [|reflexivity].
      apply pystr_eqb_eq in E1, E2. subst. rewrite pystr_eqb_refl in E0.
      discriminate.
Qed.

Lemma find_snoc (A : Type) (p : A -> bool) l x :
  find p (l ++ [x])
  = match find p l with Some y => Some y | None => if p x then Some x else None end.
Proof.
  induction l as [|y t IH]; simpl; [reflexivity|].
  destruct (p y); [reflexivity | exact IH].
Qed.

Lemma is_empty_eqb k k' :
  pystr_eqb k k' = true -> is_empty k = is_empty k'.
Proof. intro H. apply pystr_eqb_eq in H. congruence. Qed.

Lemma row_dict_fold r k :
  forall d,
    dict_get
      (fold_left
         (fun d kv =>
            let k_norm := normalize_key (Some (fst kv)) in
            if is_empty k_norm then d else dict_set d k_norm (snd kv))
         r d) k
    = match (if is_empty k then None else last_value r k) with
      | Some v => Some v
      | None => dict_get d k
      end.
Proof.
  induction r as [|[lab v] r IH]; intro d.
  - simpl. destruct (is_empty k); reflexivity.
  - cbn [fold_left fst snd]. rewrite IH.
    unfold last_value. cbn [rev]. rewrite find_snoc. cbn [fst snd].
    destruct (is_empty k) eqn:Ek.
    + destruct (is_empty (normalize_key (Some lab))) eqn:El; [reflexivity|].
      rewrite dict_get_set.
      destruct (pystr_eqb (normalize_key (Some lab)) k) eqn:E; [|reflexivity].
      apply is_empty_eqb in E. congruence.
    + destruct (find _ (rev r)) as [kv|]; [reflexivity|].
      destruct (pystr_eqb (normalize_key (Some lab)) k) eqn:E.
      * pose proof (is_empty_eqb _ _ E) as E2. rewrite Ek in E2.
        rewrite E2, dict_get_set, E. reflexivity.
      * destruct (is_empty (normalize_key (Some lab))); [reflexivity|].
        rewrite dict_get_set, E. reflexivity.
Qed.

(** X4. The dictionary [fill_template_with_row] builds from a row: the
    empty key has no entry, and any other key has the value of the last
    column whose label normalises to it, or no entry when there is no such
    column. Labels that differ before normalisation share an entry, and
    the later column wins. *)
Theorem row_dict_lookup (r : row) (k : pystr) :
  dict_get (make_row_dict r) k
  = if is_empty k then None else last_value r k.
Proof.
  unfold make_row_dict. rewrite row_dict_fold.
  destruct (if is_empty k then None else last_value r k); reflexivity.
Qed.

(** ** A row that matches no shape *)

Lemma fill_shapes_no_match fs sufs d w ls :
  forallb (no_column d) (candidates (s_tree (w_tmpl w))) = true ->
  forall log,
    fst (fold_left (fill_shape fs sufs d) ls (w, log)) = w /\
    matched_count (snd (fold_left (fill_shape fs sufs d) ls (w, log)))
    = matched_count log.
Proof.
  intro H. induction ls as [|l t IH]; intro log; [split; reflexivity|].
  cbn [fold_left].
  assert (S : exists log', fill_shape fs sufs d (w, log) l = (w, log') /\
                           matched_count log' = matched_count log).
  { unfold fill_shape.
    destruct (find_shape l (s_tree (w_tmpl w))) as [e|] eqn:E;
      [|exists log; split; reflexivity].
    unfold find_shape in E. apply find_some in E as [Ein _].
    rewrite forallb_forall in H. specialize (H e Ein).
    unfold no_column, shape_key in H.
    destruct (is_empty _); [exists log; split; reflexivity|].
    destruct (dict_get d _); [discriminate|].
    eexists; split; reflexivity. }
  destruct S as (log' & -> & M). rewrite <- M. apply IH.
Qed.

(** X5. A row none of whose columns matches the label of a shape the fill
    visits: the fill leaves the whole world as it is and counts no match;
    in particular a row without columns changes nothing. *)
Theorem fill_without_match
  (fs : filesystem) (image_suffixes : list pystr) (w : world) (r : row) :
  forallb (no_column (make_row_dict r)) (candidates (s_tree (w_tmpl w))) = true ->
  fst (fill_template_with_row fs image_suffixes w r) = w /\
  matched_count (snd (fill_template_with_row fs image_suffixes w r)) = 0.
Proof.
  intro H. destruct (fill_cases fs image_suffixes w r) as [[_ ->]|[_ ->]].
  - split; reflexivity.
  - apply (fill_shapes_no_match fs image_suffixes _ w _ H empty_log).
Qed.

Lemma fill_without_match_witness :
  forallb (no_column (make_row_dict [(of_string "City", VStr (of_string "Seoul"))]))
    (candidates (s_tree (w_tmpl sample_world))) = true /\
  fst (fill_template_with_row sample_fs IMAGE_EXTENSIONS sample_world
         [(of_string "City", VStr (of_string "Seoul"))]) = sample_world /\
  matched_count
    (snd (fill_template_with_row sample_fs IMAGE_EXTENSIONS sample_world
            [(of_string "City", VStr (of_string "Seoul"))])) = 0.
Proof.
  split; [reflexivity|].
  apply (fill_without_match sample_fs IMAGE_EXTENSIONS sample_world
           [(of_string "City", VStr (of_string "Seoul"))]).
  reflexivity.
Defined.

(** ** Routing *)

(** X6. What the routing hands on, whatever the key and the value: the
    path given to [fill_picture] and the text given to
    [set_text_preserve_style] on the text route are the trimmed value, which
    is not empty, so the guard [if not img_path] of [fill_picture] never
    fires from a fill; the blank route, on which the text given is the
    empty string, is taken exactly for [None], a "nan" string and a value
    that is blank once trimmed. *)
Theorem route_hands_on_trimmed
  (image_suffixes : list pystr) (key : pystr) (val : pyval) :
  match route image_suffixes key val with
  | Blank =>
      is_none val || is_nan_string val || is_empty (strip (py_str val)) = true
  | Picture p =>
      p = strip (py_str val) /\ is_empty p = false /\ strip p = p /\
      is_none val || is_nan_string val = false
  | PlainText p =>
      p = strip (py_str val) /\ is_empty p = false /\ strip p = p /\
      is_none val || is_nan_string val = false
  end.
Proof.
  unfold route. destruct (is_none val || is_nan_string val); [reflexivity|].
  cbv zeta. destruct (is_empty (strip (py_str val))) eqn:E; [reflexivity|].
  destruct (_ || _);
    (split; [reflexivity|]; split; [exact E|];
     split; [apply strip_fix, strip_trimmed | reflexivity]).
Qed.

End RowFacts.

(** * More on the snapshot and the relationships of the template *)

Module SnapshotFacts.
Import Text Shapes Rels Remap World Samples More.
Import TextFacts RelsFacts RemapFacts ElemFacts FrameFacts RestoreFacts.

Lemma others_insert el tree :
  is_shape el = true ->
  filter other (insert_element_before_extLst el tree) = filter other tree.
Proof.
  intro H. induction tree as [|x t IH]; cbn [insert_element_before_extLst].
  - cbn [filter]. unfold other at 1. rewrite H. reflexivity.
  - destruct (e_tag x) eqn:E;
      try (cbn [filter]; rewrite IH; reflexivity).
    cbn [filter]. unfold other at 1. rewrite H. reflexivity.
Qed.

Lemma others_restore snap :
  forall n tree,
    forallb is_shape snap = true ->
    filter other (snd (fold_left restore_one snap (n, tree)))
    = filter other tree.
Proof.
  induction snap as [|s t IH]; intros n tree H; [reflexivity|].
  cbn [forallb] in H. apply andb_prop in H as [Hs Ht].
  cbn [fold_left]. unfold restore_one at 2.
  destruct (deepcopy n s) as [n' c] eqn:E.
  rewrite IH by exact Ht. apply others_insert.
  destruct (deepcopy_spec _ _ _ _ E) as (_ & _ & T & _).
  unfold is_shape in *. rewrite T. exact Hs.
Qed.

Lemma others_twice tree : filter other (filter other tree) = filter other tree.
Proof.
  rewrite filter_filter. apply filter_ext. intro a. destruct (other a); reflexivity.
Qed.

(** X7. [restore_template_shapes] on any slide, with any list of shape
    elements: afterwards the shapes of the slide have, in order, the content
    of the list, whatever the slide held before; the children of the shape
    tree that are no shapes are the same as before, in the same order; the
    background, the relationships of the slide, the added slides and the
    slide list are untouched. Relationships a fill has added are not taken
    back. *)
Theorem restore_replaces_shapes_only (w : world) (snap : list elem) :
  forallb is_shape snap = true ->
  map content (shapes_of (s_tree (w_tmpl (restore_template_shapes w snap))))
  = map content snap /\
  filter other (s_tree (w_tmpl (restore_template_shapes w snap)))
  = filter other (s_tree (w_tmpl w)) /\
  s_bg (w_tmpl (restore_template_shapes w snap)) = s_bg (w_tmpl w) /\
  s_rels (w_tmpl (restore_template_shapes w snap)) = s_rels (w_tmpl w) /\
  w_new (restore_template_shapes w snap) = w_new w /\
  w_sldIdLst (restore_template_shapes w snap) = w_sldIdLst w.
Proof.
  intro H. destruct (restore_spec w snap H) as (_ & _ & C & _).
  split; [exact C|].
  pose proof (others_restore snap (w_next w)
                (filter (fun e => negb (is_shape e)) (s_tree (w_tmpl w))) H) as O.
  unfold restore_template_shapes in *.
  destruct (fold_left restore_one snap _) as [n' tree2]. cbn in *.
  split; [|repeat split].
  rewrite O. apply others_twice.
Qed.

Lemma restore_replaces_shapes_only_witness :
  forallb is_shape (shapes_of sample_tree) = true /\
  filter other
    (s_tree (w_tmpl (restore_template_shapes sample_world
                       (shapes_of sample_tree))))
  = filter other (s_tree (w_tmpl sample_world)).
Proof.
  split; [reflexivity|].
  apply (restore_replaces_shapes_only sample_world (shapes_of sample_tree)).
  reflexivity.
Defined.



(** ** The relationships of the template slide only grow *)

Lemma relate_to_ext d t ty : ext d (fst (relate_to d t ty)).
Proof.
  unfold relate_to. destruct (get_matching d _); cbn.
  - apply ext_refl.
  - eexists. reflexivity.
Qed.

Lemma fill_picture_rels fs w e path :
  ext (s_rels (w_tmpl w)) (s_rels (w_tmpl (fill_picture fs w e path))).
Proof.
  unfold fill_picture. destruct (is_empty path); [apply ext_refl|].
  destruct (fs path) as [[blob|]|]; try apply ext_refl.
  pose proof (relate_to_ext (s_rels (w_tmpl w)) (Internal (PImage blob))
                image_reltype) as X.
  destruct (relate_to _ _ _) as [rels' rId]. cbn in X.
  destruct (a_ph (e_attrs e)); exact X.
Qed.

Lemma fill_shape_rels fs sufs d w log l :
  ext (s_rels (w_tmpl w))
    (s_rels (w_tmpl (fst (fill_shape fs sufs d (w, log) l)))).
Proof.
  unfold fill_shape.
  destruct (find_shape l _) as [e|]; [|apply ext_refl].
  destruct (is_empty _); [apply ext_refl|].
  destruct (dict_get d _) as [val|]; [|apply ext_refl].
  destruct (route sufs _ val); cbn [fst].
  - destruct (has_text_frame e); apply ext_refl.
  - apply fill_picture_rels.
  - apply ext_refl.
Qed.

Lemma fill_shapes_rels fs sufs d ls :
  forall w log,
    ext (s_rels (w_tmpl w))
      (s_rels (w_tmpl (fst (fold_left (fill_shape fs sufs d) ls (w, log))))).
Proof.
  induction ls as [|l t IH]; intros w log; [apply ext_refl|].
  cbn [fold_left].
  pose proof (fill_shape_rels fs sufs d w log l) as X.
  destruct (fill_shape fs sufs d (w, log) l) as [w1 log1]. cbn [fst] in X.
  eapply ext_trans; [exact X | apply IH].
Qed.

Lemma duplicate_tmpl w : w_tmpl (duplicate_slide w) = w_tmpl w.
Proof.
  unfold duplicate_slide.
  destruct (relate_to (w_prs_rels w) _ _).
  destruct (deepcopy_l _ new_slide_tree).
  destruct (deepcopy_l _ (w_layout_phs w)).
  destruct (fold_left _ _ _) as [[? ?] ?].
  destruct (deepcopy_l _ _).
  destruct (thread _ _ _). reflexivity.
Qed.

Lemma restore_rels w snap :
  s_rels (w_tmpl (restore_template_shapes w snap)) = s_rels (w_tmpl w).
Proof.
  unfold restore_template_shapes.
  destruct (fold_left restore_one snap _). reflexivity.
Qed.

Lemma process_row_rels fs w r :
  ext (s_rels (w_tmpl w)) (s_rels (w_tmpl (process_row fs w r))).
Proof.
  unfold process_row. rewrite restore_rels, duplicate_tmpl.
  destruct (fill_cases fs IMAGE_EXTENSIONS w r) as [[_ ->]|[_ ->]].
  - apply ext_refl.
  - apply fill_shapes_rels.
Qed.

(** X9. Over any number of cycles of fill, clone and restore the
    relationships of the template slide only grow at their end: a cycle
    never removes or renumbers a relationship of the template slide, and
    the image relationships a fill adds stay when the shapes are
    restored. *)
Theorem template_relationships_grow
  (fs : filesystem) (rows : list row) (w : world) :
  ext (s_rels (w_tmpl w))
    (s_rels (w_tmpl (fold_left (process_row fs) rows w))).
Proof.
  revert w. induction rows as [|r t IH]; intro w; [apply ext_refl|].
  cbn [fold_left]. eapply ext_trans; [apply process_row_rels | apply IH].
Qed.

End SnapshotFacts.

(** * The slide [duplicate_slide] adds *)

Module CloneMoreFacts.
Import Text Shapes Rels Remap World Samples More.
Import RelsFacts RemapFacts ElemFacts FrameFacts CloneFacts.

Lemma thread_remap_spec src ks :
  forall d d' ks',
    rels_ok d = true -> thread (remap src) d ks = (d', ks') ->
    ext d d' /\ rels_ok d' = true /\ Forall2 (Remapped src d') ks ks'.
Proof.
  induction ks as [|k t IH]; intros d d' ks' Hok E.
  - cbn in E. inversion E; subst. split; [apply ext_refl|]. split; [exact Hok|].
    constructor.
  - rewrite thread_cons in E.
    destruct (remap src d k) as [d1 k'] eqn:E1.
    destruct (thread (remap src) d1 t) as [d2 t'] eqn:E2.
    inversion E; subst.
    destruct (remap_spec _ _ _ _ _ Hok E1) as (X1 & O1 & _ & R1).
    destruct (IH _ _ _ O1 E2) as (X2 & O2 & R2).
    split; [eapply ext_trans; eassumption|]. split; [exact O2|].
    constructor; [|exact R2]. eapply Remapped_mono; eassumption.
Qed.

Lemma clone_fold_rels src shapes :
  forall n r t n' r' t',
    rels_ok r = true ->
    fold_left (clone_shape src) shapes (n, r, t) = (n', r', t') ->
    ext r r' /\ rels_ok r' = true.
Proof.
  induction shapes as [|s rest IH]; intros n r t n' r' t' Hok E.
  - cbn in E. inversion E; subst. split; [apply ext_refl | exact Hok].
  - cbn [fold_left] in E. unfold clone_shape at 2 in E.
    destruct (deepcopy n s) as [n1 c].
    destruct (remap src r c) as [r1 c'] eqn:E1.
    destruct (remap_spec _ _ _ _ _ Hok E1) as (X1 & O1 & _).
    destruct (IH _ _ _ _ _ _ O1 E) as (X2 & O2).
    split; [eapply ext_trans; eassumption | exact O2].
Qed.

Lemma firstn_length_app (A : Type) (a b : list A) :
  firstn (length a) (a ++ b) = a.
Proof. induction a; cbn; [destruct b|]; congruence. Qed.

Lemma skipn_length_app (A : Type) (a b : list A) :
  skipn (length a) (a ++ b) = b.
Proof. induction a; cbn; congruence. Qed.

Lemma Forall2_take (A B : Type) (R : A -> B -> Prop) n :
  forall l l', Forall2 R l l' -> Forall2 R (firstn n l) (firstn n l').
Proof.
  induction n as [|n IH]; intros l l' H; [constructor|].
  destruct H; cbn; constructor; auto.
Qed.

Lemma Forall2_drop (A B : Type) (R : A -> B -> Prop) n :
  forall l l', Forall2 R l l' -> Forall2 R (skipn n l) (skipn n l').
Proof.
  induction n as [|n IH]; intros l l' H; [exact H|].
  destruct H; cbn; [constructor | auto].
Qed.

(** X10. The slide [duplicate_slide] appends for the template slide: its
    background and its shape tree are, node for node and in order, copies
    of the background and of the shape tree of the source on new objects,
    with every [r:embed] and [r:id] that names a relationship of the source
    renamed to a relationship of the new slide with the same type and
    target, and every other attribute as in the source. The relationships
    of the new slide form a dictionary whose first entry relates the layout
    of the source, and the source slide is left as it was. Nothing of the
    placeholders [add_slide] takes from the layout is left on the new
    slide. *)
Theorem duplicate_slide_faithful (w : world) :
  exists dst cb ct,
    w_new (duplicate_slide w) = w_new w ++ [(PSlide (w_next w), dst)] /\
    map content cb = map content (s_bg (w_tmpl w)) /\
    map content ct = map content (s_tree (w_tmpl w)) /\
    Forall2 (Remapped (s_rels (w_tmpl w)) (s_rels dst)) cb (s_bg dst) /\
    Forall2 (Remapped (s_rels (w_tmpl w)) (s_rels dst)) ct (s_tree dst) /\
    rels_ok (s_rels dst) = true /\
    lookup (of_string "rId1") (s_rels dst)
    = Some {| rel_type := layout_reltype;
              rel_target := Internal (s_layout (w_tmpl w)) |} /\
    s_layout dst = s_layout (w_tmpl w) /\
    Forall (fun x => (w_next w < x < w_next (duplicate_slide w))%N)
      (locs_l (slide_forest dst)) /\
    w_tmpl (duplicate_slide w) = w_tmpl w.
Proof.
  unfold duplicate_slide.
  destruct (relate_to (w_prs_rels w) _ _) as [prs_rels' rId].
  destruct (deepcopy_l (N.succ (w_next w)) new_slide_tree) as [n1 base] eqn:E1.
  destruct (deepcopy_l n1 (w_layout_phs w)) as [n2 phs] eqn:E2.
  destruct (fold_left _ _ _) as [[n3 rels1] t3] eqn:E3.
  destruct (deepcopy_l n3 _) as [n4 csld] eqn:E4.
  destruct (thread _ rels1 csld) as [rels2 csld'] eqn:E5.
  destruct (deepcopy_l_spec _ _ _ _ E1) as (L1 & _).
  destruct (deepcopy_l_spec _ _ _ _ E2) as (L2 & _).
  pose proof (clone_fold_next _ _ _ _ _ _ _ _ E3) as L3.
  destruct (deepcopy_l_spec _ _ _ _ E4) as (_ & C4 & _ & F4).
  assert (O0 : rels_ok (fst (relate_to [] (Internal (s_layout (w_tmpl w)))
                                 layout_reltype)) = true) by reflexivity.
  destruct (clone_fold_rels _ _ _ _ _ _ _ _ O0 E3) as (X3 & O3).
  destruct (thread_remap_spec _ _ _ _ _ O3 E5) as (X5 & O5 & R5).
  pose proof (thread_remap_locs (s_rels (w_tmpl w)) csld rels1) as TL.
  rewrite E5 in TL. cbn [snd] in TL.
  set (k := length (s_bg (w_tmpl w))).
  eexists. exists (firstn k csld), (skipn k csld).
  cbn [w_new w_tmpl w_next s_bg s_tree s_rels s_layout].
  split; [reflexivity|].
  rewrite map_app in C4.
  split.
  { rewrite <- firstn_map, C4. unfold k. rewrite <- (length_map content).
    apply firstn_length_app. }
  split.
  { rewrite <- skipn_map, C4. unfold k. rewrite <- (length_map content).
    apply skipn_length_app. }
  split; [apply Forall2_take; exact R5|].
  split; [apply Forall2_drop; exact R5|].
  split; [exact O5|].
  split.
  { destruct X3 as [m3 ->]. destruct X5 as [m5 ->].
    rewrite <- app_assoc. reflexivity. }
  split; [reflexivity|].
  split; [|reflexivity].
  unfold slide_forest. cbn [s_bg s_tree]. rewrite firstn_skipn, TL.
  eapply Forall_impl; [|exact F4]. cbn beta. intros x Hx. lia.
Qed.

End CloneMoreFacts.

(** * [fill_picture] on a shape of the slide *)

Module PictureFacts.
Import Text Shapes Rels Remap World Samples More.
Import RelsFacts RemapFacts ElemFacts FrameFacts GroupFacts.

Lemma absent_notin l forest : absent l forest = true -> ~ In l (locs_l forest).
Proof.
  unfold absent. intros H Hin.
  apply negb_true_iff in H.
  assert (X : existsb (N.eqb l) (locs_l forest) = true).
  { apply existsb_exists. exists l. split; [exact Hin | apply N.eqb_refl]. }
  congruence.
Qed.

Lemma edit_l_app l f a b : edit_l l f (a ++ b) = edit_l l f a ++ edit_l l f b.
Proof. unfold edit_l. apply flat_map_app. Qed.

Lemma edit_l_cons l f x t : edit_l l f (x :: t) = edit l f x ++ edit_l l f t.
Proof. reflexivity. Qed.

Lemma edit_middle l f pre e post :
  e_loc e = l -> ~ In l (locs_l pre) -> ~ In l (locs_l post) ->
  edit_l l f (pre ++ e :: post) = pre ++ f e ++ post.
Proof.
  intros He Hpre Hpost.
  rewrite edit_l_app, edit_l_cons, (edit_l_notin _ _ _ Hpre),
    (edit_l_notin _ _ _ Hpost), (edit_eq _ _ _ He).
  reflexivity.
Qed.

Lemma shape_not_extLst e :
  is_shape e = true -> forall el t,
    insert_element_before_extLst el (e :: t)
    = e :: insert_element_before_extLst el t.
Proof.
  unfold is_shape. intros H el t. cbn [insert_element_before_extLst].
  destruct (e_tag e); try reflexivity. discriminate.
Qed.

Lemma locs_insert x el t :
  In x (locs_l (insert_element_before_extLst el t)) ->
  In x (locs el) \/ In x (locs_l t).
Proof.
  destruct (insert_split el t) as (a & b & -> & ->).
  rewrite locs_l_app, locs_l_cons, locs_l_app, !in_app_iff. tauto.
Qed.

Lemma remove_inserted l pic pre e post :
  e_loc e = l -> is_shape e = true ->
  ~ In l (locs_l pre) -> ~ In l (locs_l post) -> ~ In l (locs pic) ->
  edit_l l (fun _ => []) (insert_element_before_extLst pic (pre ++ e :: post))
  = insert_element_before_extLst pic (pre ++ post).
Proof.
  intros He Hs Hpre Hpost Hpic.
  induction pre as [|x pre IH].
  - cbn [app]. rewrite shape_not_extLst by exact Hs.
    rewrite edit_l_cons, (edit_eq _ _ _ He). cbn [app].
    apply edit_l_notin. intro Hin. apply locs_insert in Hin. tauto.
  - rewrite locs_l_cons, in_app_iff in Hpre.
    assert (Hx : ~ In l (locs x)) by tauto.
    assert (Hp : ~ In l (locs_l pre)) by tauto.
    specialize (IH Hp).
    cbn [app insert_element_before_extLst].
    destruct (e_tag x);
      try (rewrite edit_l_cons, (edit_notin _ _ _ Hx), IH; reflexivity).
    rewrite edit_l_cons, (edit_notin _ _ _ Hpic).
    rewrite edit_l_cons, (edit_notin _ _ _ Hx).
    rewrite (edit_middle _ _ _ _ _ He Hp Hpost). reflexivity.
Qed.

Lemma relate_to_matching d t ty :
  get_matching (fst (relate_to d t ty)) {| rel_type := ty; rel_target := t |}
  = Some (snd (relate_to d t ty)).
Proof.
  unfold relate_to.
  destruct (get_matching d _) as [k|] eqn:E; cbn [fst snd]; [exact E|].
  rewrite get_matching_app, E. unfold get_matching. cbn [find snd fst].
  assert (R : rel_eqb {| rel_type := ty; rel_target := t |}
                {| rel_type := ty; rel_target := t |} = true)
    by (apply rel_eqb_eq; reflexivity).
  rewrite R. reflexivity.
Qed.

(** X11. [fill_picture] with the path of an image file, on a shape of the
    slide's shape tree that is no picture placeholder: the shape is gone
    from its place, and a new picture with the position and the size of the
    shape stands before the first [p:extLst] child of the tree, at the end
    when there is none, so above the other shapes; it embeds the
    relationship of the slide to the image, which the table holds
    afterwards, the former entries unchanged. *)
Theorem fill_picture_replaces_shape
  (fs : filesystem) (w : world) (pre post : list elem) (e : elem)
  (img_path blob : pystr) :
  s_tree (w_tmpl w) = pre ++ e :: post ->
  absent (e_loc e) (pre ++ post) = true ->
  N.eqb (e_loc e) (w_next w) = false ->
  is_shape e = true ->
  takes_picture e = false ->
  is_empty img_path = false ->
  fs img_path = Some (Image blob) ->
  exists rId,
    s_tree (w_tmpl (fill_picture fs w e img_path))
    = insert_element_before_extLst (new_picture w e rId) (pre ++ post) /\
    get_matching (s_rels (w_tmpl (fill_picture fs w e img_path)))
      (image_rel_of blob) = Some rId /\
    ext (s_rels (w_tmpl w)) (s_rels (w_tmpl (fill_picture fs w e img_path))).
Proof.
  intros Ht Ha Hn Hs Hp He Hf.
  apply absent_notin in Ha. rewrite locs_l_app, in_app_iff in Ha.
  apply N.eqb_neq in Hn.
  pose proof (relate_to_matching (s_rels (w_tmpl w)) (Internal (PImage blob))
                image_reltype) as M.
  unfold fill_picture. rewrite He, Hf.
  destruct (relate_to _ _ _) as [rels' rId] eqn:R. cbn [fst snd] in M.
  exists rId.
  assert (X : ext (s_rels (w_tmpl w)) rels').
  { unfold relate_to in R. destruct (get_matching _ _); inversion R; subst.
    - apply ext_refl.
    - eexists. reflexivity. }
  unfold new_picture.
  assert (G : forall ph,
    s_tree (w_tmpl
      (world_edit (e_loc e) (fun _ => [])
         (with_tmpl w
            (set_tree (set_rels (w_tmpl w) rels')
               (insert_element_before_extLst
                  (Elem (w_next w) TPic
                     (picture_attrs ph (a_geom (e_attrs e)) rId) [])
                  (s_tree (w_tmpl w))))
            (N.succ (w_next w)))))
    = insert_element_before_extLst
        (Elem (w_next w) TPic (picture_attrs ph (a_geom (e_attrs e)) rId) [])
        (pre ++ post)).
  { intro ph. cbn [world_edit with_tmpl w_tmpl slide_edit set_tree s_tree].
    rewrite Ht. apply remove_inserted; try tauto.
    cbn. intros [H|[]]. apply Hn. symmetry. exact H. }
  unfold takes_picture in Hp.
  destruct (a_ph (e_attrs e)); [| discriminate |];
    (split; [apply G | split; [exact M | exact X]]).
Qed.

Lemma fill_picture_replaces_shape_witness :
  exists rId,
    s_tree (w_tmpl (fill_picture sample_fs sample_world (label 4%N "Phone")
                      (of_string "images/logo1.png")))
    = insert_element_before_extLst
        (new_picture sample_world (label 4%N "Phone") rId)
        (firstn 3 sample_tree ++ skipn 4 sample_tree) /\
    get_matching
      (s_rels (w_tmpl (fill_picture sample_fs sample_world (label 4%N "Phone")
                         (of_string "images/logo1.png"))))
      (image_rel_of (of_string "logo1-bytes")) = Some rId /\
    ext (s_rels (w_tmpl sample_world))
      (s_rels (w_tmpl (fill_picture sample_fs sample_world (label 4%N "Phone")
                         (of_string "images/logo1.png")))).
Proof.
  apply (fill_picture_replaces_shape sample_fs sample_world
           (firstn 3 sample_tree) (skipn 4 sample_tree) (label 4%N "Phone")
           (of_string "images/logo1.png") (of_string "logo1-bytes"));
    reflexivity.
Defined.

(** X12. [fill_picture] with the path of an image file, on a picture
    placeholder of the slide's shape tree: a new picture stands in the
    place of the placeholder, between the same neighbours, and embeds the
    relationship of the slide to the image; no other child of the tree is
    touched. *)
Theorem fill_picture_fills_placeholder
  (fs : filesystem) (w : world) (pre post : list elem) (e : elem)
  (img_path blob : pystr) :
  s_tree (w_tmpl w) = pre ++ e :: post ->
  absent (e_loc e) (pre ++ post) = true ->
  takes_picture e = true ->
  is_empty img_path = false ->
  fs img_path = Some (Image blob) ->
  exists rId pic,
    s_tree (w_tmpl (fill_picture fs w e img_path)) = pre ++ pic :: post /\
    is_picture pic = true /\
    e_loc pic = w_next w /\
    a_embed (e_attrs pic) = Some rId /\
    get_matching (s_rels (w_tmpl (fill_picture fs w e img_path)))
      (image_rel_of blob) = Some rId /\
    ext (s_rels (w_tmpl w)) (s_rels (w_tmpl (fill_picture fs w e img_path))).
Proof.
  intros Ht Ha Hp He Hf.
  apply absent_notin in Ha. rewrite locs_l_app, in_app_iff in Ha.
  pose proof (relate_to_matching (s_rels (w_tmpl w)) (Internal (PImage blob))
                image_reltype) as M.
  unfold fill_picture. rewrite He, Hf.
  destruct (relate_to _ _ _) as [rels' rId] eqn:R. cbn [fst snd] in M.
  exists rId.
  assert (X : ext (s_rels (w_tmpl w)) rels').
  { unfold relate_to in R. destruct (get_matching _ _); inversion R; subst.
    - apply ext_refl.
    - eexists. reflexivity. }
  unfold takes_picture in Hp.
  destruct (a_ph (e_attrs e)); try discriminate.
  eexists.
  split; [|split; [|split; [|split; [|split; [exact M | exact X]]]]].
  - cbn [world_edit with_tmpl w_tmpl slide_edit set_rels s_tree].
    rewrite Ht, (edit_middle _ _ pre e post); [reflexivity | | |]; tauto.
  - reflexivity.
  - reflexivity.
  - reflexivity.
Qed.

Lemma fill_picture_fills_placeholder_witness :
  exists rId pic,
    s_tree (w_tmpl (fill_picture sample_fs sample_placeholder_world
                      sample_placeholder (of_string "images/logo1.png")))
    = [label 1%N "Name"] ++ pic :: [label 3%N "Phone"] /\
    is_picture pic = true /\
    e_loc pic = w_next sample_placeholder_world /\
    a_embed (e_attrs pic) = Some rId /\
    get_matching
      (s_rels (w_tmpl (fill_picture sample_fs sample_placeholder_world
                         sample_placeholder (of_string "images/logo1.png"))))
      (image_rel_of (of_string "logo1-bytes")) = Some rId /\
    ext (s_rels (w_tmpl sample_placeholder_world))
      (s_rels (w_tmpl (fill_picture sample_fs sample_placeholder_world
                         sample_placeholder (of_string "images/logo1.png")))).
Proof.
  apply (fill_picture_fills_placeholder sample_fs sample_placeholder_world
           [label 1%N "Name"] [label 3%N "Phone"] sample_placeholder
           (of_string "images/logo1.png") (of_string "logo1-bytes"));
    reflexivity.
Defined.

End PictureFacts.

(** * [validate_template] and [detect_sheet_name] *)

Module ValidateFacts.
Import Text Shapes Rels Remap World Samples More.
Import TextFacts RelsFacts.

Lemma shape_key_canonical e :
  normalize_key (Some (shape_key e)) = shape_key e.
Proof.
  unfold shape_key.
  rewrite (normalize_key_refines (get_text_content e)), normalize_key_refines.
  apply normalize_spec_fix.
  - apply normalize_spec_clean.
  - apply normalize_spec_trimmed.
  - apply squeeze_no_double.
Qed.

Lemma text_shape_candidate e tree :
  In e (shapes_of tree) -> has_text_frame e = true -> In e (candidates tree).
Proof.
  intros Hin Ht. unfold candidates. apply in_flat_map. exists e.
  split; [exact Hin|].
  unfold has_text_frame in Ht. unfold is_group.
  destruct (e_tag e); try discriminate. left. reflexivity.
Qed.

(** X13. What [validate_template] reports for a template it accepts: the
    number of slides, which is at least one, and text boxes each of which
    is non-empty, is its own normal form, and is the label of a top-level
    shape with a text frame. Whenever the collection step of
    [fill_template_with_row] does not fail on the slide, that shape is one
    of the shapes the fill looks up in a row; when the [shape_type] of a
    top-level shape raises, the validation reports the labels all the same
    and the fill looks up none. Labels of shapes inside groups, which the
    fill also looks up, are not reported. *)
Theorem validate_template_reports_labels (w : world) (i : template_info) :
  validate_template w = Info i ->
  1 <= slide_count i /\
  slide_count i = length (w_sldIdLst w) /\
  Forall
    (fun text =>
       is_empty text = false /\
       normalize_key (Some text) = text /\
       exists e, In e (shapes_of (s_tree (w_tmpl w))) /\
                 has_text_frame e = true /\ shape_key e = text /\
                 forall shapes, collect (s_tree (w_tmpl w)) = Some shapes ->
                                In e shapes)
    (text_boxes i).
Proof.
  unfold validate_template. intro H.
  destruct (w_sldIdLst w) as [|rId rest] eqn:E; [discriminate|].
  destruct (mem rId (w_prs_rels w)); [|discriminate].
  inversion H; subst i; clear H. cbn [slide_count text_boxes].
  split; [cbn; lia|]. split; [reflexivity|].
  apply Forall_forall. intros text Hin.
  apply filter_In in Hin as [Hin Hne].
  apply in_map_iff in Hin as (e & <- & He).
  apply filter_In in He as [He Ht].
  split; [apply negb_true_iff; exact Hne|].
  split; [apply shape_key_canonical|].
  exists e. split; [exact He|]. split; [exact Ht|]. split; [reflexivity|].
  intros shapes C. unfold collect in C.
  destruct (existsb shape_type_raises _); [discriminate|].
  inversion C; subst. apply text_shape_candidate; assumption.
Qed.

Lemma validate_template_reports_labels_witness :
  validate_template sample_world
  = Info {| slide_count := 2;
            text_boxes := map of_string ["Name"; "Phone"; "Logo_IMG"]%string |} /\
  1 <= 2 /\
  2 = length (w_sldIdLst sample_world) /\
  Forall
    (fun text =>
       is_empty text = false /\
       normalize_key (Some text) = text /\
       exists e, In e (shapes_of (s_tree (w_tmpl sample_world))) /\
                 has_text_frame e = true /\ shape_key e = text /\
                 forall shapes,
                   collect (s_tree (w_tmpl sample_world)) = Some shapes ->
                   In e shapes)
    (map of_string ["Name"; "Phone"; "Logo_IMG"]%string).
Proof.
  split; [reflexivity|].
  apply (validate_template_reports_labels sample_world
           {| slide_count := 2;
              text_boxes := map of_string ["Name"; "Phone"; "Logo_IMG"]%string |}).
  reflexivity.
Defined.



(** ** [detect_sheet_name] *)

Lemma find_first_equal name names :
  existsb (pystr_eqb name) names = true ->
  find (pystr_eqb name) names = Some name.
Proof.
  induction names as [|x t IH]; cbn; [discriminate|].
  destruct (pystr_eqb name x) eqn:E.
  - intros _. apply pystr_eqb_eq in E. congruence.
  - exact IH.
Qed.

(** X15. The sheet [pd.read_excel] reads under the answer of
    [detect_sheet_name], for a workbook that opens: the preferred sheet
    when the workbook has a sheet of that name, and the first sheet
    otherwise. The test for a single sheet never changes which sheet is
    read. *)
Theorem detect_sheet_name_reads
  (names : list pystr) (preferred_sheet : pystr) :
  is_nil names = false ->
  sheet_read names (detect_sheet_name (Some names) preferred_sheet)
  = if existsb (pystr_eqb preferred_sheet) names
    then Some preferred_sheet
    else hd_error names.
Proof.
  intro H. destruct names as [|x t]; [discriminate|].
  unfold detect_sheet_name.
  destruct (length (x :: t) =? 1) eqn:L.
  - apply Nat.eqb_eq in L. destruct t; [|discriminate].
    cbn [sheet_read nth_error existsb hd_error]. rewrite orb_false_r.
    destruct (pystr_eqb preferred_sheet x) eqn:E; [|reflexivity].
    apply pystr_eqb_eq in E. congruence.
  - destruct (existsb (pystr_eqb preferred_sheet) (x :: t)) eqn:E.
    + cbn [sheet_read]. apply find_first_equal. exact E.
    + reflexivity.
Qed.

Lemma detect_sheet_name_reads_witness :
  is_nil [of_string "data"; of_string "export"] = false /\
  sheet_read [of_string "data"; of_string "export"]
    (detect_sheet_name (Some [of_string "data"; of_string "export"])
       (of_string "export"))
  = Some (of_string "export").
Proof.
  split; [reflexivity|].
  apply (detect_sheet_name_reads [of_string "data"; of_string "export"]
           (of_string "export")).
  reflexivity.
Defined.

End ValidateFacts.

(** * Blank ends of a label *)

Module BlankFacts.
Import Text Shapes Rels Remap World Samples More.
Import TextFacts.

Lemma pipeline_app a b : pipeline (a ++ b) = pipeline a ++ pipeline b.
Proof. unfold pipeline. rewrite filter_app, map_app, filter_app. reflexivity. Qed.

Lemma linebreak_to_space c : is_linebreak c = true -> to_space c = c.
Proof.
  unfold is_linebreak, to_space. intro H.
  apply orb_true_iff in H as [H|H]; apply char_eqb_eq in H; subst; reflexivity.
Qed.

Lemma pipeline_blank s :
  forallb ignorable s = true ->
  Forall (fun c => py_isspace c = true) (pipeline s).
Proof.
  induction s as [|c t IH]; intro H; [constructor|].
  cbn [forallb] in H. apply andb_prop in H as [Hc Ht].
  specialize (IH Ht). unfold pipeline in *. cbn [filter].
  destruct (is_invisible c) eqn:I; cbn [negb]; [exact IH|].
  cbn [map filter].
  destruct (is_linebreak (to_space c)) eqn:L; cbn [negb]; [exact IH|].
  constructor; [|exact IH].
  unfold ignorable in Hc. rewrite I in Hc. cbn [orb] in Hc.
  destruct (is_linebreak c) eqn:L0; [|exact Hc].
  rewrite (linebreak_to_space c L0) in L. congruence.
Qed.

Lemma lstrip_blank ws m :
  Forall (fun c => py_isspace c = true) ws -> lstrip (ws ++ m) = lstrip m.
Proof.
  induction 1 as [|c t Hc _ IH]; [reflexivity|].
  cbn [app lstrip]. rewrite Hc. exact IH.
Qed.

Lemma rstrip_blank ws m :
  Forall (fun c => py_isspace c = true) ws -> rstrip (m ++ ws) = rstrip m.
Proof.
  intro H. unfold rstrip. rewrite rev_app_distr, lstrip_blank; [reflexivity|].
  apply Forall_rev. exact H.
Qed.

Lemma strip_blank a m b :
  Forall (fun c => py_isspace c = true) a ->
  Forall (fun c => py_isspace c = true) b ->
  strip (a ++ m ++ b) = strip m.
Proof.
  intros Ha Hb. unfold strip. rewrite (lstrip_blank a _ Ha).
  induction m as [|x t IH].
  - cbn [app]. rewrite <- (app_nil_r b), (lstrip_blank b [] Hb). reflexivity.
  - cbn [app lstrip]. destruct (py_isspace x); [exact IH|].
    rewrite app_comm_cons. apply rstrip_blank. exact Hb.
Qed.

(** X16. [normalize_key] does not see what surrounds a label when that is
    made of white space, line breaks, tabs, no-break spaces and the
    invisible characters it strips: two labels that differ only in such
    characters at their ends have the same normal form, and name the same
    column. *)
Theorem normalize_key_ignores_blank_ends (pre s post : pystr) :
  forallb ignorable pre = true ->
  forallb ignorable post = true ->
  normalize_key (Some (pre ++ s ++ post)) = normalize_key (Some s).
Proof.
  intros Hpre Hpost.
  rewrite !normalize_key_refines.
  unfold normalize_spec. f_equal.
  change (strip (pipeline (pre ++ s ++ post)) = strip (pipeline s)).
  rewrite !pipeline_app.
  apply strip_blank; apply pipeline_blank; assumption.
Qed.

Lemma normalize_key_ignores_blank_ends_witness :
  forallb ignorable [TAB; ZWSP; SP] = true /\
  forallb ignorable [NBSP; BOM; CR; LF] = true /\
  normalize_key (Some ([TAB; ZWSP; SP] ++ of_string "Name" ++ [NBSP; BOM; CR; LF]))
  = normalize_key (Some (of_string "Name")).
Proof.
  split; [reflexivity|]. split; [reflexivity|].
  apply (normalize_key_ignores_blank_ends [TAB; ZWSP; SP] (of_string "Name")
           [NBSP; BOM; CR; LF]); reflexivity.
Defined.

End BlankFacts.

(** * A fill that inserts no picture *)

Module TextFillFacts.
Import Text Shapes Rels Remap World Samples More.
Import TextFacts RelsFacts RemapFacts ElemFacts FrameFacts LoopFacts.
Import DriverFacts GroupFacts ShapesFacts WriterFacts PictureFacts.

Lemma collect_some tree :
  collects tree = true -> collect tree = Some (candidates tree).
Proof.
  unfold collects, collect. intro H. apply negb_true_iff in H.
  rewrite H. reflexivity.
Qed.

Lemma fill_collected fs sufs w r :
  collects (s_tree (w_tmpl w)) = true ->
  fill_template_with_row fs sufs w r
  = fold_left (fill_shape fs sufs (make_row_dict r))
      (shapes_to_process (s_tree (w_tmpl w))) (w, empty_log).
Proof.
  intro H. unfold fill_template_with_row. rewrite (collect_some _ H).
  reflexivity.
Qed.

Lemma edit_ext l f g :
  (forall e, f e = g e) -> forall e, edit l f e = edit l g e.
Proof.
  intros H e. induction e as [l' t a kids IH] using elem_ind'.
  cbn [edit]. destruct (N.eqb l' l); [apply H|].
  do 2 f_equal. induction IH as [|k ks Hk _ IHks]; [reflexivity|].
  cbn [flat_map]. rewrite Hk, IHks. reflexivity.
Qed.

Lemma edit_l_ext l f g forest :
  (forall e, f e = g e) -> edit_l l f forest = edit_l l g forest.
Proof.
  intro H. unfold edit_l. induction forest as [|x t IH]; [reflexivity|].
  cbn [flat_map]. rewrite (edit_ext l f g H x), IH. reflexivity.
Qed.

Lemma set_text_at_tree w l v :
  s_tree (w_tmpl (set_text_at w l v))
  = edit_l l (fun e => [written e v]) (s_tree (w_tmpl w)).
Proof.
  unfold set_text_at. cbn [world_edit w_tmpl slide_edit s_tree].
  apply edit_l_ext. intro e. rewrite set_text_written. reflexivity.
Qed.

Lemma written_same e v :
  e_loc (written e v) = e_loc e /\ locs (written e v) = locs e /\
  is_shape (written e v) = is_shape e /\ is_group (written e v) = is_group e.
Proof. destruct e as [l [] a kids]; repeat split. Qed.

Lemma In_loc e L : In e L -> In (e_loc e) (locs_l L).
Proof.
  intro H. unfold locs_l. apply in_flat_map. exists e.
  split; [exact H | apply e_loc_in_locs].
Qed.

Lemma candidate_loc e T : In e (candidates T) -> In (e_loc e) (locs_l T).
Proof.
  intro H. apply (locs_l_filter is_shape). apply shapes_to_process_locs.
  unfold shapes_to_process. apply in_map. exact H.
Qed.

Lemma map_keep (G : elem -> elem) l L :
  (forall e, In e L -> e_loc e <> l) ->
  map (fun e => if N.eqb (e_loc e) l then G e else e) L = L.
Proof.
  intro H. rewrite <- (map_id L) at 2. apply map_ext_in. intros e He.
  destruct (N.eqb (e_loc e) l) eqn:E; [|reflexivity].
  apply N.eqb_eq in E. destruct (H e He E).
Qed.

Lemma NoDup_middle l pre x post :
  NoDup (locs_l (pre ++ x :: post)) -> In l (locs x) ->
  ~ In l (locs_l pre) /\ ~ In l (locs_l post) /\ NoDup (locs x).
Proof.
  rewrite locs_l_app, locs_l_cons. intros ND Hin.
  split; [|split].
  - intro H. eapply NoDup_app_disjoint; [exact ND | exact H |].
    apply in_or_app. left. exact Hin.
  - intro H. apply NoDup_app_remove_l in ND.
    eapply NoDup_app_disjoint; [exact ND | exact Hin | exact H].
  - apply NoDup_app_remove_l in ND. eapply NoDup_app_remove_r, ND.
Qed.

Lemma candidates_single c :
  candidates [c]
  = if is_shape c then (if is_group c then shapes_of (e_kids c) else [c])
    else [].
Proof. rewrite candidates_cons. apply app_nil_r. Qed.

Lemma edit_candidates T l v :
  NoDup (locs_l T) -> visited T l ->
  candidates (edit_l l (fun e => [written e v]) T)
  = map (fun e => if N.eqb (e_loc e) l then written e v else e) (candidates T)
  /\ locs_l (edit_l l (fun e => [written e v]) T) = locs_l T.
Proof.
  intros ND [(s & Hin & Hs & Hg & Hl)|(g & c & Hin & Hg & Hc & Hs & Hl)].
  - apply in_split in Hin as (pre & post & ->).
    destruct (NoDup_middle l pre s post ND) as (Hpre & Hpost & _);
      [rewrite <- Hl; apply e_loc_in_locs|].
    rewrite (edit_middle _ _ _ _ _ Hl Hpre Hpost).
    destruct (written_same s v) as (W1 & W2 & W3 & W4).
    split.
    + rewrite !candidates_app, candidates_single, (candidates_cons s post).
      rewrite !map_app, W3, W4, Hs, Hg. cbn [map].
      rewrite Hl, N.eqb_refl.
      rewrite !map_keep; [reflexivity | |];
        intros e He E; apply candidate_loc in He; rewrite E in He; tauto.
    + cbn [app]. rewrite !locs_l_app, !locs_l_cons, W2. reflexivity.
  - apply in_split in Hin as (pre & post & ->).
    assert (Hlg : In l (locs g)).
    { rewrite <- Hl. eapply kid_locs; [exact Hc | apply e_loc_in_locs]. }
    destruct (NoDup_middle l pre g post ND Hlg) as (Hpre & Hpost & NDg).
    apply in_split in Hc as (kpre & kpost & Ek).
    rewrite locs_unfold, Ek in NDg.
    assert (Hng : e_loc g <> l).
    { intro E. inversion NDg as [|? ? Hn _]. apply Hn.
      rewrite E, <- Hl. apply (In_loc c (kpre ++ c :: kpost)).
      apply in_or_app. right. left. reflexivity. }
    assert (NDk : NoDup (locs_l (kpre ++ c :: kpost))).
    { inversion NDg; subst. assumption. }
    destruct (NoDup_middle l kpre c kpost NDk) as (Hkpre & Hkpost & _);
      [rewrite <- Hl; apply e_loc_in_locs|].
    rewrite edit_l_app, edit_l_cons, (edit_l_notin _ _ _ Hpre),
      (edit_l_notin _ _ _ Hpost), (edit_neq _ _ _ Hng).
    fold (edit_l l (fun e => [written e v]) (e_kids g)).
    rewrite Ek, (edit_middle _ _ _ _ _ Hl Hkpre Hkpost).
    destruct (written_same c v) as (W1 & W2 & W3 & W4).
    split.
    + assert (Sg : is_shape g = true) by (apply is_group_shape; exact Hg).
      set (g' := Elem (e_loc g) (e_tag g) (e_attrs g)
                   (kpre ++ [written c v] ++ kpost)).
      assert (Sg' : is_shape g' = true) by exact Sg.
      assert (Gg' : is_group g' = true) by exact Hg.
      rewrite !candidates_app, candidates_single, (candidates_cons g post).
      rewrite Sg, Sg', Hg, Gg', Ek. cbn [e_kids g'].
      rewrite !RestoreFacts.shapes_of_app.
      assert (S1 : forall x, is_shape x = true -> shapes_of (x :: kpost)
                                                 = x :: shapes_of kpost).
      { intros x Hx. unfold shapes_of. cbn [filter]. rewrite Hx. reflexivity. }
      assert (S0 : shapes_of [written c v] = [written c v]).
      { unfold shapes_of. cbn [filter]. rewrite W3, Hs. reflexivity. }
      rewrite (S1 c Hs), S0.
      rewrite !map_app. cbn [map app]. rewrite Hl, N.eqb_refl.
      rewrite !map_keep; [reflexivity | | | |].
      * intros e He E. apply candidate_loc in He. rewrite E in He; tauto.
      * intros e He E. apply filter_In in He as [He _].
        apply In_loc in He. rewrite E in He; tauto.
      * intros e He E. apply filter_In in He as [He _].
        apply In_loc in He. rewrite E in He; tauto.
      * intros e He E. apply candidate_loc in He. rewrite E in He; tauto.
    + cbn [app]. rewrite !locs_l_app, !locs_l_cons. cbn [locs].
      fold (locs_l (kpre ++ written c v :: kpost)).
      rewrite (locs_unfold g), Ek. fold (locs_l (kpre ++ c :: kpost)).
      rewrite !locs_l_app, !locs_l_cons, W2. reflexivity.
Qed.

Lemma NoDup_app_intro (A : Type) (a b : list A) :
  NoDup a -> NoDup b -> (forall x, In x a -> ~ In x b) -> NoDup (a ++ b).
Proof.
  intros Ha Hb H. induction Ha as [|x a Hx Ha IH]; [exact Hb|].
  cbn [app]. constructor.
  - rewrite in_app_iff. intros [Hi|Hi]; [exact (Hx Hi)|].
    apply (H x); [left; reflexivity | exact Hi].
  - apply IH. intros y Hy. apply H. right. exact Hy.
Qed.

Lemma NoDup_kid_locs p L :
  NoDup (locs_l L) -> NoDup (map e_loc (filter p L)).
Proof.
  induction L as [|k L IH]; intro H; [constructor|].
  rewrite locs_l_cons in H. cbn [filter].
  pose proof (IH (NoDup_app_remove_l _ _ H)) as IH'.
  destruct (p k); [|exact IH']. cbn [map]. constructor; [|exact IH'].
  intro Hin. apply in_map_iff in Hin as (e & E & He).
  apply filter_In in He as [He _]. apply In_loc in He.
  eapply NoDup_app_disjoint; [exact H | apply e_loc_in_locs |].
  rewrite <- E. exact He.
Qed.

Lemma NoDup_candidate_locs T :
  NoDup (locs_l T) -> NoDup (shapes_to_process T).
Proof.
  unfold shapes_to_process.
  induction T as [|x t IH]; intro H; [constructor|].
  rewrite locs_l_cons in H. rewrite candidates_cons, map_app.
  apply NoDup_app_intro.
  - destruct (is_shape x); [|constructor].
    destruct (is_group x).
    + apply NoDup_kid_locs. apply NoDup_app_remove_r in H.
      rewrite locs_unfold in H. inversion H. assumption.
    + cbn. constructor; [tauto | constructor].
  - apply IH. eapply NoDup_app_remove_l, H.
  - intros y Hy Hy2.
    apply in_map_iff in Hy2 as (e & E & He). apply candidate_loc in He.
    rewrite E in He.
    eapply NoDup_app_disjoint; [exact H | | exact He].
    destruct (is_shape x); [|destruct Hy].
    destruct (is_group x).
    + apply in_map_iff in Hy as (k & Ek & Hk).
      apply filter_In in Hk as [Hk _]. rewrite <- Ek.
      eapply kid_locs; [exact Hk | apply e_loc_in_locs].
    + destruct Hy as [<-|[]]. apply e_loc_in_locs.
Qed.

Lemma unique_by_loc L a b :
  NoDup (map e_loc L) -> In a L -> In b L -> e_loc a = e_loc b -> a = b.
Proof.
  induction L as [|x t IH]; [intros _ []|].
  cbn [map]. intros H Ha Hb E. inversion H as [|? ? Hn Ht]; subst.
  destruct Ha as [<-|Ha], Hb as [<-|Hb]; [reflexivity| | |auto].
  - destruct Hn. rewrite E. apply in_map. exact Hb.
  - destruct Hn. rewrite <- E. apply in_map. exact Ha.
Qed.

Lemma filled_loc sufs d e : e_loc (filled sufs d e) = e_loc e.
Proof.
  unfold filled. destruct (is_empty _); [reflexivity|].
  destruct (dict_get d _) as [val|]; [|reflexivity].
  destruct (route sufs _ val); try reflexivity; apply written_same.
Qed.

Lemma written_no_frame e v : has_text_frame e = false -> written e v = e.
Proof. destruct e as [l [] a kids]; cbn; try reflexivity. discriminate. Qed.

Lemma map_at_loc (F G : elem -> elem) l e L :
  (forall e', In e' L -> e_loc e' = l -> e' = e) -> F e = G e ->
  map (fun x => if N.eqb (e_loc x) l then F x else x) L
  = map (fun x => if N.eqb (e_loc x) l then G x else x) L.
Proof.
  intros U H. apply map_ext_in. intros x Hx.
  destruct (N.eqb (e_loc x) l) eqn:E; [|reflexivity].
  apply N.eqb_eq in E. rewrite (U x Hx E). exact H.
Qed.

Lemma fill_shape_text fs sufs d w log l :
  NoDup (locs_l (s_tree (w_tmpl w))) ->
  In l (shapes_to_process (s_tree (w_tmpl w))) ->
  (forall e, In e (candidates (s_tree (w_tmpl w))) -> e_loc e = l ->
             no_picture sufs d e = true) ->
  candidates (s_tree (w_tmpl (fst (fill_shape fs sufs d (w, log) l))))
  = map (fun e => if N.eqb (e_loc e) l then filled sufs d e else e)
      (candidates (s_tree (w_tmpl w))) /\
  locs_l (s_tree (w_tmpl (fst (fill_shape fs sufs d (w, log) l))))
  = locs_l (s_tree (w_tmpl w)) /\
  s_rels (w_tmpl (fst (fill_shape fs sufs d (w, log) l)))
  = s_rels (w_tmpl w).
Proof.
  set (T := s_tree (w_tmpl w)). intros ND Hl Hnp.
  pose proof (NoDup_candidate_locs T ND) as NDc.
  pose proof (proj1 (visited_iff T l) Hl) as V.
  unfold shapes_to_process in Hl, NDc.
  apply in_map_iff in Hl as (c & Ec & Hc).
  unfold fill_shape, find_shape. fold T.
  destruct (find (fun e => N.eqb (e_loc e) l) (candidates T)) as [e|] eqn:F.
  2:{ pose proof (find_none _ _ F c Hc) as X. cbn in X.
      rewrite Ec, N.eqb_refl in X. discriminate. }
  apply find_some in F as [He El]. apply N.eqb_eq in El.
  assert (U : forall e', In e' (candidates T) -> e_loc e' = l -> e' = e).
  { intros e' He' El'. apply (unique_by_loc (candidates T)); congruence. }
  specialize (Hnp e He El). unfold no_picture in Hnp.
  fold (shape_key e).
  assert (Same : filled sufs d e = e ->
    candidates T
    = map (fun x => if N.eqb (e_loc x) l then filled sufs d x else x)
        (candidates T)).
  { intro H. rewrite <- (map_id (candidates T)) at 1. apply map_ext_in.
    intros x Hx. destruct (N.eqb (e_loc x) l) eqn:E; [|reflexivity].
    apply N.eqb_eq in E. rewrite (U x Hx E). symmetry. exact H. }
  assert (Text : forall v, filled sufs d e = written e v ->
    candidates (s_tree (w_tmpl (set_text_at w l v)))
    = map (fun x => if N.eqb (e_loc x) l then filled sufs d x else x)
        (candidates T) /\
    locs_l (s_tree (w_tmpl (set_text_at w l v))) = locs_l T /\
    s_rels (w_tmpl (set_text_at w l v)) = s_rels (w_tmpl w)).
  { intros v H. rewrite set_text_at_tree. fold T.
    destruct (edit_candidates T l v ND V) as (C1 & C2).
    split; [|split; [exact C2 | reflexivity]].
    rewrite C1. apply (map_at_loc _ _ l e); [exact U | symmetry; exact H]. }
  unfold filled in Same, Text.
  destruct (is_empty (shape_key e)) eqn:K.
  { cbn [fst]. fold T. split; [apply Same; reflexivity | split; reflexivity]. }
  destruct (dict_get d (shape_key e)) as [val|] eqn:D.
  2:{ cbn [fst]. fold T.
      split; [apply Same; reflexivity | split; reflexivity]. }
  destruct (route sufs (shape_key e) val) as [|p|sval] eqn:R; cbn [fst].
  - destruct (has_text_frame e) eqn:H.
    + apply Text. reflexivity.
    + fold T. split; [|split; reflexivity].
      apply Same. apply written_no_frame. exact H.
  - discriminate.
  - apply Text. reflexivity.
Qed.

Lemma existsb_loc l ls : existsb (N.eqb l) ls = true <-> In l ls.
Proof.
  rewrite existsb_exists. split.
  - intros (x & Hx & E). apply N.eqb_eq in E. congruence.
  - intro H. exists l. split; [exact H | apply N.eqb_refl].
Qed.

Lemma fill_shapes_text fs sufs d todo :
  forall w log,
    NoDup (locs_l (s_tree (w_tmpl w))) ->
    NoDup todo ->
    incl todo (shapes_to_process (s_tree (w_tmpl w))) ->
    (forall e, In e (candidates (s_tree (w_tmpl w))) -> In (e_loc e) todo ->
               no_picture sufs d e = true) ->
    candidates
      (s_tree (w_tmpl (fst (fold_left (fill_shape fs sufs d) todo (w, log)))))
    = map (fun e => if existsb (N.eqb (e_loc e)) todo
                    then filled sufs d e else e)
        (candidates (s_tree (w_tmpl w))) /\
    locs_l
      (s_tree (w_tmpl (fst (fold_left (fill_shape fs sufs d) todo (w, log)))))
    = locs_l (s_tree (w_tmpl w)) /\
    s_rels (w_tmpl (fst (fold_left (fill_shape fs sufs d) todo (w, log))))
    = s_rels (w_tmpl w).
Proof.
  induction todo as [|l rest IH]; intros w log ND NDt Hin Hnp.
  - cbn [fold_left fst existsb]. rewrite map_id. repeat split.
  - inversion NDt as [|? ? Hl NDr]; subst.
    assert (S : In l (shapes_to_process (s_tree (w_tmpl w))))
      by (apply Hin; left; reflexivity).
    destruct (fill_shape_text fs sufs d w log l ND S) as (C1 & L1 & R1).
    { intros e He El. apply Hnp; [exact He | left; symmetry; exact El]. }
    cbn [fold_left].
    destruct (fill_shape fs sufs d (w, log) l) as [w1 log1]. cbn [fst] in *.
    assert (P1 : shapes_to_process (s_tree (w_tmpl w1))
                 = shapes_to_process (s_tree (w_tmpl w))).
    { unfold shapes_to_process. rewrite C1, map_map. apply map_ext.
      intro e. destruct (N.eqb (e_loc e) l); [apply filled_loc | reflexivity]. }
    destruct (IH w1 log1) as (C2 & L2 & R2).
    + rewrite L1. exact ND.
    + exact NDr.
    + rewrite P1. intros x Hx. apply Hin. right. exact Hx.
    + intros e1 He1 Hr. rewrite C1 in He1.
      apply in_map_iff in He1 as (e & E & He).
      destruct (N.eqb (e_loc e) l) eqn:El.
      * apply N.eqb_eq in El. subst e1. rewrite filled_loc, El in Hr.
        destruct (Hl Hr).
      * subst e1. apply Hnp; [exact He | right; exact Hr].
    + split; [|split; congruence].
      rewrite C2, C1, map_map. apply map_ext. intro e.
      cbn [existsb].
      destruct (N.eqb (e_loc e) l) eqn:El.
      * rewrite filled_loc. apply N.eqb_eq in El. rewrite El.
        destruct (existsb (N.eqb l) rest) eqn:X.
        -- apply existsb_loc in X. destruct (Hl X).
        -- cbn [orb]. reflexivity.
      * cbn [orb]. reflexivity.
Qed.

(** X17. A fill that inserts no picture, on a slide whose elements are
    distinct objects and on which the collection of the shapes does not
    fail, no top-level shape raising on [shape_type]: the shapes the fill
    visits are afterwards the same objects in the same order, none added
    and none removed; every visited shape that has a label and a column for
    it shows the text the routing gives for the value of that column (the
    trimmed value, or nothing for [None], a "nan" string or a blank value),
    stored as python-pptx stores it, in the style of its first run; every
    other visited shape is as it was. The value written into one shape is
    not read again as the label of that shape, and the relationships of the
    slide are untouched. *)
Theorem fill_text_only
  (fs : filesystem) (image_suffixes : list pystr) (w : world) (r : row) :
  distinct_objects w = true ->
  collects (s_tree (w_tmpl w)) = true ->
  forallb (no_picture image_suffixes (make_row_dict r))
    (candidates (s_tree (w_tmpl w))) = true ->
  candidates
    (s_tree (w_tmpl (fst (fill_template_with_row fs image_suffixes w r))))
  = map (filled image_suffixes (make_row_dict r))
      (candidates (s_tree (w_tmpl w))) /\
  locs_l (s_tree (w_tmpl (fst (fill_template_with_row fs image_suffixes w r))))
  = locs_l (s_tree (w_tmpl w)) /\
  s_rels (w_tmpl (fst (fill_template_with_row fs image_suffixes w r)))
  = s_rels (w_tmpl w).
Proof.
  intros Hd Hc Hnp. unfold distinct_objects in Hd.
  apply andb_prop in Hd as [Hd _]. apply nodup_locs_NoDup in Hd.
  rewrite forallb_forall in Hnp.
  rewrite (fill_collected _ _ _ _ Hc).
  destruct (fill_shapes_text fs image_suffixes (make_row_dict r)
              (shapes_to_process (s_tree (w_tmpl w))) w empty_log Hd)
    as (C & L & R).
  - apply NoDup_candidate_locs. exact Hd.
  - apply incl_refl.
  - intros e He _. apply Hnp. exact He.
  - split; [|split; assumption].
    rewrite C. apply map_ext_in. intros e He.
    assert (X : existsb (N.eqb (e_loc e))
                  (shapes_to_process (s_tree (w_tmpl w))) = true).
    { apply existsb_loc. unfold shapes_to_process. apply in_map. exact He. }
    rewrite X. reflexivity.
Qed.

Lemma fill_text_only_witness :
  distinct_objects sample_world = true /\
  collects (s_tree (w_tmpl sample_world)) = true /\
  forallb
    (no_picture IMAGE_EXTENSIONS
       (make_row_dict [ (of_string "Name", VStr (of_string " Hong "));
                        (of_string "Phone", VNaN) ]))
    (candidates (s_tree (w_tmpl sample_world))) = true /\
  candidates
    (s_tree (w_tmpl (fst (fill_template_with_row sample_fs IMAGE_EXTENSIONS
                            sample_world
                            [ (of_string "Name", VStr (of_string " Hong "));
                              (of_string "Phone", VNaN) ]))))
  = map (filled IMAGE_EXTENSIONS
           (make_row_dict [ (of_string "Name", VStr (of_string " Hong "));
                            (of_string "Phone", VNaN) ]))
      (candidates (s_tree (w_tmpl sample_world))).
Proof.
  split; [reflexivity|]. split; [reflexivity|]. split; [reflexivity|].
  apply (fill_text_only sample_fs IMAGE_EXTENSIONS sample_world
           [ (of_string "Name", VStr (of_string " Hong "));
             (of_string "Phone", VNaN) ]); reflexivity.
Defined.

End TextFillFacts.

(** * [restore_template_shapes] on the usual layout of a shape tree *)

Module LayoutFacts.
Import Text Shapes Rels Remap World Samples More.
Import ElemFacts RestoreFacts SnapshotFacts.

Lemma insert_before_tail el props acc rest :
  forallb (fun e => negb (is_extLst e)) (props ++ acc) = true ->
  is_tail rest = true ->
  insert_element_before_extLst el ((props ++ acc) ++ rest)
  = (props ++ acc ++ [el]) ++ rest.
Proof.
  intros H Hr. rewrite (app_assoc props acc [el]).
  induction (props ++ acc) as [|x t IH].
  - cbn [app]. destruct rest as [|y r]; [reflexivity|].
    cbn [is_tail] in Hr. apply andb_prop in Hr as [Hy _].
    unfold is_extLst in Hy. cbn [insert_element_before_extLst].
    destruct (e_tag y); try discriminate. reflexivity.
  - cbn [forallb] in H. apply andb_prop in H as [Hx Ht].
    cbn [app insert_element_before_extLst]. rewrite (IH Ht).
    unfold is_extLst in Hx. destruct (e_tag x); try discriminate; reflexivity.
Qed.

Lemma shape_no_extLst l :
  forallb is_shape l = true -> forallb (fun e => negb (is_extLst e)) l = true.
Proof.
  intro H. rewrite forallb_forall in *. intros e He. specialize (H e He).
  unfold is_shape, is_extLst in *. destruct (e_tag e); try discriminate;
    reflexivity.
Qed.

Lemma property_no_extLst l :
  forallb is_property l = true ->
  forallb (fun e => negb (is_extLst e)) l = true /\ filter other l = l /\
  shapes_of l = [].
Proof.
  intro H. induction l as [|x t IH]; [repeat split|].
  cbn [forallb] in H. apply andb_prop in H as [Hx Ht].
  destruct (IH Ht) as (I1 & I2 & I3).
  unfold is_property in Hx. apply andb_prop in Hx as [X1 X2].
  unfold shapes_of in *. cbn [forallb filter]. unfold other at 1.
  rewrite X1, X2, I1, I2. apply negb_true_iff in X1. rewrite X1, I3.
  repeat split.
Qed.

Lemma restore_fold_layout props rest snap :
  forall n acc,
    forallb is_property props = true -> is_tail rest = true ->
    forallb is_shape acc = true -> forallb is_shape snap = true ->
    exists copies,
      snd (fold_left restore_one snap (n, (props ++ acc) ++ rest))
      = (props ++ acc ++ copies) ++ rest /\
      map content copies = map content snap.
Proof.
  induction snap as [|s t IH]; intros n acc Hp Hr Ha Hs.
  - exists []. rewrite app_nil_r. split; reflexivity.
  - cbn [forallb] in Hs. apply andb_prop in Hs as [Hs Ht].
    cbn [fold_left]. unfold restore_one at 2.
    destruct (deepcopy n s) as [n' c] eqn:E.
    destruct (deepcopy_spec _ _ _ _ E) as (_ & C & T & _).
    rewrite insert_before_tail; [|rewrite forallb_app|exact Hr].
    2:{ rewrite (proj1 (property_no_extLst props Hp)),
          (shape_no_extLst acc Ha). reflexivity. }
    destruct (IH n' (acc ++ [c]) Hp Hr) as (copies & F & Cs); [|exact Ht|].
    { rewrite forallb_app, Ha. cbn [forallb]. unfold is_shape in *.
      rewrite T, Hs. reflexivity. }
    exists (c :: copies).
    split; [|cbn [map]; rewrite C, Cs; reflexivity].
    rewrite <- (app_assoc acc [c] copies) in F. exact F.
Qed.

Lemma filter_other_tail rest : is_tail rest = true -> filter other rest = rest.
Proof.
  destruct rest as [|x r]; [reflexivity|]. cbn [is_tail]. intro H.
  apply andb_prop in H as [_ H]. apply TextFacts.filter_all.
  apply Forall_forall. apply forallb_forall. exact H.
Qed.

Lemma filter_other_shapes l : forallb is_shape l = true -> filter other l = [].
Proof.
  induction l as [|x t IH]; [reflexivity|]. cbn [forallb filter]. intro H.
  apply andb_prop in H as [Hx Ht]. unfold other at 1. rewrite Hx. cbn [negb].
  apply IH, Ht.
Qed.

(** X18. On a shape tree in the usual layout, the group properties, then
    the shapes, then nothing or the [p:extLst] marker and what follows it,
    [restore_template_shapes] rebuilds the whole tree and not only its
    shapes: afterwards the children of the tree are the properties, copies
    of the entries of the list in order, and the tail, whatever shapes the
    slide held before. *)
Theorem restore_rebuilds_tree
  (w : world) (props shapes rest snap : list elem) :
  s_tree (w_tmpl w) = props ++ shapes ++ rest ->
  forallb is_property props = true ->
  forallb is_shape shapes = true ->
  is_tail rest = true ->
  forallb is_shape snap = true ->
  map content (s_tree (w_tmpl (restore_template_shapes w snap)))
  = map content (props ++ snap ++ rest).
Proof.
  intros Ht Hp Hs Hr Hsnap. unfold restore_template_shapes.
  rewrite Ht, !filter_app.
  change (filter (fun e => negb (is_shape e))) with (filter other).
  rewrite (proj1 (proj2 (property_no_extLst props Hp))),
    (filter_other_shapes shapes Hs), (filter_other_tail rest Hr).
  cbn [app].
  destruct (restore_fold_layout props rest snap (w_next w) [] Hp Hr eq_refl
              Hsnap) as (copies & F & C).
  rewrite app_nil_r in F. cbn [app] in F.
  destruct (fold_left restore_one snap (w_next w, props ++ rest))
    as [n' tree2]. cbn [snd] in F. cbn [with_tmpl w_tmpl set_tree s_tree].
  rewrite F, <- app_assoc, !map_app, C. reflexivity.
Qed.

Lemma restore_rebuilds_tree_witness :
  map content
    (s_tree (w_tmpl (restore_template_shapes sample_world
                       [label 50%N "Name"; label 51%N "Phone"])))
  = map content
      (firstn 2 sample_tree ++ [label 50%N "Name"; label 51%N "Phone"] ++ []).
Proof.
  apply (restore_rebuilds_tree sample_world (firstn 2 sample_tree)
           (skipn 2 sample_tree) [] [label 50%N "Name"; label 51%N "Phone"]);
    reflexivity.
Defined.

End LayoutFacts.

(** * What the slides of a run show *)

Module ShowFacts.
Import Text Shapes Rels Remap World Samples More.
Import TextFacts RelsFacts RemapFacts ElemFacts FrameFacts RestoreFacts.
Import CloneFacts LoopFacts DriverFacts GroupFacts WriterFacts.
Import ShapesFacts SnapshotFacts CloneMoreFacts PictureFacts TextFillFacts.

(** ** What the collection of shapes reads *)

Lemma view_shapes A :
  forall B, map shape_view A = map shape_view B ->
            map shape_view (shapes_of A) = map shape_view (shapes_of B).
Proof.
  induction A as [|x A IH]; intros [|y B] H; try discriminate; [reflexivity|].
  cbn [map] in H. inversion H as [[Ht Hk HAB]].
  unfold shapes_of. cbn [filter]. unfold is_shape. rewrite Ht.
  destruct (is_shape_tag (e_tag y)).
  - cbn [map]. unfold shape_view at 1 3. rewrite Ht, Hk. f_equal.
    apply IH, HAB.
  - apply IH, HAB.
Qed.












(** ** Distinct objects through a cycle *)



Lemma NoDup_insert_middle (A B C : list N) :
  NoDup (A ++ C) -> NoDup B -> (forall x, In x B -> ~ In x (A ++ C)) ->
  NoDup (A ++ B ++ C).
Proof.
  intros H HB D. apply NoDup_app_intro.
  - eapply NoDup_app_remove_r, H.
  - apply NoDup_app_intro; [exact HB | eapply NoDup_app_remove_l, H |].
    intros x Hx Hc. apply (D x Hx). apply in_or_app. right. exact Hc.
  - intros x Ha Hbc. apply in_app_or in Hbc as [Hb|Hc].
    + apply (D x Hb). apply in_or_app. left. exact Ha.
    + eapply NoDup_app_disjoint; eassumption.
Qed.





(** ** One cycle, and the loop *)











End ShowFacts.

(** * The shapes a fill visits *)

Module VisitFacts.
Import Text Shapes Rels Remap World Samples More.
Import TextFacts RelsFacts RemapFacts ElemFacts FrameFacts RestoreFacts.
Import CloneFacts LoopFacts DriverFacts GroupFacts ShapesFacts WriterFacts.
Import SnapshotFacts PictureFacts TextFillFacts LayoutFacts ShowFacts.

Lemma candidates_shape T : Forall (fun e => is_shape e = true) (candidates T).
Proof.
  apply Forall_forall. intros e H. unfold candidates in H.
  apply in_flat_map in H as (s & Hs & He).
  apply filter_In in Hs as [_ Ss].
  destruct (is_group s).
  - apply filter_In in He as [_ Se]. exact Se.
  - destruct He as [<-|[]]. exact Ss.
Qed.

Lemma flat_map_keep (R : list elem) l L :
  (forall x, In x L -> e_loc x <> l) ->
  flat_map (fun x => if N.eqb (e_loc x) l then R else [x]) L = L.
Proof.
  induction L as [|x t IH]; intro H; [reflexivity|].
  cbn [flat_map]. destruct (N.eqb_spec (e_loc x) l) as [E|_].
  - destruct (H x (or_introl eq_refl) E).
  - cbn [app]. rewrite IH; [reflexivity|].
    intros y Hy. apply H. right. exact Hy.
Qed.

Lemma NoDup_remove_middle (A B C : list N) :
  NoDup (A ++ B ++ C) -> NoDup (A ++ C).
Proof.
  induction A as [|a A IH]; cbn [app]; intro H.
  - eapply NoDup_app_remove_l, H.
  - inversion H as [|? ? Hn Ht]; subst. constructor; [|apply IH, Ht].
    intro Hin. apply Hn. apply in_app_or in Hin as [Ha|Hc];
      apply in_or_app; [left; exact Ha|].
    right. apply in_or_app. right. exact Hc.
Qed.

Lemma shapes_id l :
  Forall (fun x => is_shape x = true) l -> shapes_of l = l.
Proof.
  intro H. apply shapes_of_all. apply forallb_forall.
  rewrite Forall_forall in H. exact H.
Qed.

(** A mutation of a shape the fill visits, seen in the list of the shapes
    to visit and in the objects of the tree. *)
Lemma edit_candidate T e f :
  NoDup (locs_l T) -> In e (candidates T) ->
  Forall (fun x => is_shape x = true) (f e) ->
  (is_group e = false -> Forall (fun x => is_group x = false) (f e)) ->
  candidates (edit_l (e_loc e) f T)
  = flat_map (fun x => if N.eqb (e_loc x) (e_loc e) then f e else [x])
      (candidates T) /\
  exists A C,
    locs_l T = A ++ locs e ++ C /\
    locs_l (edit_l (e_loc e) f T) = A ++ locs_l (f e) ++ C.
Proof.
  intros ND He Sf Gf.
  assert (Se : is_shape e = true).
  { pose proof (candidates_shape T) as X. rewrite Forall_forall in X.
    apply X, He. }
  set (l := e_loc e) in *.
  set (g := fun x => if N.eqb (e_loc x) l then f e else [x]).
  assert (Ge : g e = f e) by (unfold g; fold l; rewrite N.eqb_refl; reflexivity).
  assert (Keep : forall L, ~ In l (locs_l L) ->
                           flat_map g (candidates L) = candidates L).
  { intros L HL. apply flat_map_keep. intros x Hx E.
    apply candidate_loc in Hx. rewrite E in Hx. exact (HL Hx). }
  apply candidates_In in He as [[Hin Hg]|(gr & Hin & Hg & Hc)].
  - apply in_split in Hin as (pre & post & ->).
    destruct (NoDup_middle l pre e post ND (e_loc_in_locs e))
      as (Hpre & Hpost & _).
    rewrite (edit_middle _ _ _ _ _ eq_refl Hpre Hpost).
    split.
    + rewrite !candidates_app, (candidates_cons e post), Se, Hg.
      rewrite !flat_map_app. cbn [flat_map]. rewrite Ge, app_nil_r.
      rewrite (Keep pre Hpre), (Keep post Hpost).
      destruct (no_groups (f e) (Gf Hg)) as [_ ->].
      rewrite (shapes_id _ Sf). reflexivity.
    + exists (locs_l pre), (locs_l post).
      rewrite !locs_l_app, locs_l_cons. split; reflexivity.
  - apply in_split in Hin as (pre & post & ->).
    assert (Hlg : In l (locs gr)).
    { eapply kid_locs; [exact Hc | apply e_loc_in_locs]. }
    destruct (NoDup_middle l pre gr post ND Hlg) as (Hpre & Hpost & NDg).
    apply in_split in Hc as (kpre & kpost & Ek).
    rewrite locs_unfold, Ek in NDg.
    assert (Hng : e_loc gr <> l).
    { intro E. inversion NDg as [|? ? Hn _]. apply Hn.
      rewrite E. apply (In_loc e (kpre ++ e :: kpost)).
      apply in_or_app. right. left. reflexivity. }
    assert (NDk : NoDup (locs_l (kpre ++ e :: kpost))).
    { inversion NDg; subst. assumption. }
    destruct (NoDup_middle l kpre e kpost NDk (e_loc_in_locs e))
      as (Hkpre & Hkpost & _).
    rewrite edit_l_app, edit_l_cons, (edit_l_notin _ _ _ Hpre),
      (edit_l_notin _ _ _ Hpost), (edit_neq _ _ _ Hng).
    fold (edit_l l f (e_kids gr)).
    rewrite Ek, (edit_middle _ _ _ _ _ eq_refl Hkpre Hkpost).
    split.
    + assert (Sg : is_shape gr = true) by (apply is_group_shape; exact Hg).
      set (g' := Elem (e_loc gr) (e_tag gr) (e_attrs gr)
                   (kpre ++ f e ++ kpost)).
      assert (Sg' : is_shape g' = true) by exact Sg.
      assert (Gg' : is_group g' = true) by exact Hg.
      rewrite !candidates_app, candidates_single, (candidates_cons gr post).
      rewrite Sg, Sg', Hg, Gg', Ek. cbn [e_kids g'].
      rewrite !shapes_of_app, (shapes_id _ Sf).
      assert (S1 : shapes_of (e :: kpost) = e :: shapes_of kpost).
      { unfold shapes_of. cbn [filter]. rewrite Se. reflexivity. }
      rewrite S1, !flat_map_app. cbn [flat_map]. rewrite Ge.
      rewrite (Keep pre Hpre), (Keep post Hpost).
      assert (K2 : forall L, ~ In l (locs_l L) ->
                             flat_map g (shapes_of L) = shapes_of L).
      { intros L HL. apply flat_map_keep. intros x Hx E.
        apply filter_In in Hx as [Hx _]. apply In_loc in Hx.
        rewrite E in Hx. exact (HL Hx). }
      rewrite (K2 kpre Hkpre), (K2 kpost Hkpost).
      rewrite <- !app_assoc. reflexivity.
    + exists (locs_l pre ++ e_loc gr :: locs_l kpre),
             (locs_l kpost ++ locs_l post).
      cbn [app]. rewrite !locs_l_app, !locs_l_cons. cbn [locs].
      fold (locs_l (kpre ++ f e ++ kpost)).
      rewrite (locs_unfold gr), Ek. fold (locs_l (kpre ++ e :: kpost)).
      rewrite !locs_l_app, locs_l_cons.
      rewrite <- !app_assoc. cbn [app]. rewrite <- !app_assoc.
      split; reflexivity.
Qed.

(** ** Looking a shape up after a mutation of another *)

Lemma find_app (A : Type) (p : A -> bool) a b :
  find p (a ++ b)
  = match find p a with Some x => Some x | None => find p b end.
Proof.
  induction a as [|x t IH]; [reflexivity|]. cbn [app find].
  destruct (p x); [reflexivity | exact IH].
Qed.

Lemma find_absent l' (R : list elem) :
  (forall x, In x R -> e_loc x <> l') ->
  find (fun e => N.eqb (e_loc e) l') R = None.
Proof.
  induction R as [|x t IH]; intro H; [reflexivity|]. cbn [find].
  destruct (N.eqb_spec (e_loc x) l') as [E|_].
  - destruct (H x (or_introl eq_refl) E).
  - apply IH. intros y Hy. apply H. right. exact Hy.
Qed.

Lemma find_flat_map_frame l l' R L :
  l' <> l -> (forall x, In x R -> e_loc x <> l') ->
  find (fun e => N.eqb (e_loc e) l')
    (flat_map (fun x => if N.eqb (e_loc x) l then R else [x]) L)
  = find (fun e => N.eqb (e_loc e) l') L.
Proof.
  intros Hl HR. induction L as [|x t IH]; [reflexivity|].
  cbn [flat_map find]. rewrite find_app.
  destruct (N.eqb_spec (e_loc x) l) as [E|_].
  - rewrite (find_absent l' R HR).
    destruct (N.eqb_spec (e_loc x) l') as [E'|_]; [congruence | exact IH].
  - cbn [find]. destruct (N.eqb (e_loc x) l'); [reflexivity | exact IH].
Qed.

Lemma find_flat_map_hit l r L e :
  In e L -> e_loc e = l -> e_loc r = l ->
  find (fun e => N.eqb (e_loc e) l)
    (flat_map (fun x => if N.eqb (e_loc x) l then [r] else [x]) L)
  = Some r.
Proof.
  intros He El Er. induction L as [|x t IH]; [destruct He|].
  cbn [flat_map]. rewrite find_app.
  destruct (N.eqb_spec (e_loc x) l) as [E|N].
  - cbn [find]. rewrite Er, N.eqb_refl. reflexivity.
  - cbn [find]. destruct (N.eqb_spec (e_loc x) l) as [E|_]; [contradiction|].
    apply IH. destruct He as [<-|He]; [contradiction | exact He].
Qed.

Lemma find_unique L c :
  NoDup (map e_loc L) -> In c L ->
  find (fun e => N.eqb (e_loc e) (e_loc c)) L = Some c.
Proof.
  intros ND Hc.
  destruct (find (fun e => N.eqb (e_loc e) (e_loc c)) L) as [x|] eqn:F.
  - apply find_some in F as [Hx E]. apply N.eqb_eq in E.
    f_equal. apply (unique_by_loc L); assumption.
  - pose proof (find_none _ _ F c Hc) as X. cbn in X.
    rewrite N.eqb_refl in X. discriminate.
Qed.

(** ** The three mutations of a fill, on the tree *)

Lemma text_step T e v :
  NoDup (locs_l T) -> In e (candidates T) ->
  locs_l (edit_l (e_loc e) (fun x => [written x v]) T) = locs_l T /\
  find_shape (e_loc e) (edit_l (e_loc e) (fun x => [written x v]) T)
  = Some (written e v) /\
  forall l', l' <> e_loc e ->
             find_shape l' (edit_l (e_loc e) (fun x => [written x v]) T)
             = find_shape l' T.
Proof.
  intros ND He.
  destruct (written_same e v) as (W1 & W2 & W3 & W4).
  assert (Se : is_shape e = true).
  { pose proof (candidates_shape T) as X. rewrite Forall_forall in X.
    apply X, He. }
  destruct (edit_candidate T e (fun x => [written x v]) ND He)
    as (C & A & B & L1 & L2).
  { constructor; [rewrite W3; exact Se | constructor]. }
  { intro G. constructor; [rewrite W4; exact G | constructor]. }
  cbn beta in *. unfold find_shape. rewrite C.
  split; [|split].
  - rewrite L1, L2. cbn [locs_l flat_map]. rewrite app_nil_r, W2.
    reflexivity.
  - apply (find_flat_map_hit _ _ _ e He eq_refl W1).
  - intros l' Hl. apply find_flat_map_frame; [exact Hl|].
    intros x [<-|[]]. rewrite W1. intro E. apply Hl. symmetry. exact E.
Qed.

Lemma picture_locs T e (R : list elem) (n : N) T' A B :
  NoDup (locs_l T) -> ~ In n (locs_l T) ->
  locs_l T = A ++ locs e ++ B -> locs_l T' = A ++ locs_l R ++ B ->
  incl (locs_l R) [n] -> NoDup (locs_l R) ->
  NoDup (locs_l T') /\ incl (locs_l T') (n :: locs_l T).
Proof.
  intros ND Hn L1 L2 HR NR. rewrite L2. split.
  - rewrite L1 in ND. apply NoDup_remove_middle in ND.
    apply NoDup_insert_middle; [exact ND | exact NR |].
    intros x Hx Hin. apply HR in Hx. destruct Hx as [<-|[]].
    apply Hn. rewrite L1. apply in_app_or in Hin as [H|H];
      apply in_or_app; [left; exact H | right].
    apply in_or_app. right. exact H.
  - intros x Hx. apply in_app_or in Hx as [H|H].
    + right. rewrite L1. apply in_or_app. left. exact H.
    + apply in_app_or in H as [H|H].
      * apply HR in H. destruct H as [<-|[]]. left. reflexivity.
      * right. rewrite L1. apply in_or_app. right.
        apply in_or_app. right. exact H.
Qed.

Lemma replace_step T e pic :
  NoDup (locs_l T) -> In e (candidates T) ->
  ~ In (e_loc pic) (locs_l T) -> picture_like pic ->
  NoDup (locs_l (edit_l (e_loc e) (fun _ => [pic]) T)) /\
  incl (locs_l (edit_l (e_loc e) (fun _ => [pic]) T)) (e_loc pic :: locs_l T) /\
  forall l', l' <> e_loc e -> l' <> e_loc pic ->
             find_shape l' (edit_l (e_loc e) (fun _ => [pic]) T)
             = find_shape l' T.
Proof.
  intros ND He Hn (Sp & Gp & Lp).
  destruct (edit_candidate T e (fun _ => [pic]) ND He)
    as (C & A & B & L1 & L2).
  { constructor; [exact Sp | constructor]. }
  { intros _. constructor; [exact Gp | constructor]. }
  cbn beta in *.
  assert (LR : locs_l [pic] = [e_loc pic])
    by (cbn [locs_l flat_map]; rewrite app_nil_r; exact Lp).
  destruct (picture_locs T e [pic] (e_loc pic) _ A B ND Hn L1 L2) as (N1 & N2).
  { rewrite LR. apply incl_refl. }
  { rewrite LR. repeat constructor. intros []. }
  split; [exact N1|]. split; [exact N2|].
  intros l' Hl Hp. unfold find_shape. rewrite C.
  apply find_flat_map_frame; [exact Hl|].
  intros x [<-|[]]. intro E. apply Hp. symmetry. exact E.
Qed.

Lemma candidates_insert pic T :
  picture_like pic ->
  exists a b,
    candidates T = a ++ b /\
    candidates (insert_element_before_extLst pic T) = a ++ pic :: b.
Proof.
  intros (Sp & Gp & _).
  destruct (insert_split pic T) as (pre & post & -> & ->).
  exists (candidates pre), (candidates post).
  rewrite !candidates_app, (candidates_cons pic post), Sp, Gp.
  split; reflexivity.
Qed.

Lemma remove_step T e pic :
  NoDup (locs_l T) -> In e (candidates T) ->
  ~ In (e_loc pic) (locs_l T) -> picture_like pic ->
  NoDup (locs_l (edit_l (e_loc e) (fun _ => [])
                   (insert_element_before_extLst pic T))) /\
  incl (locs_l (edit_l (e_loc e) (fun _ => [])
                  (insert_element_before_extLst pic T)))
    (e_loc pic :: locs_l T) /\
  forall l', l' <> e_loc e -> l' <> e_loc pic ->
             find_shape l' (edit_l (e_loc e) (fun _ => [])
                              (insert_element_before_extLst pic T))
             = find_shape l' T.
Proof.
  intros ND He Hn Pp. pose proof Pp as (Sp & Gp & Lp).
  set (T1 := insert_element_before_extLst pic T).
  destruct (insert_split pic T) as (pre & post & Et & Ei). fold T1 in Ei.
  assert (L1 : locs_l T1 = locs_l pre ++ [e_loc pic] ++ locs_l post).
  { rewrite Ei, locs_l_app, locs_l_cons, Lp. reflexivity. }
  assert (ND1 : NoDup (locs_l T1)).
  { rewrite L1. rewrite Et, locs_l_app in ND, Hn.
    apply NoDup_insert_middle; [exact ND | repeat constructor; intros [] |].
    intros x [<-|[]]. exact Hn. }
  destruct (candidates_insert pic T Pp) as (a & b & Ca & Cb). fold T1 in Cb.
  assert (He1 : In e (candidates T1)).
  { rewrite Cb. rewrite Ca in He. apply in_app_or in He as [H|H];
      apply in_or_app; [left | right; right]; exact H. }
  destruct (edit_candidate T1 e (fun _ => []) ND1 He1)
    as (C & A & B & M1 & M2); [constructor | intros _; constructor |].
  cbn beta in *. cbn [locs_l flat_map app] in M2.
  assert (I1 : incl (locs_l T1) (e_loc pic :: locs_l T)).
  { rewrite L1, Et, locs_l_app. intros x Hx.
    apply in_app_or in Hx as [H|[<-|H]]; [right | left | right];
      try reflexivity; apply in_or_app; [left | right]; exact H. }
  split; [|split].
  - rewrite M2. rewrite M1 in ND1. eapply NoDup_remove_middle, ND1.
  - rewrite M2. intros x Hx. apply I1. rewrite M1.
    apply in_app_or in Hx as [H|H]; apply in_or_app; [left; exact H|].
    right. apply in_or_app. right. exact H.
  - intros l' Hl Hp. unfold find_shape. rewrite C.
    rewrite find_flat_map_frame; [|exact Hl | intros x []].
    rewrite Cb, Ca, !find_app. cbn [find].
    destruct (N.eqb_spec (e_loc pic) l') as [E|_]; [|reflexivity].
    destruct Hp. symmetry. exact E.
Qed.

(** ** One round of the loop, on the world *)

Lemma distinct_objects_below w : distinct_objects w = true -> distinct_below w.
Proof.
  unfold distinct_objects, distinct_below. intro H.
  apply andb_true_iff in H as [H1 H2]. split.
  - apply nodup_locs_NoDup, H1.
  - apply Forall_forall. intros x Hx. rewrite forallb_forall in H2.
    apply N.ltb_lt, H2, Hx.
Qed.

Lemma candidate_found T c :
  NoDup (locs_l T) -> In c (candidates T) -> find_shape (e_loc c) T = Some c.
Proof.
  intros ND Hc. unfold find_shape. apply find_unique; [|exact Hc].
  apply (NoDup_candidate_locs T ND).
Qed.

Lemma found_candidate T l c :
  find_shape l T = Some c -> In c (candidates T) /\ e_loc c = l.
Proof.
  unfold find_shape. intro F. apply find_some in F as [H E].
  apply N.eqb_eq in E. auto.
Qed.

Lemma set_text_step w c v :
  distinct_below w -> In c (candidates (s_tree (w_tmpl w))) ->
  distinct_below (set_text_at w (e_loc c) v) /\
  w_next (set_text_at w (e_loc c) v) = w_next w /\
  find_shape (e_loc c) (s_tree (w_tmpl (set_text_at w (e_loc c) v)))
  = Some (written c v) /\
  forall l', l' <> e_loc c ->
             find_shape l' (s_tree (w_tmpl (set_text_at w (e_loc c) v)))
             = find_shape l' (s_tree (w_tmpl w)).
Proof.
  intros [ND B] Hc.
  destruct (text_step _ c v ND Hc) as (L & Hit & Fr).
  unfold distinct_below. rewrite set_text_at_tree, L.
  split; [split; [exact ND | exact B]|].
  split; [reflexivity|]. split; [exact Hit | exact Fr].
Qed.

Lemma fresh_below (n : N) ls :
  Forall (fun x => (x < n)%N) ls -> ~ In n ls.
Proof.
  intros B H. rewrite Forall_forall in B. apply B in H. lia.
Qed.

Lemma below_succ (n : N) ls ls' :
  Forall (fun x => (x < n)%N) ls -> incl ls' (n :: ls) ->
  Forall (fun x => (x < N.succ n)%N) ls'.
Proof.
  intros B I. apply Forall_forall. intros x Hx. apply I in Hx.
  destruct Hx as [<-|Hx]; [lia|]. rewrite Forall_forall in B.
  apply B in Hx. lia.
Qed.

Lemma fill_picture_step fs w c p :
  distinct_below w -> In c (candidates (s_tree (w_tmpl w))) ->
  distinct_below (fill_picture fs w c p) /\
  (w_next w <= w_next (fill_picture fs w c p))%N /\
  forall l', l' <> e_loc c -> (l' < w_next w)%N ->
             find_shape l' (s_tree (w_tmpl (fill_picture fs w c p)))
             = find_shape l' (s_tree (w_tmpl w)).
Proof.
  intros D Hc. pose proof D as [ND B].
  assert (Same : distinct_below w /\ (w_next w <= w_next w)%N /\
                 forall l', l' <> e_loc c -> (l' < w_next w)%N ->
                            find_shape l' (s_tree (w_tmpl w))
                            = find_shape l' (s_tree (w_tmpl w))).
  { split; [exact D|]. split; [lia | reflexivity]. }
  unfold fill_picture.
  destruct (is_empty p); [exact Same|].
  destruct (fs p) as [[blob|]|]; [|exact Same | exact Same].
  destruct (relate_to (s_rels (w_tmpl w)) (Internal (PImage blob))
              image_reltype) as [rels' rId].
  pose proof (fresh_below _ _ B) as Fresh.
  destruct (a_ph (e_attrs c)) eqn:Ph.
  all: match goal with
       | |- context [world_edit _ (fun _ => [?pic]) _] =>
           destruct (replace_step _ c pic ND Hc Fresh) as (N1 & N2 & Fr);
           [repeat split|]
       | |- context [insert_element_before_extLst ?pic _] =>
           destruct (remove_step _ c pic ND Hc Fresh) as (N1 & N2 & Fr);
           [repeat split|]
       end.
  all: unfold distinct_below; cbn [world_edit with_tmpl w_tmpl w_next
                                     slide_edit s_tree set_tree set_rels].
  all: split; [split; [exact N1 | exact (below_succ _ _ _ B N2)]|].
  all: split; [lia|].
  all: intros l' Hl Hb; apply Fr; [exact Hl | cbn [e_loc]; lia].
Qed.

Lemma log_shape_cases d log c :
  (is_empty (shape_key c) = true -> log_shape d log c = log) /\
  (is_empty (shape_key c) = false ->
   dict_get d (shape_key c) = None ->
   log_shape d log c = unmatched log (shape_key c)) /\
  (is_empty (shape_key c) = false ->
   forall v, dict_get d (shape_key c) = Some v ->
             log_shape d log c = matched log).
Proof.
  unfold log_shape, has_column, lacks_column.
  split; [|split]; intro E; rewrite E; cbn [negb andb].
  - reflexivity.
  - intros ->. reflexivity.
  - intros v ->. reflexivity.
Qed.

Lemma fill_shape_step fs sufs d w log c :
  distinct_below w -> In c (candidates (s_tree (w_tmpl w))) ->
  distinct_below (fst (fill_shape fs sufs d (w, log) (e_loc c))) /\
  (w_next w <= w_next (fst (fill_shape fs sufs d (w, log) (e_loc c))))%N /\
  (forall l', l' <> e_loc c -> (l' < w_next w)%N ->
              find_shape l'
                (s_tree (w_tmpl (fst (fill_shape fs sufs d (w, log) (e_loc c)))))
              = find_shape l' (s_tree (w_tmpl w))) /\
  (no_picture sufs d c = true ->
   find_shape (e_loc c)
     (s_tree (w_tmpl (fst (fill_shape fs sufs d (w, log) (e_loc c)))))
   = Some (filled sufs d c)) /\
  snd (fill_shape fs sufs d (w, log) (e_loc c)) = log_shape d log c.
Proof.
  intros D Hc. pose proof D as [ND B].
  pose proof (candidate_found _ c ND Hc) as F.
  destruct (log_shape_cases d log c) as (L1 & L2 & L3).
  unfold fill_shape. rewrite F. fold (shape_key c).
  unfold no_picture, filled.
  destruct (is_empty (shape_key c)) eqn:E.
  { cbn [fst snd]. split; [exact D|]. split; [lia|].
    split; [reflexivity|]. split; [intros _; exact F | symmetry; auto]. }
  destruct (dict_get d (shape_key c)) as [val|] eqn:G.
  2:{ cbn [fst snd]. split; [exact D|]. split; [lia|].
      split; [reflexivity|]. split; [intros _; exact F | symmetry; auto]. }
  rewrite (L3 eq_refl val eq_refl).
  destruct (route sufs (shape_key c) val) as [|sval|sval]; cbn [fst snd].
  - destruct (has_text_frame c) eqn:Tf.
    + destruct (set_text_step w c (VStr []) D Hc) as (D1 & Nx & Hit & Fr).
      split; [exact D1|]. split; [rewrite Nx; lia|].
      split; [intros l' Hl _; apply Fr, Hl|].
      split; [intros _; exact Hit | reflexivity].
    + rewrite (written_no_frame c _ Tf).
      split; [exact D|]. split; [lia|]. split; [reflexivity|].
      split; [intros _; exact F | reflexivity].
  - destruct (fill_picture_step fs w c sval D Hc) as (D1 & Nx & Fr).
    split; [exact D1|]. split; [exact Nx|]. split; [exact Fr|].
    split; [discriminate | reflexivity].
  - destruct (set_text_step w c (VStr sval) D Hc) as (D1 & Nx & Hit & Fr).
    split; [exact D1|]. split; [rewrite Nx; lia|].
    split; [intros l' Hl _; apply Fr, Hl|].
    split; [intros _; exact Hit | reflexivity].
Qed.

(** ** The loop over the collected shapes *)

Lemma fill_loop fs sufs d cs :
  forall w log,
    distinct_below w ->
    NoDup (map e_loc cs) ->
    (forall c, In c cs -> find_shape (e_loc c) (s_tree (w_tmpl w)) = Some c) ->
    distinct_below
      (fst (fold_left (fill_shape fs sufs d) (map e_loc cs) (w, log))) /\
    (w_next w
     <= w_next (fst (fold_left (fill_shape fs sufs d) (map e_loc cs) (w, log))))%N /\
    (forall l', ~ In l' (map e_loc cs) -> (l' < w_next w)%N ->
                find_shape l'
                  (s_tree (w_tmpl (fst (fold_left (fill_shape fs sufs d)
                                          (map e_loc cs) (w, log)))))
                = find_shape l' (s_tree (w_tmpl w))) /\
    (forall c, In c cs -> no_picture sufs d c = true ->
               find_shape (e_loc c)
                 (s_tree (w_tmpl (fst (fold_left (fill_shape fs sufs d)
                                         (map e_loc cs) (w, log)))))
               = Some (filled sufs d c)) /\
    snd (fold_left (fill_shape fs sufs d) (map e_loc cs) (w, log))
    = fold_left (log_shape d) cs log.
Proof.
  induction cs as [|c t IH]; intros w log D ND Hf.
  { cbn [map fold_left fst snd]. split; [exact D|]. split; [lia|].
    split; [reflexivity|]. split; [intros c []| reflexivity]. }
  cbn [map fold_left].
  assert (Hc : In c (candidates (s_tree (w_tmpl w)))).
  { apply (found_candidate _ (e_loc c)), Hf. left. reflexivity. }
  assert (Below : forall x, In x (c :: t) -> (e_loc x < w_next w)%N).
  { intros x Hx. destruct D as [_ B]. rewrite Forall_forall in B.
    apply B, candidate_loc. apply (found_candidate _ (e_loc x)), Hf, Hx. }
  destruct (fill_shape_step fs sufs d w log c D Hc)
    as (D1 & Nx & Fr & Hit & Lg).
  destruct (fill_shape fs sufs d (w, log) (e_loc c)) as [w1 log1].
  cbn [fst snd] in D1, Nx, Fr, Hit, Lg. subst log1.
  inversion ND as [|? ? Nc NDt]; subst.
  assert (Ht : forall x, In x t ->
                         find_shape (e_loc x) (s_tree (w_tmpl w1)) = Some x).
  { intros x Hx. rewrite Fr.
    - apply Hf. right. exact Hx.
    - intro E. apply Nc. rewrite <- E. apply in_map, Hx.
    - apply Below. right. exact Hx. }
  destruct (IH w1 (log_shape d log c) D1 NDt Ht)
    as (D2 & Nx2 & Fr2 & Hit2 & Lg2).
  split; [exact D2|]. split; [lia|]. split; [|split].
  - intros l' Hn Hb. rewrite Fr2.
    + apply Fr; [|exact Hb]. intro E. apply Hn. left. symmetry. exact E.
    + intro H. apply Hn. right. exact H.
    + lia.
  - intros x [<-|Hx] Np.
    + rewrite Fr2; [apply Hit, Np | exact Nc |].
      pose proof (Below c (or_introl eq_refl)). lia.
    + apply Hit2; assumption.
  - exact Lg2.
Qed.

Lemma log_loop d cs :
  forall log,
    matched_count (fold_left (log_shape d) cs log)
    = matched_count log + length (filter (has_column d) cs) /\
    unmatched_shapes (fold_left (log_shape d) cs log)
    = unmatched_shapes log ++ map shape_key (filter (lacks_column d) cs).
Proof.
  induction cs as [|c t IH]; intro log.
  { cbn. rewrite Nat.add_0_r, app_nil_r. split; reflexivity. }
  cbn [fold_left filter]. destruct (IH (log_shape d log c)) as [M U].
  rewrite M, U. unfold log_shape.
  assert (X : has_column d c = true -> lacks_column d c = false).
  { unfold has_column, lacks_column.
    destruct (is_empty (shape_key c)); [discriminate|]. cbn [negb andb].
    destruct (dict_get d (shape_key c)); [reflexivity | discriminate]. }
  destruct (has_column d c) eqn:H.
  - rewrite (X eq_refl). cbn [matched matched_count unmatched_shapes length].
    split; [lia | reflexivity].
  - destruct (lacks_column d c); cbn [unmatched matched_count
                                        unmatched_shapes map].
    + split; [lia|]. rewrite <- app_assoc. reflexivity.
    + split; reflexivity.
Qed.

(** C9. A fill of a template slide of distinct objects whose collection of
    shapes fails, because a top-level shape raises on its [shape_type],
    changes nothing and reports nothing. Otherwise it processes the
    top-level shapes that are no groups and the shapes directly inside a
    top-level group, and no other, each of them once: the matches counted
    are the processed shapes whose label has a column, the keys recorded as
    unmatched are the labels without a column, in the order of the shapes,
    and the fill goes on and returns; a processed shape whose value is no
    picture path is afterwards what the writer makes of it; the groups
    directly inside a top-level group, with all the shapes two or more
    groups deep, are after the fill what they were before. *)
Theorem fill_visits_one_level
  (fs : filesystem) (image_suffixes : list pystr) (w : world) (r : row) :
  distinct_objects w = true -> fill_contract fs image_suffixes w r.
Proof.
  intro H. unfold fill_contract.
  destruct (fill_cases fs image_suffixes w r) as [[C E]|[C E]]; rewrite C.
  { exact E. }
  rewrite E. fold (shapes_to_process (s_tree (w_tmpl w))).
  pose proof (distinct_objects_below w H) as D. pose proof D as [ND _].
  unfold shapes_to_process.
  destruct (fill_loop fs image_suffixes (make_row_dict r)
              (candidates (s_tree (w_tmpl w))) w empty_log D
              (NoDup_candidate_locs _ ND)
              (fun c Hc => candidate_found _ c ND Hc))
    as (_ & _ & _ & Hit & Lg).
  destruct (log_loop (make_row_dict r) (candidates (s_tree (w_tmpl w)))
              empty_log) as [M U].
  split; [intro l; apply visited_iff|].
  split; [rewrite Lg, M; reflexivity|].
  split; [rewrite Lg, U; reflexivity|].
  split; [exact Hit|].
  pose proof (distinct_groups_kept w H) as K.
  apply (fill_shapes_groups _ _ fs image_suffixes (make_row_dict r)
           (shapes_to_process (s_tree (w_tmpl w))) w empty_log) in K.
  destruct K as (_ & K & _). exact K.
Qed.

Lemma fill_visits_one_level_witness :
  distinct_objects sample_world = true /\
  fill_contract sample_fs IMAGE_EXTENSIONS sample_world
    [ (of_string "Name", VStr (of_string "Hong"));
      (of_string "Logo_IMG", VStr (of_string "images/logo1.png")) ].
Proof.
  split; [reflexivity|].
  apply (fill_visits_one_level sample_fs IMAGE_EXTENSIONS sample_world).
  reflexivity.
Defined.

(** On a slide with a shape of no recognised type the fill stops before it
    looks at any shape: the text box labelled with a column keeps its
    label. *)
Lemma fill_stops_on_untyped_shape :
  distinct_objects sample_untyped_world = true /\
  ~ always_fills sample_fs IMAGE_EXTENSIONS sample_untyped_world
      [ (of_string "Name", VStr (of_string "Hong")) ].
Proof.
  split; [reflexivity|]. intro A.
  specialize (A (label 1%N "Name") (or_introl eq_refl) eq_refl).
  vm_compute in A. discriminate A.
Qed.

End VisitFacts.

(** * The shape tree over the cycles of fill, clone and restore *)

Module CycleFacts.
Import Text Shapes Rels Remap World Samples More.
Import TextFacts RelsFacts RemapFacts ElemFacts FrameFacts RestoreFacts.
Import CloneFacts LoopFacts DriverFacts GroupFacts ShapesFacts WriterFacts.
Import SnapshotFacts PictureFacts TextFillFacts LayoutFacts ShowFacts.
Import VisitFacts.

(** ** A fill leaves the children that are no shapes alone *)













(** ** A restore puts the copies between the properties and the tail *)








(** ** One cycle, and the loop *)







End CycleFacts.
